(** * Black-hole lensing fragment shader: a shallow embedding over the reals

    The per-pixel pipeline of the integrated-bending fragment shader
    (impact parameter, Rodrigues rotation, deflection models, sphere-traced
    marching with in-march bending, lensed sky sampling, compositing) is
    transcribed function by function.  GLSL [float] is idealised as the real
    numbers [R]: unless it says otherwise, a statement below is a statement
    in exact arithmetic, with no rounding, no NaN and no infinities.  The
    one place where single precision changes the branch that is taken, the
    underflow of the weights of [sampleLensedSky], is modelled separately
    in [SinglePrecision], and the statements about the value that
    [sampleLensedSky] returns are made there.  GLSL [int] is [Z]; the only
    integers of the shader are loop counters bounded by 500. *)

From Stdlib Require Import Reals Lra Lia ZArith Zfloor RNsatz List.
Import ListNotations.
From Equations Require Import Equations.

Open Scope R_scope.

(** ** Vector and matrix types of GLSL *)

Record vec2 : Type := mkvec2 { v2x : R; v2y : R }.
Record vec3 : Type := mkvec3 { vx : R; vy : R; vz : R }.
Record vec4 : Type := mkvec4 { v4x : R; v4y : R; v4z : R; v4w : R }.

(** A [mat4] is stored by columns, as in GLSL. *)
Record mat4 : Type := mkmat4 { col0 : vec4; col1 : vec4; col2 : vec4; col3 : vec4 }.

(** ** The GLSL built-ins the shader calls *)

Module Glsl.

(** [vec3(s)]: the scalar broadcast to all components. *)
Definition splat3 (s : R) : vec3 := mkvec3 s s s.

Definition add3 (a b : vec3) : vec3 :=
  mkvec3 (vx a + vx b) (vy a + vy b) (vz a + vz b).

Definition sub3 (a b : vec3) : vec3 :=
  mkvec3 (vx a - vx b) (vy a - vy b) (vz a - vz b).

(** [v * s] and [v / s] for a vector and a scalar. *)
Definition scale3 (v : vec3) (s : R) : vec3 :=
  mkvec3 (vx v * s) (vy v * s) (vz v * s).

Definition div3 (v : vec3) (s : R) : vec3 :=
  mkvec3 (vx v / s) (vy v / s) (vz v / s).

Definition dot (a b : vec3) : R :=
  vx a * vx b + vy a * vy b + vz a * vz b.

Definition cross (a b : vec3) : vec3 :=
  mkvec3 (vy a * vz b - vz a * vy b)
         (vz a * vx b - vx a * vz b)
         (vx a * vy b - vy a * vx b).

Definition length (v : vec3) : R := sqrt (dot v v).

Definition normalize (v : vec3) : vec3 := div3 v (length v).

(** The [vec2] operations used by the star hash. *)
Definition add2 (a b : vec2) : vec2 := mkvec2 (v2x a + v2x b) (v2y a + v2y b).
Definition adds2 (a : vec2) (s : R) : vec2 := mkvec2 (v2x a + s) (v2y a + s).
Definition mul2 (a b : vec2) : vec2 := mkvec2 (v2x a * v2x b) (v2y a * v2y b).
Definition scale2 (a : vec2) (s : R) : vec2 := mkvec2 (v2x a * s) (v2y a * s).
Definition dot2 (a b : vec2) : R := v2x a * v2x b + v2y a * v2y b.

(** [mat4 * vec4]: the linear combination of the columns. *)
Definition mulMV (m : mat4) (v : vec4) : vec4 :=
  mkvec4
    (v4x (col0 m) * v4x v + v4x (col1 m) * v4y v + v4x (col2 m) * v4z v + v4x (col3 m) * v4w v)
    (v4y (col0 m) * v4x v + v4y (col1 m) * v4y v + v4y (col2 m) * v4z v + v4y (col3 m) * v4w v)
    (v4z (col0 m) * v4x v + v4z (col1 m) * v4y v + v4z (col2 m) * v4z v + v4z (col3 m) * v4w v)
    (v4w (col0 m) * v4x v + v4w (col1 m) * v4y v + v4w (col2 m) * v4z v + v4w (col3 m) * v4w v).

(** The [.xyz] swizzle. *)
Definition xyz (v : vec4) : vec3 := mkvec3 (v4x v) (v4y v) (v4z v).

(** [vec4(v, w)]. *)
Definition vec4_of (v : vec3) (w : R) : vec4 := mkvec4 (vx v) (vy v) (vz v) w.

(** Scalar built-ins. [max], [min] and [abs] are [Rmax], [Rmin], [Rabs]. *)
Definition clamp (x lo hi : R) : R := Rmin (Rmax x lo) hi.

Definition mix (x y a : R) : R := x * (1 - a) + y * a.

Definition mix3 (x y : vec3) (a : R) : vec3 :=
  mkvec3 (mix (vx x) (vx y) a) (mix (vy x) (vy y) a) (mix (vz x) (vz y) a).

Definition step (edge x : R) : R := if Rlt_dec x edge then 0 else 1.

Definition smoothstep (e0 e1 x : R) : R :=
  let t := clamp ((x - e0) / (e1 - e0)) 0 1 in
  t * t * (3 - 2 * t).

Definition floor (x : R) : R := IZR (Zfloor x).

Definition fract (x : R) : R := x - floor x.

Definition floor2 (p : vec2) : vec2 := mkvec2 (floor (v2x p)) (floor (v2y p)).
Definition fract2 (p : vec2) : vec2 := mkvec2 (fract (v2x p)) (fract (v2y p)).

(** [pow(x, y)].  GLSL leaves the result undefined for [x < 0]; the model
    takes the power of [|x|] there, which is the value for the even
    exponent [2.0], the only one the shader applies to a base that can be
    negative. *)
Definition pow (x y : R) : R :=
  if Req_EM_T x 0 then 0 else Rpower (Rabs x) y.

(** The two-argument arctangent [atan(y, x)]: the angle of the point
    [(x, y)], in [(-PI, PI]] ([0] at the origin, where GLSL leaves it
    undefined). *)
Definition atan2 (y x : R) : R :=
  if Rlt_dec 0 x then atan (y / x)
  else if Rlt_dec x 0 then
    (if Rle_dec 0 y then atan (y / x) + PI else atan (y / x) - PI)
  else if Rlt_dec 0 y then PI / 2
  else if Rlt_dec y 0 then - (PI / 2)
  else 0.

(** [int(x)]: conversion of a float to an int, truncating toward zero. *)
Definition int_of_float (x : R) : Z :=
  if Rle_dec 0 x then Zfloor x else Zceil x.

End Glsl.

Import Glsl.

(** ** Black hole physical constants *)

Definition r_s : R := 1.0.
Definition r_ph : R := 1.5 * r_s.
Definition b_crit : R := 2.598 * r_s.

(** ** Signed distance functions *)

Definition sphereSDF (p center : vec3) (radius : R) : R :=
  length (sub3 p center) - radius.

Definition sceneSDF (p : vec3) : R := sphereSDF p (splat3 0.0) r_s.

(** ** Impact parameter and rotation *)

(** Impact parameter of the ray [O + t D] with respect to the origin
    ([D] is assumed normalized). *)
Definition calcb (O D : vec3) : R := length (cross O D).

(** Rodrigues rotation (axis assumed normalized). *)
Definition rotateRodrigues (v axis : vec3) (ang : R) : vec3 :=
  add3 (add3 (scale3 v (cos ang)) (scale3 (cross axis v) (sin ang)))
       (scale3 (scale3 axis (dot axis v)) (1.0 - cos ang)).

(** ** Deflection models *)

(** The shader's function takes [r_s] and [b_crit] as parameters that
    shadow the globals of the same names. *)
Definition deflectionAngleStable (b r_s b_crit : R) : R :=
  let weak := 2.0 * r_s / Rmax b 1e-6 in
  let distToCrit := b - b_crit in
  let scale := 0.08 * b_crit in
  let nearFactor := 1.0 + 3.0 * exp (- (distToCrit * distToCrit) / (scale * scale)) in
  let raw := weak * nearFactor in
  let saturated := atan raw * 2.0 in
  clamp saturated 0.0 6.0.

(** Approximate deflection angle (kept for [sampleLensedSky], not used in
    marching). *)
Definition deflectionAngleApprox (b r_s b_crit : R) : R :=
  let rel := (b - b_crit) / (0.2 * b_crit) in
  let rel := clamp rel (-5.0) 5.0 in
  clamp ((1.0 / (rel * rel + 0.001)) * (0.25 * r_s)) 0.0 20.0.

(** ** Gravitational lensing colour *)

Definition computeLensedColor (b : R) : vec3 :=
  let normalized := b / b_crit in
  let intensity := exp (- pow (normalized - 1.0) 2.0 * 12.0) in
  let baseColor := mkvec3 1.0 0.8 0.6 in
  let redshift := mkvec3 0.9 0.45 0.25 in
  let color := mix3 baseColor redshift (smoothstep 1.0 0.3 normalized) in
  let phBoost := exp (- pow (normalized - (r_ph / b_crit)) 2.0 * 50.0) in
  scale3 color (intensity + 0.6 * phBoost).

(** ** Lensed starfield background *)

Definition MAX_ORDERS : Z := 5.
Definition TWO_PI : R := 6.28318530718.

(** Simple hash for star noise. *)
Definition hash21 (p : vec2) : R :=
  let p := fract2 (mul2 p (mkvec2 123.34 345.45)) in
  let p := adds2 p (dot2 p (adds2 p 34.345)) in
  fract (v2x p * v2y p).

(** Procedural starfield background. *)
Definition skyColor (dir : vec3) : vec3 :=
  let t := 0.5 * (vy dir + 1.0) in
  let base := mix3 (mkvec3 0.02 0.02 0.06) (mkvec3 0.15 0.25 0.5) t in
  let uv := mkvec2 (atan2 (vz dir) (vx dir) / TWO_PI + 0.5)
                   (asin (vy dir) / 3.14159265 + 0.5) in
  let s := hash21 (floor2 (scale2 uv 1024.0)) in
  let star := step 0.9995 s * pow (hash21 (scale2 uv 4321.0)) 10.0 in
  add3 base (splat3 star).

(** Rotate vector [v] around [axis] by [ang]. *)
Definition rotateAroundAxis (v axis : vec3) (ang : R) : vec3 :=
  add3 (add3 (scale3 v (cos ang)) (scale3 (cross axis v) (sin ang)))
       (scale3 (scale3 axis (dot axis v)) (1.0 - cos ang)).

(** The locals of one pass of the order loop of [sampleLensedSky], as
    functions of the impact parameter [b] and the loop counter [n]. *)
Definition alphaN (b : R) (n : Z) : R :=
  let baseAlpha := deflectionAngleApprox b r_s b_crit in
  baseAlpha + IZR n * TWO_PI.

(** [weightN] is the weight in exact arithmetic, where it is a positive
    real for every [b]; [SinglePrecision.weightN] is the same computation
    with the underflow of 32-bit floats. *)
Definition weightN (b : R) (n : Z) : R :=
  let weight := exp (- IZR n * 4.0) in
  let closeness := exp (- Rabs ((b - b_crit) / (0.1 * b_crit))) in
  weight * closeness.

Definition bentN (Dn axis : vec3) (b : R) (n : Z) : vec3 :=
  rotateAroundAxis Dn axis (alphaN b n).

(** The accumulators [accum] and [totalWeight]. *)
Record LensAcc : Type := mkLensAcc { accum : vec3; totalWeight : R }.

(** The body of the loop [for (int n = 0; n <= MAX_ORDERS; ++n)]. *)
Definition lens_body (Dn axis : vec3) (b : R) (n : Z) (a : LensAcc) : LensAcc :=
  let weight := weightN b n in
  let bent := bentN Dn axis b n in
  let sample := skyColor bent in
  mkLensAcc (add3 (accum a) (scale3 sample weight)) (totalWeight a + weight).

(** The number of passes of the order loop still to run at counter value [n]. *)
Definition orders_left (n : Z) : nat := Z.to_nat (MAX_ORDERS + 1 - n).

Lemma orders_left_decreases (n : Z) :
  (n <= MAX_ORDERS)%Z -> (orders_left (n + 1) < orders_left n)%nat.
Proof. unfold orders_left, MAX_ORDERS. lia. Qed.

(** The loop itself, from counter value [n] on: it runs while
    [n <= MAX_ORDERS]. *)
Equations? lens_loop (Dn axis : vec3) (b : R) (n : Z) (a : LensAcc) : LensAcc
  by wf (orders_left n) lt :=
  lens_loop Dn axis b n a with Z_le_dec n MAX_ORDERS := {
    | left _ => lens_loop Dn axis b (n + 1) (lens_body Dn axis b n a)
    | right _ => a }.
Proof. now apply orders_left_decreases. Qed.

(** Main lens sampling (used for background sampling). *)
Definition sampleLensedSky (ro D : vec3) (b : R) : vec3 :=
  let Dn := normalize D in
  if Rle_dec b b_crit then splat3 0.0
  else
    let r := ro in
    let axisRaw := cross Dn r in
    let axisLen := length axisRaw in
    if Rlt_dec axisLen 1e-6 then skyColor Dn
    else
      let axis := div3 axisRaw axisLen in
      let a := lens_loop Dn axis b 0 (mkLensAcc (splat3 0.0) 0.0) in
      if Rgt_dec (totalWeight a) 0.0 then div3 (accum a) (totalWeight a)
      else skyColor Dn.

(** ** Main fragment *)

(** The uniforms of the shader, constant during a frame. *)
Record Uniforms : Type := mkUniforms {
  iResolution : vec2;
  cameraPos : vec3;
  viewMatrix : mat4;
  invViewMatrix : mat4
}.

Definition MAX_STEPS : Z := 500.
Definition MAX_DIST : R := 100.0.
Definition MIN_STEP : R := 0.001.
Definition BEND_UPDATE_INTERVAL : R := 2.0.

(** The variables of [main] that the marching loop reads and writes.
    [d] and [p] are declared without an initial value; every pass assigns
    them before reading them. *)
Record MarchState : Type := mkMarchState {
  ms_t : R;
  ms_d : R;
  ms_hit : bool;
  ms_p : vec3;
  ms_D : vec3
}.

(** How one pass of the loop body ends: at a [break], or at its closing
    brace. *)
Inductive Flow : Type :=
| Break (s : MarchState)
| Next (s : MarchState).

(** The direction update of the marching loop (the block run when the
    step index is a multiple of the bending interval): the new value of
    [D], for the current point [p] and direction [D]. *)
Definition bend_update (p D : vec3) : vec3 :=
  let toCenter := p in
  let axisRaw := cross D toCenter in
  let axisLen := length axisRaw in
  if Rgt_dec axisLen 1e-6 then
    let axis := div3 axisRaw axisLen in
    let local_b := length (cross toCenter D) / Rmax 1e-6 (length D) in
    let ang := deflectionAngleStable local_b r_s b_crit in
    let r := Rmax (length toCenter) 1e-6 in
    let falloff := clamp (r_ph / r) 0.0 4.0 in
    let incremental := 0.18 * ang * (falloff / IZR MAX_STEPS) * 200.0 in
    let incremental := clamp incremental 0.0 1.2 in
    normalize (rotateRodrigues D axis incremental)
  else D.

(** One pass of the body of [for (int i = 0; i < MAX_STEPS; ++i)]. *)
Definition march_body (O : vec3) (i : Z) (s : MarchState) : Flow :=
  let p := add3 O (scale3 (ms_D s) (ms_t s)) in
  let d := sceneSDF p in
  if Rlt_dec d 0.001 then Break (mkMarchState (ms_t s) d true p (ms_D s))
  else if Rgt_dec (ms_t s) MAX_DIST then Break (mkMarchState (ms_t s) d (ms_hit s) p (ms_D s))
  else
    let step := Rmax d MIN_STEP in
    let t := ms_t s + step in
    let D :=
      if (Z.rem i (int_of_float (Rmax 1.0 BEND_UPDATE_INTERVAL)) =? 0)%Z
      then bend_update p (ms_D s)
      else ms_D s in
    Next (mkMarchState t d (ms_hit s) p D).

(** The number of passes the loop can still start at counter value [i]. *)
Definition steps_left (i : Z) : nat := Z.to_nat (MAX_STEPS - i).

Lemma steps_left_decreases (i : Z) :
  (i < MAX_STEPS)%Z -> (steps_left (i + 1) < steps_left i)%nat.
Proof. unfold steps_left, MAX_STEPS. lia. Qed.

(** The marching loop from counter value [i] on, for the ray origin [ro]
    (the shader's [O], set to [ro] before the loop).  It returns the state
    at loop exit together with the number of passes it started (a count
    kept by the model only). *)
Equations? march_loop (ro : vec3) (i : Z) (s : MarchState) : MarchState * nat
  by wf (steps_left i) lt :=
  march_loop ro i s with Z_lt_dec i MAX_STEPS := {
    | left _ with march_body ro i s := {
        | Break s' => (s', 1%nat)
        | Next s' => let r := march_loop ro (i + 1) s' in (fst r, S (snd r)) }
    | right _ => (s, 0%nat) }.
Proof. now apply steps_left_decreases. Qed.

(** The per-pixel entry point: [FragColor] for the fragment at
    [gl_FragCoord].  ([likelyCaptured] is computed and never read.) *)
Definition main (u : Uniforms) (gl_FragCoord : vec4) : vec4 :=
  let uv := mkvec2 (v4x gl_FragCoord / v2x (iResolution u) * 2.0 - 1.0)
                   (v4y gl_FragCoord / v2y (iResolution u) * 2.0 - 1.0) in
  let uv := mkvec2 (v2x uv * (v2x (iResolution u) / v2y (iResolution u))) (v2y uv) in
  let rayDirCam := normalize (mkvec3 (v2x uv) (v2y uv) (-1.0)) in
  let rayDirWorld := normalize (xyz (mulMV (invViewMatrix u) (vec4_of rayDirCam 0.0))) in
  let ro := cameraPos u in
  let b_global := calcb ro rayDirWorld in
  let D := rayDirWorld in
  let O := ro in
  let likelyCaptured := if Rle_dec b_global (b_crit * 0.95) then true else false in
  let s := fst (march_loop O 0 (mkMarchState 0.0 0.0 false (splat3 0.0) D)) in
  let rayDirWorld := ms_D s in
  if ms_hit s then mkvec4 0.0 0.0 0.0 1.0
  else
    let bg := sampleLensedSky (cameraPos u) rayDirWorld b_global in
    let ringProximity := exp (- pow ((b_global - b_crit) / (0.03 * b_crit)) 2.0) in
    let ringColor := computeLensedColor b_global in
    let final := mix3 bg ringColor (smoothstep 0.0 0.85 ringProximity) in
    vec4_of final 1.0.

(** ** The earlier pre-march-bend variant of the shader

    An earlier iteration of the same pipeline bends the ray once before
    marching and shades a hit differently.  Only its shading step is
    transcribed, with the background sample [bg] it would compute taken as
    an argument. *)

Module EarlierVariant.

Definition computeLensedColor (b : R) : vec3 :=
  let normalized := b / b_crit in
  let intensity := exp (- pow (normalized - 1.0) 2.0 * 10.0) in
  let baseColor := mkvec3 1.0 0.8 0.6 in
  let redshift := mkvec3 1.0 0.3 0.0 in
  let color := mix3 redshift baseColor normalized in
  scale3 color intensity.

(** The shading logic at the end of that variant's [main]. *)
Definition shading (hit : bool) (b : R) (bg : vec3) : vec4 :=
  if hit then
    if Rle_dec b b_crit then mkvec4 0.0 0.0 0.0 1.0
    else
      let lensColor := computeLensedColor b in
      vec4_of lensColor 1.0
  else vec4_of bg 1.0.

End EarlierVariant.

(** ** The two bend-once variants of the shader

    Two further fragment shaders of the repository bend the ray once,
    before marching, and then march along a straight line.  They share the
    closest-approach construction, the Rodrigues rotation [calcDnew] and
    the marching loop (with step bounds 1000 and 500); they differ in the
    deflection angle and in the shading. *)

Module BendOnce.

Definition calcDnew (D axis : vec3) (angle : R) : vec3 :=
  add3 (add3 (scale3 D (cos angle)) (scale3 (cross axis D) (sin angle)))
       (scale3 (scale3 axis (dot axis D)) (1.0 - cos angle)).

(** The point [R] of the unbent line closest to the hole's centre, as
    [main] computes it. *)
Definition closest_point (cameraPos rayDirWorld : vec3) : vec3 :=
  let denom := dot rayDirWorld rayDirWorld in
  let line := - dot cameraPos rayDirWorld / denom in
  add3 cameraPos (scale3 rayDirWorld line).

(** The body of the bending block of [main], for the angle [ang] that the
    variant's [angle(b)] returns: the new value of [rayDirWorld]. *)
Definition pre_bend (cameraPos rayDirWorld : vec3) (ang : R) : vec3 :=
  let R := closest_point cameraPos rayDirWorld in
  let axis := normalize (cross rayDirWorld R) in
  let dnew := calcDnew rayDirWorld axis ang in
  normalize dnew.

(** One pass of the marching loop: the direction is not changed and [t]
    advances by [d]. *)
Definition straight_body (ro : vec3) (s : MarchState) : Flow :=
  let p := add3 ro (scale3 (ms_D s) (ms_t s)) in
  let d := sceneSDF p in
  if Rlt_dec d 0.001 then Break (mkMarchState (ms_t s) d true p (ms_D s))
  else if Rgt_dec (ms_t s) 100.0 then Break (mkMarchState (ms_t s) d (ms_hit s) p (ms_D s))
  else Next (mkMarchState (ms_t s + d) d (ms_hit s) p (ms_D s)).

Definition passes_left (steps i : Z) : nat := Z.to_nat (steps - i).

Lemma passes_left_decreases (steps i : Z) :
  (i < steps)%Z -> (passes_left steps (i + 1) < passes_left steps i)%nat.
Proof. unfold passes_left. lia. Qed.

(** The loop [for (int i = 0; i < steps; i++)] from counter value [i] on. *)
Equations? straight_loop (steps : Z) (ro : vec3) (i : Z) (s : MarchState) : MarchState
  by wf (passes_left steps i) lt :=
  straight_loop steps ro i s with Z_lt_dec i steps := {
    | left _ with straight_body ro s := {
        | Break s' => s'
        | Next s' => straight_loop steps ro (i + 1) s' }
    | right _ => s }.
Proof. now apply passes_left_decreases. Qed.

End BendOnce.

(** *** The variant that shades hits by lensing zones *)

Module ZoneVariant.

Definition calcb (cameraPos rayDirWorld : vec3) : R :=
  length (cross cameraPos (normalize rayDirWorld)).

Definition angle (b : R) : R :=
  let x := (b - b_crit) / (b_crit * 0.2) in
  0.5 * r_s * (1.0 / (x * x + 0.0001)).

(** Optional: simple time dilation factor (not used for colouring). *)
Definition determineRayTrad (b : R) : R :=
  if Rlt_dec b b_crit then 100.0
  else if Rlt_dec b (b_crit * 1.5) then 50.0
  else if Rlt_dec b (b_crit * 2.0) then 20.0
  else 10.0.

Section Main.

(** The GLSL built-in [inverse] on [mat4]. *)
Variable inverse : mat4 -> mat4.

Definition main (u : Uniforms) (gl_FragCoord : vec4) : vec4 :=
  let uv := mkvec2 (v4x gl_FragCoord / v2x (iResolution u) * 2.0 - 1.0)
                   (v4y gl_FragCoord / v2y (iResolution u) * 2.0 - 1.0) in
  let uv := mkvec2 (v2x uv * (v2x (iResolution u) / v2y (iResolution u))) (v2y uv) in
  let rayDirCam := normalize (mkvec3 (v2x uv) (v2y uv) (-1.0)) in
  let invView := inverse (viewMatrix u) in
  let rayDirWorld := normalize (xyz (mulMV invView (vec4_of rayDirCam 0.0))) in
  let ro := cameraPos u in
  let b := calcb (cameraPos u) rayDirWorld in
  let rayDirWorld :=
    if Rlt_dec b (b_crit * 2.0)
    then BendOnce.pre_bend (cameraPos u) rayDirWorld (angle b)
    else rayDirWorld in
  let s := BendOnce.straight_loop 1000 ro 0
             (mkMarchState 0.0 0.0 false (splat3 0.0) rayDirWorld) in
  let p := ms_p s in
  if ms_hit s then
    let adjustedLength := length p in
    if Rlt_dec b b_crit then mkvec4 0.0 0.0 0.0 1.0
    else
      let intensity := smoothstep r_s (r_s * 3.0) adjustedLength in
      let lensColor := mix3 (mkvec3 1.0 0.3 0.0) (mkvec3 0.0 0.0 0.0) intensity in
      vec4_of lensColor 1.0
  else mkvec4 0.0 0.0 0.0 1.0.

(** Intermediate values of [main], named for the statements: the impact
    parameter [b] and the loop variables at the exit of the march. *)
Definition main_b (u : Uniforms) (gl_FragCoord : vec4) : R :=
  let uv := mkvec2 (v4x gl_FragCoord / v2x (iResolution u) * 2.0 - 1.0)
                   (v4y gl_FragCoord / v2y (iResolution u) * 2.0 - 1.0) in
  let uv := mkvec2 (v2x uv * (v2x (iResolution u) / v2y (iResolution u))) (v2y uv) in
  let rayDirCam := normalize (mkvec3 (v2x uv) (v2y uv) (-1.0)) in
  let invView := inverse (viewMatrix u) in
  let rayDirWorld := normalize (xyz (mulMV invView (vec4_of rayDirCam 0.0))) in
  calcb (cameraPos u) rayDirWorld.

Definition main_march (u : Uniforms) (gl_FragCoord : vec4) : MarchState :=
  let uv := mkvec2 (v4x gl_FragCoord / v2x (iResolution u) * 2.0 - 1.0)
                   (v4y gl_FragCoord / v2y (iResolution u) * 2.0 - 1.0) in
  let uv := mkvec2 (v2x uv * (v2x (iResolution u) / v2y (iResolution u))) (v2y uv) in
  let rayDirCam := normalize (mkvec3 (v2x uv) (v2y uv) (-1.0)) in
  let invView := inverse (viewMatrix u) in
  let rayDirWorld := normalize (xyz (mulMV invView (vec4_of rayDirCam 0.0))) in
  let b := calcb (cameraPos u) rayDirWorld in
  let rayDirWorld :=
    if Rlt_dec b (b_crit * 2.0)
    then BendOnce.pre_bend (cameraPos u) rayDirWorld (angle b)
    else rayDirWorld in
  BendOnce.straight_loop 1000 (cameraPos u) 0
    (mkMarchState 0.0 0.0 false (splat3 0.0) rayDirWorld).

End Main.

End ZoneVariant.

(** *** The variant that samples the lensed sky

    Its [hash21], [skyColor] and [rotateAroundAxis] are, character for
    character, those of the integrated-bending shader, and its
    [computeLensedColor] is [EarlierVariant.computeLensedColor]; they are
    not repeated. *)

Module BendOnceVariant.

Definition calcb (cameraPos rayDirWorld : vec3) : R :=
  length (cross cameraPos (normalize rayDirWorld)).

Definition angle (b : R) : R :=
  let weak := 2.0 * r_s / Rmax b 1e-6 in
  let distToCrit := b - b_crit in
  let scale := 0.08 * b_crit in
  let nearFactor := 1.0 + 3.0 * exp (- (distToCrit * distToCrit) / (scale * scale)) in
  let raw := weak * nearFactor in
  let saturated := atan raw * 2.0 in
  clamp saturated 0.0 6.0.

Definition computeImpactParameter (O D : vec3) : R :=
  length (cross O (normalize D)).

(** The locals of one pass of the order loop ([weight] is as in the
    integrated-bending shader, [weightN]). *)
Definition alphaN (b : R) (n : Z) : R :=
  let baseAlpha := angle b in
  baseAlpha + IZR n * TWO_PI.

Definition lens_body (Dn axis : vec3) (b : R) (n : Z) (a : LensAcc) : LensAcc :=
  let weight := weightN b n in
  let bent := rotateAroundAxis Dn axis (alphaN b n) in
  let sample := skyColor bent in
  mkLensAcc (add3 (accum a) (scale3 sample weight)) (totalWeight a + weight).

Equations? lens_loop (Dn axis : vec3) (b : R) (n : Z) (a : LensAcc) : LensAcc
  by wf (orders_left n) lt :=
  lens_loop Dn axis b n a with Z_le_dec n MAX_ORDERS := {
    | left _ => lens_loop Dn axis b (n + 1) (lens_body Dn axis b n a)
    | right _ => a }.
Proof. now apply orders_left_decreases. Qed.

Definition sampleLensedSky (ro D : vec3) (b : R) : vec3 :=
  let Dn := normalize D in
  if Rle_dec b b_crit then splat3 0.0
  else
    let r := ro in
    let axisRaw := cross Dn r in
    let axisLen := length axisRaw in
    if Rlt_dec axisLen 1e-6 then skyColor Dn
    else
      let axis := div3 axisRaw axisLen in
      let a := lens_loop Dn axis b 0 (mkLensAcc (splat3 0.0) 0.0) in
      if Rgt_dec (totalWeight a) 0.0 then div3 (accum a) (totalWeight a)
      else skyColor Dn.

Section Main.

(** The GLSL built-in [inverse] on [mat4]. *)
Variable inverse : mat4 -> mat4.

Definition main (u : Uniforms) (gl_FragCoord : vec4) : vec4 :=
  let uv := mkvec2 (v4x gl_FragCoord / v2x (iResolution u) * 2.0 - 1.0)
                   (v4y gl_FragCoord / v2y (iResolution u) * 2.0 - 1.0) in
  let uv := mkvec2 (v2x uv * (v2x (iResolution u) / v2y (iResolution u))) (v2y uv) in
  let rayDirCam := normalize (mkvec3 (v2x uv) (v2y uv) (-1.0)) in
  let invView := inverse (viewMatrix u) in
  let rayDirWorld := normalize (xyz (mulMV invView (vec4_of rayDirCam 0.0))) in
  let ro := cameraPos u in
  let b := calcb (cameraPos u) rayDirWorld in
  let rayDirWorld :=
    if Rle_dec b (b_crit * 5.0)
    then BendOnce.pre_bend (cameraPos u) rayDirWorld (angle b)
    else rayDirWorld in
  let s := BendOnce.straight_loop 500 ro 0
             (mkMarchState 0.0 0.0 false (splat3 0.0) rayDirWorld) in
  if ms_hit s then
    if Rle_dec b b_crit then mkvec4 0.0 0.0 0.0 1.0
    else
      let lensColor := EarlierVariant.computeLensedColor b in
      vec4_of lensColor 1.0
  else
    let bg := sampleLensedSky (cameraPos u) rayDirWorld b in
    vec4_of bg 1.0.

(** Intermediate values of [main], named for the statements. *)
Definition main_b (u : Uniforms) (gl_FragCoord : vec4) : R :=
  let uv := mkvec2 (v4x gl_FragCoord / v2x (iResolution u) * 2.0 - 1.0)
                   (v4y gl_FragCoord / v2y (iResolution u) * 2.0 - 1.0) in
  let uv := mkvec2 (v2x uv * (v2x (iResolution u) / v2y (iResolution u))) (v2y uv) in
  let rayDirCam := normalize (mkvec3 (v2x uv) (v2y uv) (-1.0)) in
  let invView := inverse (viewMatrix u) in
  let rayDirWorld := normalize (xyz (mulMV invView (vec4_of rayDirCam 0.0))) in
  calcb (cameraPos u) rayDirWorld.

Definition main_march (u : Uniforms) (gl_FragCoord : vec4) : MarchState :=
  let uv := mkvec2 (v4x gl_FragCoord / v2x (iResolution u) * 2.0 - 1.0)
                   (v4y gl_FragCoord / v2y (iResolution u) * 2.0 - 1.0) in
  let uv := mkvec2 (v2x uv * (v2x (iResolution u) / v2y (iResolution u))) (v2y uv) in
  let rayDirCam := normalize (mkvec3 (v2x uv) (v2y uv) (-1.0)) in
  let invView := inverse (viewMatrix u) in
  let rayDirWorld := normalize (xyz (mulMV invView (vec4_of rayDirCam 0.0))) in
  let b := calcb (cameraPos u) rayDirWorld in
  let rayDirWorld :=
    if Rle_dec b (b_crit * 5.0)
    then BendOnce.pre_bend (cameraPos u) rayDirWorld (angle b)
    else rayDirWorld in
  BendOnce.straight_loop 500 (cameraPos u) 0
    (mkMarchState 0.0 0.0 false (splat3 0.0) rayDirWorld).

End Main.

End BendOnceVariant.

(** ** The order loop of [sampleLensedSky] in single precision

    The shaders compute in 32-bit floats.  The weights of the order loop
    are exponentials of [-|b - b_crit| / (0.1 b_crit)] and of [-4n]; for a
    large impact parameter they are smaller than every positive float, the
    computed weights are zero, the total weight is not positive, and
    [sampleLensedSky] takes the fallback of its final conditional.  Exact
    arithmetic does not show this, so the loop is transcribed a second time
    with the underflow made explicit: the result of each operation that
    makes up the weight is [flush]ed.  Every other operation is kept
    exact. *)

Module SinglePrecision.

(** Half of the least positive 32-bit float, [2^-149]. *)
Definition half_least : R := / 2 ^ 150.

(** The float that holds a result whose exact value is [x], as far as
    underflow goes: rounding to nearest (ties to even) gives zero when the
    magnitude of [x] is at most [half_least]; a larger result is taken as
    exact. *)
Definition flush (x : R) : R :=
  if Rle_dec (Rabs x) half_least then 0 else x.

(** The local [weight] at the end of one pass ([exp], [exp], [*=]). *)
Definition weightN (b : R) (n : Z) : R :=
  let weight := flush (exp (- IZR n * 4.0)) in
  let closeness := flush (exp (- Rabs ((b - b_crit) / (0.1 * b_crit)))) in
  flush (weight * closeness).

Section OrderLoop.

(** The deflection model that the loop calls for [baseAlpha]:
    [deflectionAngleApprox(b, r_s, b_crit)] in the integrated-bending
    shader, [angle(b)] in the sky-sampling bend-once variant.  The two
    [sampleLensedSky] functions are the same text otherwise. *)
Variable baseAlpha : R -> R.

Definition lens_body (Dn axis : vec3) (b : R) (n : Z) (a : LensAcc) : LensAcc :=
  let alphaN := baseAlpha b + IZR n * TWO_PI in
  let weight := weightN b n in
  let bent := rotateAroundAxis Dn axis alphaN in
  let sample := skyColor bent in
  mkLensAcc (add3 (accum a) (scale3 sample weight)) (totalWeight a + weight).

Equations? lens_loop (Dn axis : vec3) (b : R) (n : Z) (a : LensAcc) : LensAcc
  by wf (orders_left n) lt :=
  lens_loop Dn axis b n a with Z_le_dec n MAX_ORDERS := {
    | left _ => lens_loop Dn axis b (n + 1) (lens_body Dn axis b n a)
    | right _ => a }.
Proof. now apply orders_left_decreases. Qed.

Definition sampleLensedSky_with (ro D : vec3) (b : R) : vec3 :=
  let Dn := normalize D in
  if Rle_dec b b_crit then splat3 0.0
  else
    let r := ro in
    let axisRaw := cross Dn r in
    let axisLen := length axisRaw in
    if Rlt_dec axisLen 1e-6 then skyColor Dn
    else
      let axis := div3 axisRaw axisLen in
      let a := lens_loop Dn axis b 0 (mkLensAcc (splat3 0.0) 0.0) in
      if Rgt_dec (totalWeight a) 0.0 then div3 (accum a) (totalWeight a)
      else skyColor Dn.

End OrderLoop.

(** [sampleLensedSky] of the integrated-bending shader. *)
Definition sampleLensedSky : vec3 -> vec3 -> R -> vec3 :=
  sampleLensedSky_with (fun b => deflectionAngleApprox b r_s b_crit).

(** [sampleLensedSky] of the sky-sampling bend-once variant. *)
Definition sampleLensedSky_bend_once : vec3 -> vec3 -> R -> vec3 :=
  sampleLensedSky_with BendOnceVariant.angle.

End SinglePrecision.

(** ** The disc mesh ([BlackholeObject.cpp])

    The constructor of [Blackhole] fills a freshly allocated array of
    [verticesCount * 3] floats with a triangle fan: the centre, then the
    rim.  The array is a list of reals; a store outside it (undefined
    behaviour in C++) is [None].  The OpenGL calls that follow upload the
    array as it is and are not modelled. *)

Module Mesh.

(** The member initializer of the class declaration. *)
Definition verticesCount : Z := 100.

(** [a[idx] = v]. *)
Definition store (a : list R) (idx : Z) (v : R) : option (list R) :=
  if andb (0 <=? idx)%Z (idx <? Z.of_nat (List.length a))%Z
  then Some (firstn (Z.to_nat idx) a ++ v :: skipn (S (Z.to_nat idx)) a)
  else None.

(** Sequencing of stores: a failed store ends the computation. *)
Definition and_then (r : option (list R)) (k : list R -> option (list R)) :
  option (list R) :=
  match r with
  | Some a => k a
  | None => None
  end.

(** The angle of rim vertex [i]. *)
Definition rim_angle (i : Z) : R :=
  2.0 * 3.1415926 * IZR (i - 1) / IZR (verticesCount - 2).

(** The body of [for (int i = 1; i < verticesCount; i++)]. *)
Definition rim_body (x y z radius : R) (i : Z) (vertices : list R) : option (list R) :=
  let angle := rim_angle i in
  and_then (store vertices (i * 3 + 0) (x + radius * cos angle)) (fun vertices =>
  and_then (store vertices (i * 3 + 1) (y + radius * sin angle)) (fun vertices =>
  store vertices (i * 3 + 2) z)).

Definition rim_left (i : Z) : nat := Z.to_nat (verticesCount - i).

Lemma rim_left_decreases (i : Z) :
  (i < verticesCount)%Z -> (rim_left (i + 1) < rim_left i)%nat.
Proof. unfold rim_left, verticesCount. lia. Qed.

Equations? rim_loop (x y z radius : R) (i : Z) (vertices : list R) : option (list R)
  by wf (rim_left i) lt :=
  rim_loop x y z radius i vertices with Z_lt_dec i verticesCount := {
    | left _ with rim_body x y z radius i vertices := {
        | Some vertices' => rim_loop x y z radius (i + 1) vertices'
        | None => None }
    | right _ => Some vertices }.
Proof. now apply rim_left_decreases. Qed.

(** The array handed to [glBufferData], for the contents [fresh] of the
    array returned by [new float[verticesCount * 3]]. *)
Definition fill_vertices (x y z radius : R) (fresh : list R) : option (list R) :=
  and_then (store fresh 0 x) (fun vertices =>
  and_then (store vertices 1 y) (fun vertices =>
  and_then (store vertices 2 z) (fun vertices =>
  rim_loop x y z radius 1 vertices))).

(** The three coordinates of vertex [i] of the fan, and the fan from
    vertex [i] on, [k] vertices long (named for the statements). *)
Definition vertex (x y z radius : R) (i : Z) : list R :=
  if (i =? 0)%Z then [x; y; z]
  else [x + radius * cos (rim_angle i); y + radius * sin (rim_angle i); z].

Fixpoint fan_from (x y z radius : R) (i : Z) (k : nat) : list R :=
  match k with
  | O => []
  | S k' => vertex x y z radius i ++ fan_from x y z radius (i + 1) k'
  end.

End Mesh.

(** * Values named by the statements

    The definitions below add nothing to the shader: they name
    intermediate values of [main], two concrete rays, the finite sums that
    the order loop computes, and the order angle as the specification
    words it. *)

(** The intermediate values of [main]: the world-space ray direction after
    ray setup, the impact parameter [b_global], and the loop variables at
    the exit of the marching loop. *)
Definition main_rayDirWorld (u : Uniforms) (gl_FragCoord : vec4) : vec3 :=
  let uv := mkvec2 (v4x gl_FragCoord / v2x (iResolution u) * 2.0 - 1.0)
                   (v4y gl_FragCoord / v2y (iResolution u) * 2.0 - 1.0) in
  let uv := mkvec2 (v2x uv * (v2x (iResolution u) / v2y (iResolution u))) (v2y uv) in
  let rayDirCam := normalize (mkvec3 (v2x uv) (v2y uv) (-1.0)) in
  normalize (xyz (mulMV (invViewMatrix u) (vec4_of rayDirCam 0.0))).

Definition main_b_global (u : Uniforms) (gl_FragCoord : vec4) : R :=
  calcb (cameraPos u) (main_rayDirWorld u gl_FragCoord).

Definition main_march (u : Uniforms) (gl_FragCoord : vec4) : MarchState :=
  fst (march_loop (cameraPos u) 0
         (mkMarchState 0.0 0.0 false (splat3 0.0) (main_rayDirWorld u gl_FragCoord))).

(** A concrete frame: the camera at [(0,0,5)], identity view, a 2x2
    image and its centre fragment, whose ray points at the hole's centre. *)
Definition identity4 : mat4 :=
  mkmat4 (mkvec4 1 0 0 0) (mkvec4 0 1 0 0) (mkvec4 0 0 1 0) (mkvec4 0 0 0 1).

Definition head_on_uniforms : Uniforms :=
  mkUniforms (mkvec2 2 2) (mkvec3 0 0 5) identity4 identity4.

Definition centre_fragment : vec4 := mkvec4 1 1 0 1.

(** The same camera turned half a turn about [y]: the centre fragment's
    ray points straight away from the hole. *)
Definition half_turn_y : mat4 :=
  mkmat4 (mkvec4 (-1) 0 0 0) (mkvec4 0 1 0 0) (mkvec4 0 0 (-1) 0) (mkvec4 0 0 0 1).

Definition away_uniforms : Uniforms :=
  mkUniforms (mkvec2 2 2) (mkvec3 0 0 5) half_turn_y half_turn_y.

(** The sum of the first [k] terms [f 0, ..., f (k - 1)], added in the
    order of the loop. *)
Fixpoint sum_upto (k : nat) (f : Z -> R) : R :=
  match k with
  | O => 0
  | S k' => sum_upto k' f + f (Z.of_nat k')
  end.

Fixpoint sum3_upto (k : nat) (f : Z -> vec3) : vec3 :=
  match k with
  | O => mkvec3 0 0 0
  | S k' => add3 (sum3_upto k' f) (f (Z.of_nat k'))
  end.

(** The weight-normalized average of [orders] samples. *)
Definition weighted_average (orders : nat) (sample : Z -> vec3) (weight : Z -> R) : vec3 :=
  div3 (sum3_upto orders (fun n => scale3 (sample n) (weight n)))
       (sum_upto orders weight).

(** The angle of order [n] as the specification words it: the stable
    deflection model plus [n] full turns. *)
Definition alphaN_spec (b : R) (n : Z) : R :=
  deflectionAngleStable b r_s b_crit + IZR n * (2 * PI).

(** The value of [sampleLensedSky] as the specification words it, for a
    call that reaches the order loop: the weight-normalized average of the
    sky colours of the directions rotated by [alphaN_spec b n]. *)
Definition sampleLensedSky_spec (ro D : vec3) (b : R) : vec3 :=
  let Dn := normalize D in
  let axis := div3 (cross Dn ro) (length (cross Dn ro)) in
  weighted_average 6
    (fun n => skyColor (rotateAroundAxis Dn axis (alphaN_spec b n)))
    (fun n => exp (- 4 * IZR n) * exp (- Rabs (b - b_crit) / (0.1 * b_crit))).

(** The rotation angle of one direction update of the march (the local
    [incremental] of the bending block), for the current point [p] and
    direction [D]. *)
Definition bend_incremental (p D : vec3) : R :=
  let toCenter := p in
  let local_b := length (cross toCenter D) / Rmax 1e-6 (length D) in
  let ang := deflectionAngleStable local_b r_s b_crit in
  let r := Rmax (length toCenter) 1e-6 in
  let falloff := clamp (r_ph / r) 0.0 4.0 in
  let incremental := 0.18 * ang * (falloff / IZR MAX_STEPS) * 200.0 in
  clamp incremental 0.0 1.2.

(** The pixel's normalized screen coordinates [uv] and camera-space
    direction [rayDirCam] in [main]. *)
Definition main_uv (u : Uniforms) (gl_FragCoord : vec4) : vec2 :=
  let uv := mkvec2 (v4x gl_FragCoord / v2x (iResolution u) * 2.0 - 1.0)
                   (v4y gl_FragCoord / v2y (iResolution u) * 2.0 - 1.0) in
  mkvec2 (v2x uv * (v2x (iResolution u) / v2y (iResolution u))) (v2y uv).

Definition main_rayDirCam (u : Uniforms) (gl_FragCoord : vec4) : vec3 :=
  let uv := main_uv u gl_FragCoord in
  normalize (mkvec3 (v2x uv) (v2y uv) (-1.0)).

(** A camera at the hole's centre. *)
Definition inside_uniforms : Uniforms :=
  mkUniforms (mkvec2 2 2) (mkvec3 0 0 0) identity4 identity4.


(** A frame whose centre ray passes the hole at distance 6: the camera at
    [(6,0,0)] looking along [-z], with [inverse] the identity on the
    identity view matrix. *)
Definition far_uniforms : Uniforms :=
  mkUniforms (mkvec2 2 2) (mkvec3 6 0 0) identity4 identity4.


(** What holds of the loop variables whenever a pass starts, and at the
    exit of the loop, for a unit direction and a start outside the
    horizon. *)
Definition straight_inv (ro D : vec3) (s : MarchState) : Prop :=
  ms_D s = D
  /\ ((ms_hit s = false /\ 0 <= sceneSDF (add3 ro (scale3 D (ms_t s))))
      \/ (ms_hit s = true /\ 0 <= sceneSDF (ms_p s) < 0.001)).


(** * Properties *)

(** ** Vector algebra *)

(** Unfold the component-wise vector operations. *)
Ltac vec_unfold :=
  unfold rotateRodrigues, rotateAroundAxis, calcb, length, normalize,
    dot, cross, add3, sub3, scale3, div3, splat3 in *; simpl in *.

Lemma vec3_eq (a b : vec3) :
  vx a = vx b -> vy a = vy b -> vz a = vz b -> a = b.
Proof. destruct a, b; simpl; intros; subst; reflexivity. Qed.

Lemma dot_self_nonneg (v : vec3) : 0 <= dot v v.
Proof. unfold dot. nra. Qed.

Lemma length_nonneg (v : vec3) : 0 <= length v.
Proof. apply sqrt_pos. Qed.

Lemma length_sqr (v : vec3) : length v * length v = dot v v.
Proof. unfold length. apply sqrt_sqrt, dot_self_nonneg. Qed.

Lemma unit_dot_self (v : vec3) : length v = 1 -> dot v v = 1.
Proof. intros H. rewrite <- length_sqr, H. ring. Qed.

Lemma length_of_dot (v : vec3) (l : R) : 0 <= l -> dot v v = l * l -> length v = l.
Proof. intros Hl H. unfold length. rewrite H. now apply sqrt_square. Qed.

(** Lagrange's identity: [|a x b|^2 = |a|^2 |b|^2 - (a . b)^2]. *)
Lemma lagrange_identity (a b : vec3) :
  dot (cross a b) (cross a b) = dot a a * dot b b - dot a b * dot a b.
Proof. unfold dot, cross; simpl. ring. Qed.

Lemma cross_scaled_self (D : vec3) (k : R) : cross (scale3 D k) D = splat3 0.
Proof. apply vec3_eq; unfold cross, scale3, splat3; simpl; ring. Qed.

Lemma length_zero_vec : length (splat3 0) = 0.
Proof.
  unfold length, dot, splat3; simpl.
  replace (0 * 0 + 0 * 0 + 0 * 0) with 0 by ring. apply sqrt_0.
Qed.

Lemma length_ex : length (mkvec3 1 0 0) = 1.
Proof. apply length_of_dot; [lra | unfold dot; simpl; ring]. Qed.

Lemma length_ez : length (mkvec3 0 0 1) = 1.
Proof. apply length_of_dot; [lra | unfold dot; simpl; ring]. Qed.

Lemma length_neg_ez : length (mkvec3 0 0 (-1)) = 1.
Proof. apply length_of_dot; [lra | unfold dot; simpl; ring]. Qed.

(** ** Rodrigues rotation *)

Section UnitAxis.

Variable axis : vec3.
Hypothesis axis_unit : length axis = 1.

Let axis_dot : dot axis axis = 1 := unit_dot_self axis axis_unit.

(** The squared norm of a Rodrigues rotation. *)
Lemma rotateRodrigues_dot (v : vec3) (ang : R) :
  dot (rotateRodrigues v axis ang) (rotateRodrigues v axis ang) = dot v v.
Proof.
  pose proof axis_dot as Ha. pose proof (sin2_cos2 ang) as Hsc. unfold Rsqr in Hsc.
  clear axis_dot axis_unit.
  destruct v as [x y z], axis as [p q r]. vec_unfold.
  replace 1.0 with 1 by lra. nsatz.
Qed.

(** Rotating back by the opposite angle. *)
Lemma rotateRodrigues_back (v : vec3) (ang : R) :
  rotateRodrigues (rotateRodrigues v axis ang) axis (- ang) = v.
Proof.
  pose proof axis_dot as Ha. pose proof (sin2_cos2 ang) as Hsc. unfold Rsqr in Hsc.
  clear axis_dot axis_unit.
  destruct v as [x y z], axis as [p q r].
  unfold rotateRodrigues. rewrite cos_neg, sin_neg.
  set (c := cos ang) in *. set (s := sin ang) in *.
  apply vec3_eq; vec_unfold; replace 1.0 with 1 by lra; nsatz.
Qed.

(** C6: for a unit vector [v], a unit [axis] and any angle, the Rodrigues
    rotation [v cos + (axis x v) sin + axis (axis . v) (1 - cos)] keeps the
    norm of [v], and rotating by the angle and then by its opposite around
    the same axis gives [v] back. *)
Theorem rotateRodrigues_isometry_invertible (v : vec3) (ang : R) :
  length v = 1 ->
  rotateRodrigues v axis ang =
    add3 (add3 (scale3 v (cos ang)) (scale3 (cross axis v) (sin ang)))
         (scale3 (scale3 axis (dot axis v)) (1 - cos ang))
  /\ length (rotateRodrigues v axis ang) = length v
  /\ rotateRodrigues (rotateRodrigues v axis ang) axis (- ang) = v.
Proof.
  intros _. repeat split.
  - unfold rotateRodrigues. replace 1.0 with 1 by lra. reflexivity.
  - unfold length. now rewrite rotateRodrigues_dot.
  - apply rotateRodrigues_back.
Qed.

End UnitAxis.

Lemma rotateRodrigues_isometry_invertible_witness :
  length (rotateRodrigues (mkvec3 1 0 0) (mkvec3 0 0 1) (PI / 2)) = length (mkvec3 1 0 0)
  /\ rotateRodrigues (rotateRodrigues (mkvec3 1 0 0) (mkvec3 0 0 1) (PI / 2))
       (mkvec3 0 0 1) (- (PI / 2)) = mkvec3 1 0 0.
Proof.
  exact (proj2 (rotateRodrigues_isometry_invertible
                  (mkvec3 0 0 1) length_ez (mkvec3 1 0 0) (PI / 2) length_ex)).
Defined.

(** ** Impact parameter *)

(** C7: for a camera position [O] and a unit direction [D], the impact
    parameter [|O x D|] is non-negative; it is [0] when [O] is a multiple
    of [D] (direction parallel or anti-parallel to the position vector),
    and it is [|O|] when [D] is perpendicular to [O]. *)
Theorem calcb_properties (O D : vec3) :
  length D = 1 ->
  calcb O D = length (cross O D)
  /\ 0 <= calcb O D
  /\ ((exists k : R, O = scale3 D k) -> calcb O D = 0)
  /\ (dot O D = 0 -> calcb O D = length O).
Proof.
  intros HD. apply unit_dot_self in HD. repeat split.
  - apply length_nonneg.
  - intros [k ->]. unfold calcb. rewrite cross_scaled_self. apply length_zero_vec.
  - intros Hperp. unfold calcb, length.
    rewrite lagrange_identity, HD, Hperp. f_equal. ring.
Qed.

Lemma calcb_properties_witness :
  calcb (mkvec3 0 0 5) (mkvec3 0 0 (-1)) = 0
  /\ calcb (mkvec3 0 0 5) (mkvec3 1 0 0) = length (mkvec3 0 0 5).
Proof.
  split.
  - apply (calcb_properties (mkvec3 0 0 5) (mkvec3 0 0 (-1)) length_neg_ez).
    exists (-5). apply vec3_eq; simpl; ring.
  - apply (calcb_properties (mkvec3 0 0 5) (mkvec3 1 0 0) length_ex).
    unfold dot; simpl; ring.
Defined.

(** ** Deflection model *)

Lemma clamp_bounds (x lo hi : R) : lo <= hi -> lo <= clamp x lo hi <= hi.
Proof.
  intros H. unfold clamp, Rmin, Rmax.
  destruct (Rle_dec x lo); destruct (Rle_dec _ hi); lra.
Qed.

Lemma clamp_id (x lo hi : R) : lo <= x <= hi -> clamp x lo hi = x.
Proof.
  intros H. unfold clamp, Rmin, Rmax.
  destruct (Rle_dec x lo); destruct (Rle_dec _ hi); lra.
Qed.

(** C4: for every impact parameter [b >= 0] the stable deflection angle is
    [clamp(atan(2 r_s / max(b, 1e-6) * (1 + 3 exp(-(b - b_crit)^2 / (0.08 b_crit)^2))) * 2, 0, 6)];
    in particular it lies between 0 and 6 radians. *)
Theorem deflectionAngleStable_formula_bounds (b : R) :
  0 <= b ->
  deflectionAngleStable b r_s b_crit =
    clamp (atan (2 * r_s / Rmax b 1e-6
                 * (1 + 3 * exp (- (b - b_crit) ^ 2 / (0.08 * b_crit) ^ 2))) * 2) 0 6
  /\ 0 <= deflectionAngleStable b r_s b_crit <= 6.
Proof.
  intros _. split.
  - unfold deflectionAngleStable. cbv zeta.
    replace ((b - b_crit) ^ 2) with ((b - b_crit) * (b - b_crit)) by ring.
    replace ((0.08 * b_crit) ^ 2) with (0.08 * b_crit * (0.08 * b_crit)) by ring.
    replace 2.0 with 2 by lra. replace 1.0 with 1 by lra.
    replace 3.0 with 3 by lra. replace 0.0 with 0 by lra.
    replace 6.0 with 6 by lra. reflexivity.
  - unfold deflectionAngleStable. cbv zeta.
    replace 0.0 with 0 by lra. replace 6.0 with 6 by lra.
    apply clamp_bounds. lra.
Qed.

Lemma deflectionAngleStable_formula_bounds_witness :
  deflectionAngleStable 3 r_s b_crit =
    clamp (atan (2 * r_s / Rmax 3 1e-6
                 * (1 + 3 * exp (- (3 - b_crit) ^ 2 / (0.08 * b_crit) ^ 2))) * 2) 0 6
  /\ 0 <= deflectionAngleStable 3 r_s b_crit <= 6.
Proof. apply (deflectionAngleStable_formula_bounds 3). lra. Defined.

(** ** Lensed sky sampling: the guard on the impact parameter *)

Lemma splat3_zero : splat3 0.0 = mkvec3 0 0 0.
Proof. unfold splat3. replace 0.0 with 0 by lra. reflexivity. Qed.

(** C3: whatever the origin and the direction, [sampleLensedSky] returns
    the colour [(0,0,0)] when the impact parameter it is given satisfies
    [b <= b_crit]. *)
Theorem sampleLensedSky_black_below_critical (ro D : vec3) (b : R) :
  b <= b_crit -> sampleLensedSky ro D b = mkvec3 0 0 0.
Proof.
  intros Hb. unfold sampleLensedSky. cbv zeta.
  destruct (Rle_dec b b_crit) as [_ | Hn]; [apply splat3_zero | contradiction].
Qed.

Lemma sampleLensedSky_black_below_critical_witness :
  sampleLensedSky (mkvec3 0 0 5) (mkvec3 1 0 0) 2 = mkvec3 0 0 0.
Proof.
  apply (sampleLensedSky_black_below_critical (mkvec3 0 0 5) (mkvec3 1 0 0) 2).
  unfold b_crit, r_s. lra.
Defined.

(** ** The marching loop *)

Lemma main_shading (u : Uniforms) (fc : vec4) :
  main u fc =
    if ms_hit (main_march u fc) then mkvec4 0.0 0.0 0.0 1.0
    else
      let bg := sampleLensedSky (cameraPos u) (ms_D (main_march u fc)) (main_b_global u fc) in
      let ringProximity :=
        exp (- pow ((main_b_global u fc - b_crit) / (0.03 * b_crit)) 2.0) in
      let ringColor := computeLensedColor (main_b_global u fc) in
      vec4_of (mix3 bg ringColor (smoothstep 0.0 0.85 ringProximity)) 1.0.
Proof. reflexivity. Qed.

(** The three ways a pass of the loop body can end. *)
Lemma march_body_cases (ro : vec3) (i : Z) (s : MarchState) :
  let p := add3 ro (scale3 (ms_D s) (ms_t s)) in
  let d := sceneSDF p in
  (d < 0.001 -> march_body ro i s = Break (mkMarchState (ms_t s) d true p (ms_D s)))
  /\ (~ d < 0.001 -> ms_t s > 100 ->
      march_body ro i s = Break (mkMarchState (ms_t s) d (ms_hit s) p (ms_D s)))
  /\ (~ d < 0.001 -> ~ ms_t s > 100 ->
      exists D' : vec3,
        march_body ro i s =
          Next (mkMarchState (ms_t s + Rmax d 0.001) d (ms_hit s) p D')).
Proof.
  intros p d. unfold march_body. fold p. fold d. unfold MAX_DIST, MIN_STEP.
  replace 100.0 with 100 by lra.
  repeat split; intros.
  - destruct (Rlt_dec d 0.001); [reflexivity | contradiction].
  - destruct (Rlt_dec d 0.001); [contradiction |].
    destruct (Rgt_dec (ms_t s) 100); [reflexivity | contradiction].
  - destruct (Rlt_dec d 0.001); [contradiction |].
    destruct (Rgt_dec (ms_t s) 100); [contradiction |].
    eexists. reflexivity.
Qed.

(** Unfolding the loop: exit on the bound, exit on a [break], next pass. *)
Lemma march_loop_exhausted (ro : vec3) (i : Z) (s : MarchState) :
  ~ (i < MAX_STEPS)%Z -> march_loop ro i s = (s, 0%nat).
Proof.
  intros H. rewrite march_loop_equation_1. unfold march_loop_unfold_clause_1.
  destruct (Z_lt_dec i MAX_STEPS); [contradiction | reflexivity].
Qed.

Lemma march_loop_break (ro : vec3) (i : Z) (s s' : MarchState) :
  (i < MAX_STEPS)%Z -> march_body ro i s = Break s' ->
  march_loop ro i s = (s', 1%nat).
Proof.
  intros H Hb. rewrite march_loop_equation_1. unfold march_loop_unfold_clause_1.
  destruct (Z_lt_dec i MAX_STEPS); [| contradiction].
  unfold march_loop_unfold_clause_1_clause_1. rewrite Hb. reflexivity.
Qed.

Lemma march_loop_next (ro : vec3) (i : Z) (s s' : MarchState) :
  (i < MAX_STEPS)%Z -> march_body ro i s = Next s' ->
  march_loop ro i s =
    (fst (march_loop ro (i + 1) s'), S (snd (march_loop ro (i + 1) s'))).
Proof.
  intros H Hb. rewrite march_loop_equation_1. unfold march_loop_unfold_clause_1.
  destruct (Z_lt_dec i MAX_STEPS); [| contradiction].
  unfold march_loop_unfold_clause_1_clause_1. rewrite Hb. reflexivity.
Qed.

(** The loop starts at most as many passes as there are counter values
    left below [MAX_STEPS]. *)
Lemma march_loop_count (ro : vec3) (i : Z) (s : MarchState) :
  (snd (march_loop ro i s) <= steps_left i)%nat.
Proof.
  funelim (march_loop ro i s); simpl.
  - lia.
  - pose proof (steps_left_decreases i l). lia.
  - pose proof (steps_left_decreases i l). lia.
Qed.

(** A pass leaves [hit] as it was unless it breaks on the distance test. *)
Lemma march_body_hit (ro : vec3) (i : Z) (s : MarchState) :
  match march_body ro i s with
  | Break s' => (ms_hit s' = true /\ sceneSDF (ms_p s') < 0.001) \/ ms_hit s' = ms_hit s
  | Next s' => ms_hit s' = ms_hit s
  end.
Proof.
  unfold march_body.
  destruct (Rlt_dec _ 0.001); [left; simpl; auto |].
  destruct (Rgt_dec _ MAX_DIST); [right |]; reflexivity.
Qed.

(** If the loop is entered with [hit] false and left with [hit] true, the
    last point it computed is within 0.001 of the horizon sphere. *)
Lemma march_loop_hit (ro : vec3) (i : Z) (s : MarchState) :
  ms_hit s = false ->
  ms_hit (fst (march_loop ro i s)) = true ->
  sceneSDF (ms_p (fst (march_loop ro i s))) < 0.001.
Proof.
  funelim (march_loop ro i s); simpl; intros Hs Hh.
  - congruence.
  - pose proof (march_body_hit ro i s) as Hb. rewrite Heq in Hb.
    destruct Hb as [[_ Hd] | He]; [exact Hd | congruence].
  - pose proof (march_body_hit ro i s) as Hb. rewrite Heq in Hb.
    apply H; [congruence | exact Hh].
Qed.

(** ** A worked ray: the camera at [(0,0,5)] looking at the centre *)

Lemma normalize_unit (v : vec3) : length v = 1 -> normalize v = v.
Proof.
  intros H. unfold normalize. rewrite H.
  apply vec3_eq; unfold div3; simpl; field.
Qed.

Lemma head_on_rayDirWorld :
  main_rayDirWorld head_on_uniforms centre_fragment = mkvec3 0 0 (-1).
Proof.
  unfold main_rayDirWorld, head_on_uniforms, centre_fragment. simpl.
  replace (mkvec3 ((1 / 2 * 2.0 - 1.0) * (2 / 2)) (1 / 2 * 2.0 - 1.0) (-1.0))
    with (mkvec3 0 0 (-1)) by (apply vec3_eq; simpl; lra).
  rewrite (normalize_unit _ length_neg_ez).
  unfold mulMV, vec4_of, xyz, identity4. simpl.
  match goal with |- normalize ?v = _ =>
    replace v with (mkvec3 0 0 (-1)) by (apply vec3_eq; simpl; lra) end.
  apply normalize_unit, length_neg_ez.
Qed.

Lemma sceneSDF_on_axis (z : R) : 0 <= z -> sceneSDF (mkvec3 0 0 z) = z - 1.
Proof.
  intros Hz. unfold sceneSDF, sphereSDF, r_s.
  rewrite (length_of_dot _ z Hz).
  - lra.
  - unfold dot, sub3, splat3; simpl. lra.
Qed.

Lemma bend_interval : int_of_float (Rmax 1.0 BEND_UPDATE_INTERVAL) = 2%Z.
Proof.
  unfold BEND_UPDATE_INTERVAL, int_of_float.
  replace (Rmax 1.0 2.0) with (IZR 2) by (unfold Rmax; destruct (Rle_dec 1.0 2.0); lra).
  destruct (Rle_dec 0 (IZR 2)) as [_ | Hn]; [apply ZfloorZ | exfalso; lra].
Qed.

(** On the axis through the centre the rotation axis vanishes and the
    direction update does nothing. *)
Lemma bend_update_head_on : bend_update (mkvec3 0 0 5) (mkvec3 0 0 (-1)) = mkvec3 0 0 (-1).
Proof.
  unfold bend_update. cbv zeta.
  replace (cross (mkvec3 0 0 (-1)) (mkvec3 0 0 5)) with (splat3 0)
    by (apply vec3_eq; unfold cross, splat3; simpl; ring).
  rewrite length_zero_vec.
  destruct (Rgt_dec 0 1e-6) as [H | _]; [exfalso; lra | reflexivity].
Qed.

(** First pass: from [t = 0] the ray advances by its distance 4 to the
    horizon. *)
Lemma head_on_pass0 :
  march_body (mkvec3 0 0 5) 0
    (mkMarchState 0.0 0.0 false (splat3 0.0) (mkvec3 0 0 (-1)))
  = Next (mkMarchState 4 4 false (mkvec3 0 0 5) (mkvec3 0 0 (-1))).
Proof.
  unfold march_body. cbv zeta. cbn [ms_t ms_D ms_hit].
  replace (add3 (mkvec3 0 0 5) (scale3 (mkvec3 0 0 (-1)) 0.0)) with (mkvec3 0 0 5)
    by (apply vec3_eq; unfold add3, scale3; simpl; lra).
  rewrite sceneSDF_on_axis by lra.
  destruct (Rlt_dec (5 - 1) 0.001) as [H | _]; [exfalso; lra |].
  destruct (Rgt_dec 0.0 MAX_DIST) as [H | _]; [unfold MAX_DIST in H; exfalso; lra |].
  rewrite bend_interval. change (Z.rem 0 2 =? 0)%Z with true. cbv iota.
  rewrite bend_update_head_on.
  replace (0.0 + Rmax (5 - 1) MIN_STEP) with 4
    by (unfold MIN_STEP, Rmax; destruct (Rle_dec (5 - 1) 0.001); lra).
  replace (5 - 1) with 4 by lra. reflexivity.
Qed.

(** Second pass: the point is on the horizon sphere, the loop breaks with
    [hit] set. *)
Lemma head_on_pass1 :
  march_body (mkvec3 0 0 5) 1
    (mkMarchState 4 4 false (mkvec3 0 0 5) (mkvec3 0 0 (-1)))
  = Break (mkMarchState 4 0 true (mkvec3 0 0 1) (mkvec3 0 0 (-1))).
Proof.
  unfold march_body. cbv zeta. cbn [ms_t ms_D ms_hit].
  replace (add3 (mkvec3 0 0 5) (scale3 (mkvec3 0 0 (-1)) 4)) with (mkvec3 0 0 1)
    by (apply vec3_eq; unfold add3, scale3; simpl; lra).
  rewrite sceneSDF_on_axis by lra.
  destruct (Rlt_dec (1 - 1) 0.001) as [_ | H]; [| exfalso; lra].
  replace (1 - 1) with 0 by lra. reflexivity.
Qed.

Lemma head_on_march :
  march_loop (mkvec3 0 0 5) 0
    (mkMarchState 0.0 0.0 false (splat3 0.0) (mkvec3 0 0 (-1)))
  = (mkMarchState 4 0 true (mkvec3 0 0 1) (mkvec3 0 0 (-1)), 2%nat).
Proof.
  assert (H0 : (0 < MAX_STEPS)%Z) by (unfold MAX_STEPS; lia).
  assert (H1 : (0 + 1 < MAX_STEPS)%Z) by (unfold MAX_STEPS; lia).
  rewrite (march_loop_next _ _ _ _ H0 head_on_pass0).
  rewrite (march_loop_break _ _ _ _ H1 head_on_pass1).
  reflexivity.
Qed.

Lemma head_on_hit : ms_hit (main_march head_on_uniforms centre_fragment) = true.
Proof.
  unfold main_march. rewrite head_on_rayDirWorld.
  change (cameraPos head_on_uniforms) with (mkvec3 0 0 5).
  rewrite head_on_march. reflexivity.
Qed.

(** How [t] moves in one pass: a [break] leaves it alone, every other
    pass adds at least [MIN_STEP]. *)
Lemma march_body_advance (ro : vec3) (i : Z) (s : MarchState) :
  match march_body ro i s with
  | Break s' => ms_t s' = ms_t s
  | Next s' => ms_t s + MIN_STEP <= ms_t s'
  end.
Proof.
  unfold march_body.
  destruct (Rlt_dec _ 0.001); [reflexivity |].
  destruct (Rgt_dec _ MAX_DIST); [reflexivity |].
  cbn [ms_t]. pose proof (Rmax_r (sceneSDF (add3 ro (scale3 (ms_D s) (ms_t s)))) MIN_STEP).
  lra.
Qed.

(** The advances add up along the loop: every pass but the last one has
    moved [t] forward by at least [MIN_STEP]. *)
Lemma march_loop_advance (ro : vec3) (i : Z) (s : MarchState) :
  ms_t s + MIN_STEP * (INR (snd (march_loop ro i s)) - 1)
  <= ms_t (fst (march_loop ro i s)).
Proof.
  funelim (march_loop ro i s).
  - cbn [fst snd]. unfold MIN_STEP. simpl INR. lra.
  - pose proof (march_body_advance ro i s) as Hb. rewrite Heq in Hb.
    cbn [fst snd]. simpl INR. lra.
  - pose proof (march_body_advance ro i s) as Hb. rewrite Heq in Hb.
    cbn [fst snd]. rewrite S_INR. unfold MIN_STEP in *. lra.
Qed.

(** C5: the marching loop is a total function, and from its start it runs
    at most 500 passes whatever the origin and the initial state.  A pass
    breaks with [hit] set (captured) when the distance [d] to the horizon
    at the current point is below 0.001, breaks with [hit] unchanged
    (escaped) when [t] exceeds 100, and otherwise advances [t] by
    [max(d, MIN_STEP)] with [MIN_STEP = 0.001]; the next pass of the loop
    then starts from the advanced state, so that at the exit of the loop
    [t] has grown by at least [MIN_STEP] for every pass but the last. *)
Theorem march_loop_terminates_bounded (ro : vec3) (s0 : MarchState) :
  (snd (march_loop ro 0 s0) <= 500)%nat
  /\ MIN_STEP = 0.001
  /\ forall (i : Z) (s : MarchState),
       let p := add3 ro (scale3 (ms_D s) (ms_t s)) in
       let d := sceneSDF p in
       (d < 0.001 -> (i < MAX_STEPS)%Z ->
        march_loop ro i s = (mkMarchState (ms_t s) d true p (ms_D s), 1%nat))
       /\ (~ d < 0.001 -> ms_t s > 100 -> (i < MAX_STEPS)%Z ->
           march_loop ro i s = (mkMarchState (ms_t s) d (ms_hit s) p (ms_D s), 1%nat))
       /\ (~ d < 0.001 -> ~ ms_t s > 100 ->
           exists D' : vec3,
             let s' := mkMarchState (ms_t s + Rmax d MIN_STEP) d (ms_hit s) p D' in
             march_body ro i s = Next s'
             /\ ((i < MAX_STEPS)%Z ->
                 march_loop ro i s =
                   (fst (march_loop ro (i + 1) s'),
                    S (snd (march_loop ro (i + 1) s')))))
       /\ ms_t s + MIN_STEP * (INR (snd (march_loop ro i s)) - 1)
          <= ms_t (fst (march_loop ro i s)).
Proof.
  split; [| split].
  - pose proof (march_loop_count ro 0 s0) as H.
    unfold steps_left, MAX_STEPS in H. simpl in H. lia.
  - reflexivity.
  - intros i s p d.
    destruct (march_body_cases ro i s) as (Hc & He & Hn). fold p in Hc, He, Hn.
    fold d in Hc, He, Hn.
    split; [| split; [| split]].
    + intros Hd Hi. apply march_loop_break; auto.
    + intros Hd Ht Hi. apply march_loop_break; auto.
    + intros Hd Ht. destruct (Hn Hd Ht) as [D' HD']. exists D'. cbv zeta.
      split; [exact HD' |].
      intros Hi. now apply march_loop_next.
    + apply march_loop_advance.
Qed.

Lemma march_loop_terminates_bounded_witness :
  let ro := mkvec3 0 0 5 in
  let s0 := mkMarchState 0.0 0.0 false (splat3 0.0) (mkvec3 0 0 (-1)) in
  let s := mkMarchState 4 4 false (mkvec3 0 0 5) (mkvec3 0 0 (-1)) in
  let p := add3 ro (scale3 (ms_D s) (ms_t s)) in
  (snd (march_loop ro 0 s) <= 500)%nat
  /\ march_loop ro 1 s = (mkMarchState 4 (sceneSDF p) true p (mkvec3 0 0 (-1)), 1%nat)
  /\ (exists D' : vec3,
        march_loop ro 0 s0 =
          (fst (march_loop ro 1 (mkMarchState (0.0 + Rmax 4 MIN_STEP) 4 false ro D')),
           S (snd (march_loop ro 1 (mkMarchState (0.0 + Rmax 4 MIN_STEP) 4 false ro D')))))
  /\ ms_t s0 + MIN_STEP * (INR (snd (march_loop ro 0 s0)) - 1)
     <= ms_t (fst (march_loop ro 0 s0)).
Proof.
  intros ro s0 s p.
  pose proof (march_loop_terminates_bounded ro s) as (Hcount & _ & Hpass).
  split; [exact Hcount |].
  split; [| split].
  - apply (proj1 (Hpass 1%Z s)).
    + replace (add3 ro (scale3 (ms_D s) (ms_t s))) with (mkvec3 0 0 1)
        by (apply vec3_eq; unfold add3, scale3; simpl; lra).
      rewrite sceneSDF_on_axis; lra.
    + unfold MAX_STEPS. lia.
  - assert (Hp0 : add3 ro (scale3 (ms_D s0) (ms_t s0)) = ro)
      by (apply vec3_eq; unfold add3, scale3; simpl; lra).
    assert (Hd0 : sceneSDF ro = 4) by (unfold ro; rewrite sceneSDF_on_axis; lra).
    pose proof (proj1 (proj2 (proj2 (Hpass 0%Z s0)))) as Hnext.
    cbv zeta in Hnext. rewrite Hp0, Hd0 in Hnext.
    destruct Hnext as [D' [_ Hloop]].
    + lra.
    + simpl. lra.
    + exists D'. apply Hloop. unfold MAX_STEPS. lia.
  - exact (proj2 (proj2 (proj2 (Hpass 0%Z s0)))).
Defined.

(** ** Compositing *)

(** C1: when the march ends with [hit] set, which happens only at a point
    whose distance to the horizon sphere is below 0.001, the fragment
    colour is [(0,0,0,1)], whatever the impact parameter of the ray. *)
Theorem main_hit_black (u : Uniforms) (gl_FragCoord : vec4) :
  ms_hit (main_march u gl_FragCoord) = true ->
  sceneSDF (ms_p (main_march u gl_FragCoord)) < 0.001
  /\ main u gl_FragCoord = mkvec4 0 0 0 1.
Proof.
  intros Hhit. split.
  - unfold main_march in *. now apply march_loop_hit.
  - rewrite main_shading, Hhit.
    replace 0.0 with 0 by lra. replace 1.0 with 1 by lra. reflexivity.
Qed.

Lemma main_hit_black_witness :
  sceneSDF (ms_p (main_march head_on_uniforms centre_fragment)) < 0.001
  /\ main head_on_uniforms centre_fragment = mkvec4 0 0 0 1.
Proof. exact (main_hit_black head_on_uniforms centre_fragment head_on_hit). Defined.

(** The earlier variant does not follow that rule: a hit with an impact
    parameter above [b_crit] is shaded with the lensing gradient, whose red
    channel is positive. *)
Lemma earlier_variant_hit_not_black (b : R) (bg : vec3) :
  b_crit < b -> EarlierVariant.shading true b bg <> mkvec4 0 0 0 1.
Proof.
  intros Hb H. unfold EarlierVariant.shading in H.
  destruct (Rle_dec b b_crit) as [Hle | _]; [lra |].
  apply (f_equal v4x) in H. cbv zeta in H.
  unfold EarlierVariant.computeLensedColor, vec4_of, scale3, mix3, mix in H.
  simpl in H.
  pose proof (exp_pos (- pow (b / b_crit - 1.0) 2.0 * 10.0)) as Hexp.
  nra.
Qed.

(** C9: on both branches of the shading (hit or not) the fragment colour
    has alpha exactly 1. *)
Theorem main_alpha_opaque (u : Uniforms) (gl_FragCoord : vec4) :
  v4w (main u gl_FragCoord) = 1.
Proof.
  rewrite main_shading.
  destruct (ms_hit (main_march u gl_FragCoord)); simpl; lra.
Qed.

(** ** The order loop of [sampleLensedSky] *)

Lemma lens_loop_step (Dn axis : vec3) (b : R) (n : Z) (a : LensAcc) :
  (n <= MAX_ORDERS)%Z ->
  lens_loop Dn axis b n a = lens_loop Dn axis b (n + 1) (lens_body Dn axis b n a).
Proof.
  intros H. rewrite lens_loop_equation_1 at 1. unfold lens_loop_unfold_clause_1.
  destruct (Z_le_dec n MAX_ORDERS); [reflexivity | contradiction].
Qed.

Lemma lens_loop_done (Dn axis : vec3) (b : R) (n : Z) (a : LensAcc) :
  ~ (n <= MAX_ORDERS)%Z -> lens_loop Dn axis b n a = a.
Proof.
  intros H. rewrite lens_loop_equation_1. unfold lens_loop_unfold_clause_1.
  destruct (Z_le_dec n MAX_ORDERS); [contradiction | reflexivity].
Qed.

(** The loop runs the body for [n = 0, 1, ..., 5] and stops. *)
Lemma lens_loop_orders (Dn axis : vec3) (b : R) :
  lens_loop Dn axis b 0 (mkLensAcc (splat3 0.0) 0.0) =
    mkLensAcc
      (sum3_upto 6 (fun n => scale3 (skyColor (bentN Dn axis b n)) (weightN b n)))
      (sum_upto 6 (weightN b)).
Proof.
  do 6 (rewrite lens_loop_step by (unfold MAX_ORDERS; lia); simpl (_ + 1)%Z).
  rewrite lens_loop_done by (unfold MAX_ORDERS; lia).
  unfold lens_body. cbn [accum totalWeight sum3_upto sum_upto Z.of_nat Pos.of_succ_nat Pos.succ].
  rewrite splat3_zero. replace 0.0 with 0 by lra. reflexivity.
Qed.

Lemma weightN_pos (b : R) (n : Z) : 0 < weightN b n.
Proof. unfold weightN. apply Rmult_lt_0_compat; apply exp_pos. Qed.

Lemma weightN_formula (b : R) (n : Z) :
  weightN b n = exp (- 4 * IZR n) * exp (- Rabs (b - b_crit) / (0.1 * b_crit)).
Proof.
  unfold weightN. cbv zeta.
  assert (Hpos : 0 < 0.1 * b_crit) by (unfold b_crit, r_s; lra).
  f_equal; f_equal.
  - lra.
  - unfold Rdiv. rewrite Rabs_mult, (Rabs_pos_eq (/ _)).
    + ring.
    + left. now apply Rinv_0_lt_compat.
Qed.

Lemma sum_upto_pos (k : nat) (f : Z -> R) :
  (forall n, 0 < f n) -> 0 < sum_upto (S k) f.
Proof.
  intros Hf. induction k as [| k IH].
  - simpl. specialize (Hf 0%Z). lra.
  - change (0 < sum_upto (S k) f + f (Z.of_nat (S k))).
    specialize (Hf (Z.of_nat (S k))). lra.
Qed.

Lemma sum_upto_ext (k : nat) (f g : Z -> R) :
  (forall n, f n = g n) -> sum_upto k f = sum_upto k g.
Proof. intros H. induction k as [| k IH]; simpl; [| rewrite IH, H]; reflexivity. Qed.

Lemma sum3_upto_ext (k : nat) (f g : Z -> vec3) :
  (forall n, f n = g n) -> sum3_upto k f = sum3_upto k g.
Proof. intros H. induction k as [| k IH]; simpl; [| rewrite IH, H]; reflexivity. Qed.

(** The calls of [sampleLensedSky] that reach the accumulation loop: the
    impact parameter is above [b_crit] and the rotation axis is at least
    [1e-6] long. *)
Section AccumulationLoop.

Variables (ro D : vec3) (b : R).
Hypothesis above_critical : b_crit < b.
Hypothesis axis_defined : 1e-6 <= length (cross (normalize D) ro).

Let Dn : vec3 := normalize D.
Let axis : vec3 := div3 (cross Dn ro) (length (cross Dn ro)).

(** Both guards fail, and the loop result is the pair of six-term sums. *)
Lemma sampleLensedSky_reaches_loop :
  sampleLensedSky ro D b =
    if Rgt_dec (sum_upto 6 (weightN b)) 0.0
    then div3 (sum3_upto 6 (fun n => scale3 (skyColor (bentN Dn axis b n)) (weightN b n)))
              (sum_upto 6 (weightN b))
    else skyColor Dn.
Proof.
  unfold sampleLensedSky. cbv zeta. fold Dn. fold axis.
  destruct (Rle_dec b b_crit) as [Hle | _]; [exfalso; lra |].
  destruct (Rlt_dec (length (cross Dn ro)) 1e-6) as [Hlt | _];
    [exfalso; unfold Dn in Hlt; lra |].
  rewrite lens_loop_orders. reflexivity.
Qed.

Lemma total_weight_pos : 0 < sum_upto 6 (weightN b).
Proof. apply sum_upto_pos, weightN_pos. Qed.

(** C10: when [sampleLensedSky] reaches its accumulation loop ([b] above
    [b_crit], axis length at least [1e-6]) every order's weight
    [exp(-4n) exp(-|b - b_crit| / (0.1 b_crit))] is positive, the total
    weight after the loop is positive, and the result is the accumulated
    colour divided by the total weight: the fallback of the final
    conditional is not taken. *)
Theorem sampleLensedSky_total_weight_positive :
  let a := lens_loop Dn axis b 0 (mkLensAcc (splat3 0.0) 0.0) in
  (forall n : Z,
     weightN b n = exp (- 4 * IZR n) * exp (- Rabs (b - b_crit) / (0.1 * b_crit))
     /\ 0 < weightN b n)
  /\ totalWeight a = sum_upto 6 (weightN b)
  /\ 0 < totalWeight a
  /\ sampleLensedSky ro D b = div3 (accum a) (totalWeight a).
Proof.
  intros a. unfold a. rewrite lens_loop_orders. cbn [accum totalWeight].
  pose proof total_weight_pos as Hpos.
  repeat split.
  - apply weightN_formula.
  - apply weightN_pos.
  - exact Hpos.
  - rewrite sampleLensedSky_reaches_loop.
    destruct (Rgt_dec (sum_upto 6 (weightN b)) 0.0) as [_ | Hn]; [reflexivity |].
    exfalso. apply Hn. lra.
Qed.

(** In exact arithmetic the result is the average with the weights as the
    source writes them. *)
Lemma sampleLensedSky_exact_average :
  sampleLensedSky ro D b =
    weighted_average 6
      (fun n => skyColor (rotateAroundAxis Dn axis
                            (deflectionAngleApprox b r_s b_crit + IZR n * TWO_PI)))
      (fun n => exp (- 4 * IZR n) * exp (- Rabs (b - b_crit) / (0.1 * b_crit))).
Proof.
  rewrite sampleLensedSky_reaches_loop.
  destruct (Rgt_dec (sum_upto 6 (weightN b)) 0.0) as [_ | Hn].
  - unfold weighted_average. f_equal.
    + apply sum3_upto_ext. intros n. now rewrite weightN_formula.
    + apply sum_upto_ext, weightN_formula.
  - exfalso. apply Hn. pose proof total_weight_pos. lra.
Qed.

End AccumulationLoop.

(** A second worked ray: the camera at [(0,0,5)] looking sideways along
    [x]; the rotation axis is [(0,-1,0)]. *)
Lemma side_axis_raw :
  cross (normalize (mkvec3 1 0 0)) (mkvec3 0 0 5) = mkvec3 0 (-5) 0.
Proof.
  rewrite (normalize_unit _ length_ex).
  apply vec3_eq; unfold cross; simpl; ring.
Qed.

Lemma side_axis_len : length (cross (normalize (mkvec3 1 0 0)) (mkvec3 0 0 5)) = 5.
Proof.
  rewrite side_axis_raw. apply length_of_dot; [lra | unfold dot; simpl; ring].
Qed.

Lemma side_axis :
  div3 (cross (normalize (mkvec3 1 0 0)) (mkvec3 0 0 5))
       (length (cross (normalize (mkvec3 1 0 0)) (mkvec3 0 0 5)))
  = mkvec3 0 (-1) 0.
Proof.
  rewrite side_axis_len, side_axis_raw.
  apply vec3_eq; unfold div3; simpl; lra.
Qed.

Lemma side_above_critical : b_crit < 3.
Proof. unfold b_crit, r_s. lra. Qed.

Lemma side_axis_defined :
  1e-6 <= length (cross (normalize (mkvec3 1 0 0)) (mkvec3 0 0 5)).
Proof. rewrite side_axis_len. lra. Qed.

Lemma sampleLensedSky_total_weight_positive_witness :
  0 < totalWeight
        (lens_loop (normalize (mkvec3 1 0 0))
           (div3 (cross (normalize (mkvec3 1 0 0)) (mkvec3 0 0 5))
                 (length (cross (normalize (mkvec3 1 0 0)) (mkvec3 0 0 5))))
           3 0 (mkLensAcc (splat3 0.0) 0.0)).
Proof.
  exact (proj1 (proj2 (proj2
    (sampleLensedSky_total_weight_positive (mkvec3 0 0 5) (mkvec3 1 0 0) 3
       side_above_critical side_axis_defined)))).
Defined.

(** The stable model never reaches a half turn, and is positive. *)
Lemma deflectionAngleStable_range (b : R) :
  0 < deflectionAngleStable b r_s b_crit < PI.
Proof.
  unfold deflectionAngleStable. cbv zeta.
  set (raw := 2.0 * r_s / Rmax b 1e-6 * _).
  assert (Hraw : 0 < raw).
  { unfold raw. apply Rmult_lt_0_compat.
    - apply Rdiv_lt_0_compat; [unfold r_s; lra |].
      pose proof (Rmax_r b 1e-6). lra.
    - pose proof (exp_pos (- ((b - b_crit) * (b - b_crit)) / (0.08 * b_crit * (0.08 * b_crit)))).
      lra. }
  pose proof (atan_bound raw) as [_ Hup].
  pose proof (atan_increasing 0 raw Hraw) as Hlo. rewrite atan_0 in Hlo.
  pose proof PI_4.
  unfold clamp, Rmin, Rmax.
  destruct (Rle_dec (atan raw * 2.0) 0.0); destruct (Rle_dec _ 6.0); lra.
Qed.

(** ** Degenerate rotation axis *)

Lemma step_nonneg (edge x : R) : 0 <= step edge x.
Proof. unfold step. destruct (Rlt_dec x edge); lra. Qed.

Lemma pow_nonneg (x y : R) : 0 <= pow x y.
Proof.
  unfold pow. destruct (Req_EM_T x 0); [lra |].
  left. unfold Rpower. apply exp_pos.
Qed.

(** The red channel of the sky is at least that of the gradient, which is
    positive for directions with [y] in [[-1, 1]]. *)
Lemma skyColor_red_pos (dir : vec3) : -1 <= vy dir <= 1 -> 0 < vx (skyColor dir).
Proof.
  intros Hy. unfold skyColor. cbv zeta.
  set (star := step 0.9995 _ * pow _ 10.0).
  assert (Hstar : 0 <= star)
    by (apply Rmult_le_pos; [apply step_nonneg | apply pow_nonneg]).
  unfold add3, mix3, mix, splat3. simpl. lra.
Qed.

Lemma head_on_axis_raw : cross (mkvec3 0 0 (-1)) (mkvec3 0 0 5) = splat3 0.
Proof. apply vec3_eq; unfold cross, splat3; simpl; ring. Qed.

Lemma head_on_axis_len : length (cross (mkvec3 0 0 (-1)) (mkvec3 0 0 5)) < 1e-6.
Proof. rewrite head_on_axis_raw, length_zero_vec. lra. Qed.

Lemma away_axis_len :
  length (cross (normalize (mkvec3 0 0 1)) (mkvec3 0 0 5)) < 1e-6.
Proof.
  rewrite (normalize_unit _ length_ez).
  replace (cross (mkvec3 0 0 1) (mkvec3 0 0 5)) with (splat3 0)
    by (apply vec3_eq; unfold cross, splat3; simpl; ring).
  rewrite length_zero_vec. lra.
Qed.

(** *** The ray pointing straight away from the centre

    It stays on the axis, is never bent, and leaves the loop on the
    distance bound after six passes. *)

Lemma away_rayDirWorld :
  main_rayDirWorld away_uniforms centre_fragment = mkvec3 0 0 1.
Proof.
  unfold main_rayDirWorld, away_uniforms, centre_fragment. simpl.
  replace (mkvec3 ((1 / 2 * 2.0 - 1.0) * (2 / 2)) (1 / 2 * 2.0 - 1.0) (-1.0))
    with (mkvec3 0 0 (-1)) by (apply vec3_eq; simpl; lra).
  rewrite (normalize_unit _ length_neg_ez).
  unfold mulMV, vec4_of, xyz, half_turn_y. simpl.
  match goal with |- normalize ?v = _ =>
    replace v with (mkvec3 0 0 1) by (apply vec3_eq; simpl; lra) end.
  apply normalize_unit, length_ez.
Qed.

Lemma bend_update_on_axis (z : R) :
  bend_update (mkvec3 0 0 z) (mkvec3 0 0 1) = mkvec3 0 0 1.
Proof.
  unfold bend_update. cbv zeta.
  replace (cross (mkvec3 0 0 1) (mkvec3 0 0 z)) with (splat3 0)
    by (apply vec3_eq; unfold cross, splat3; simpl; ring).
  rewrite length_zero_vec.
  destruct (Rgt_dec 0 1e-6) as [H | _]; [exfalso; lra | reflexivity].
Qed.

Lemma away_point (t : R) :
  add3 (mkvec3 0 0 5) (scale3 (mkvec3 0 0 1) t) = mkvec3 0 0 (5 + t).
Proof. apply vec3_eq; unfold add3, scale3; simpl; lra. Qed.

Lemma away_pass (i : Z) (t d : R) (h : bool) (p : vec3) :
  0 <= t <= 100 ->
  march_body (mkvec3 0 0 5) i (mkMarchState t d h p (mkvec3 0 0 1))
  = Next (mkMarchState (t + (5 + t - 1)) (5 + t - 1) h (mkvec3 0 0 (5 + t)) (mkvec3 0 0 1)).
Proof.
  intros Ht. unfold march_body. cbv zeta. cbn [ms_t ms_D ms_hit].
  rewrite away_point, sceneSDF_on_axis by lra.
  destruct (Rlt_dec (5 + t - 1) 0.001) as [H | _]; [exfalso; lra |].
  destruct (Rgt_dec t MAX_DIST) as [H | _]; [unfold MAX_DIST in H; exfalso; lra |].
  rewrite bend_update_on_axis.
  replace (Rmax (5 + t - 1) MIN_STEP) with (5 + t - 1)
    by (unfold MIN_STEP, Rmax; destruct (Rle_dec (5 + t - 1) 0.001); lra).
  destruct (Z.rem i _ =? 0)%Z; reflexivity.
Qed.

Lemma away_break (i : Z) (t d : R) (h : bool) (p : vec3) :
  100 < t ->
  march_body (mkvec3 0 0 5) i (mkMarchState t d h p (mkvec3 0 0 1))
  = Break (mkMarchState t (5 + t - 1) h (mkvec3 0 0 (5 + t)) (mkvec3 0 0 1)).
Proof.
  intros Ht. unfold march_body. cbv zeta. cbn [ms_t ms_D ms_hit].
  rewrite away_point, sceneSDF_on_axis by lra.
  destruct (Rlt_dec (5 + t - 1) 0.001) as [H | _]; [exfalso; lra |].
  destruct (Rgt_dec t MAX_DIST) as [_ | H]; [reflexivity |].
  unfold MAX_DIST in H. exfalso. lra.
Qed.

Lemma away_march :
  exists t d : R,
    march_loop (mkvec3 0 0 5) 0
      (mkMarchState 0.0 0.0 false (splat3 0.0) (mkvec3 0 0 1))
    = (mkMarchState t d false (mkvec3 0 0 (5 + t)) (mkvec3 0 0 1), 6%nat)
    /\ t = 124.
Proof.
  do 2 eexists. split.
  - do 5 (erewrite march_loop_next;
          [| unfold MAX_STEPS; lia | apply away_pass; lra]).
    erewrite march_loop_break;
      [reflexivity | unfold MAX_STEPS; lia | apply away_break; lra].
  - lra.
Qed.

(** So [main] does call [sampleLensedSky] with a degenerate axis and an
    impact parameter below [b_crit]: for this ray the arguments are
    [(0,0,5)], [(0,0,1)] and [0]. *)
Lemma away_ray_sampler_arguments :
  ms_hit (main_march away_uniforms centre_fragment) = false
  /\ ms_D (main_march away_uniforms centre_fragment) = mkvec3 0 0 1
  /\ cameraPos away_uniforms = mkvec3 0 0 5
  /\ main_b_global away_uniforms centre_fragment = 0.
Proof.
  unfold main_b_global, main_march. rewrite away_rayDirWorld.
  change (cameraPos away_uniforms) with (mkvec3 0 0 5).
  destruct away_march as (t & d & -> & _). cbn [fst ms_hit ms_D].
  repeat split.
  unfold calcb.
  replace (cross (mkvec3 0 0 5) (mkvec3 0 0 1)) with (splat3 0)
    by (apply vec3_eq; unfold cross, splat3; simpl; ring).
  apply length_zero_vec.
Qed.

(** C8 fails as stated: for the ray from [(0,0,5)] pointing straight away
    from the centre (direction [(0,0,1)], impact parameter 0, axis length
    0) [sampleLensedSky] returns black, because the test [b <= b_crit]
    comes first; black is not [skyColor] of the direction. *)
Lemma sampleLensedSky_degenerate_axis_black :
  length (cross (normalize (mkvec3 0 0 1)) (mkvec3 0 0 5)) < 1e-6
  /\ calcb (mkvec3 0 0 5) (mkvec3 0 0 1) = 0
  /\ sampleLensedSky (mkvec3 0 0 5) (mkvec3 0 0 1) 0
     <> skyColor (normalize (mkvec3 0 0 1)).
Proof.
  split; [apply away_axis_len | split].
  - unfold calcb.
    replace (cross (mkvec3 0 0 5) (mkvec3 0 0 1)) with (splat3 0)
      by (apply vec3_eq; unfold cross, splat3; simpl; ring).
    apply length_zero_vec.
  - rewrite (normalize_unit _ length_ez).
    unfold sampleLensedSky. cbv zeta.
    destruct (Rle_dec 0 b_crit) as [_ | Hn]; [| exfalso; apply Hn; unfold b_crit, r_s; lra].
    intros H. apply (f_equal vx) in H.
    assert (Hpos : 0 < vx (skyColor (mkvec3 0 0 1)))
      by (apply skyColor_red_pos; simpl; lra).
    rewrite <- H in Hpos. unfold splat3 in Hpos. simpl in Hpos. lra.
Qed.

(** C8, as the shader has it: when the rotation-axis cross product is
    shorter than [1e-6], the direction update of the march leaves [D] as it
    is, so a pass of the loop body that continues keeps the direction; and
    [sampleLensedSky], when its impact parameter is above [b_crit], returns
    [skyColor] of the normalized direction without accumulating orders. *)
Theorem degenerate_axis_skips_rotation :
  (forall p D : vec3, length (cross D p) < 1e-6 -> bend_update p D = D)
  /\ (forall (ro : vec3) (i : Z) (s s' : MarchState),
        length (cross (ms_D s) (add3 ro (scale3 (ms_D s) (ms_t s)))) < 1e-6 ->
        march_body ro i s = Next s' -> ms_D s' = ms_D s)
  /\ (forall (ro D : vec3) (b : R),
        b_crit < b ->
        length (cross (normalize D) ro) < 1e-6 ->
        sampleLensedSky ro D b = skyColor (normalize D)).
Proof.
  assert (Hbend : forall p D : vec3, length (cross D p) < 1e-6 -> bend_update p D = D).
  { intros p D H. unfold bend_update. cbv zeta.
    destruct (Rgt_dec (length (cross D p)) 1e-6) as [Hgt | _]; [exfalso; lra | reflexivity]. }
  split; [exact Hbend | split].
  - intros ro i s s' Hax. unfold march_body. cbv zeta.
    destruct (Rlt_dec _ 0.001); [discriminate |].
    destruct (Rgt_dec _ MAX_DIST); [discriminate |].
    intros [= <-]. cbn [ms_D].
    destruct (Z.rem i _ =? 0)%Z; [now apply Hbend | reflexivity].
  - intros ro D b Hb Hax. unfold sampleLensedSky. cbv zeta.
    destruct (Rle_dec b b_crit) as [Hle | _]; [exfalso; lra |].
    destruct (Rlt_dec _ 1e-6) as [_ | Hn]; [reflexivity | contradiction].
Qed.

Lemma degenerate_axis_skips_rotation_witness :
  bend_update (mkvec3 0 0 5) (mkvec3 0 0 (-1)) = mkvec3 0 0 (-1)
  /\ sampleLensedSky (mkvec3 0 0 5) (mkvec3 0 0 (-1)) 3
     = skyColor (normalize (mkvec3 0 0 (-1))).
Proof.
  split.
  - apply (proj1 degenerate_axis_skips_rotation). apply head_on_axis_len.
  - apply (proj2 (proj2 degenerate_axis_skips_rotation)).
    + unfold b_crit, r_s. lra.
    + rewrite (normalize_unit _ length_neg_ez). apply head_on_axis_len.
Defined.

(** * Further properties of the integrated-bending shader *)

(** ** The distance field *)

Lemma cauchy_schwarz (a b : vec3) : dot a b * dot a b <= dot a a * dot b b.
Proof.
  pose proof (dot_self_nonneg (cross a b)) as H.
  rewrite lagrange_identity in H. lra.
Qed.

Lemma dot_le_length (a b : vec3) : dot a b <= length a * length b.
Proof.
  pose proof (length_nonneg a) as Ha. pose proof (length_nonneg b) as Hb.
  pose proof (cauchy_schwarz a b) as Hcs.
  rewrite <- (length_sqr a), <- (length_sqr b) in Hcs.
  destruct (Rle_dec (dot a b) (length a * length b)) as [H | H]; [exact H |].
  exfalso. apply Rnot_le_lt in H.
  assert (0 <= length a * length b) by now apply Rmult_le_pos.
  nra.
Qed.

Lemma dot_add3 (a b : vec3) :
  dot (add3 a b) (add3 a b) = dot a a + 2 * dot a b + dot b b.
Proof. unfold dot, add3; simpl. ring. Qed.

Lemma length_triangle (a b : vec3) : length (add3 a b) <= length a + length b.
Proof.
  pose proof (length_nonneg a) as Ha. pose proof (length_nonneg b) as Hb.
  pose proof (length_nonneg (add3 a b)) as Hab.
  pose proof (length_sqr (add3 a b)) as Hs. rewrite dot_add3 in Hs.
  rewrite <- (length_sqr a), <- (length_sqr b) in Hs.
  pose proof (dot_le_length a b).
  destruct (Rle_dec (length (add3 a b)) (length a + length b)) as [H' | H']; [exact H' |].
  exfalso. apply Rnot_le_lt in H'. nra.
Qed.

Lemma sceneSDF_length (p : vec3) : sceneSDF p = length p - 1.
Proof.
  unfold sceneSDF, sphereSDF, r_s.
  replace (sub3 p (splat3 0.0)) with p
    by (apply vec3_eq; unfold sub3, splat3; simpl; lra).
  lra.
Qed.

Lemma sceneSDF_decrease (p q : vec3) : sceneSDF p - length (sub3 p q) <= sceneSDF q.
Proof.
  rewrite !sceneSDF_length.
  pose proof (length_triangle q (sub3 p q)) as H.
  replace (add3 q (sub3 p q)) with p in H
    by (apply vec3_eq; unfold add3, sub3; simpl; ring).
  lra.
Qed.

Lemma length_sub3_sym (p q : vec3) : length (sub3 p q) = length (sub3 q p).
Proof. unfold length. f_equal. unfold dot, sub3; simpl. ring. Qed.

(** X1: the scene distance is the distance to the origin minus 1, it is
    negative exactly inside the unit sphere, and it changes by at most the
    distance between two points (it is 1-Lipschitz). *)
Theorem sceneSDF_lipschitz (p q : vec3) :
  sceneSDF p = length p - 1
  /\ (sceneSDF p < 0 <-> dot p p < 1)
  /\ Rabs (sceneSDF p - sceneSDF q) <= length (sub3 p q).
Proof.
  split; [apply sceneSDF_length | split].
  - rewrite sceneSDF_length.
    pose proof (length_nonneg p) as Hp. pose proof (length_sqr p) as Hs.
    split; intros H; nra.
  - pose proof (sceneSDF_decrease p q) as H1.
    pose proof (sceneSDF_decrease q p) as H2.
    rewrite (length_sub3_sym q p) in H2.
    apply Rabs_le. lra.
Qed.

(** ** One pass of the march *)

Lemma length_scale3 (v : vec3) (k : R) : length (scale3 v k) = Rabs k * length v.
Proof.
  unfold length.
  replace (dot (scale3 v k) (scale3 v k)) with (Rsqr k * dot v v)
    by (unfold dot, scale3, Rsqr; simpl; ring).
  rewrite sqrt_mult; [| apply Rle_0_sqr | apply dot_self_nonneg].
  now rewrite sqrt_Rsqr_abs.
Qed.

(** What a pass that reaches its closing brace has done. *)
Lemma march_body_next (ro : vec3) (i : Z) (s s' : MarchState) :
  march_body ro i s = Next s' ->
  let p := add3 ro (scale3 (ms_D s) (ms_t s)) in
  ~ sceneSDF p < 0.001
  /\ ~ ms_t s > MAX_DIST
  /\ ms_t s' = ms_t s + Rmax (sceneSDF p) MIN_STEP
  /\ ms_hit s' = ms_hit s
  /\ ms_p s' = p
  /\ (ms_D s' = ms_D s \/ ms_D s' = bend_update p (ms_D s)).
Proof.
  intros H p. unfold march_body in H. fold p in H.
  destruct (Rlt_dec (sceneSDF p) 0.001) as [| Hd]; [discriminate |].
  destruct (Rgt_dec (ms_t s) MAX_DIST) as [| Ht]; [discriminate |].
  injection H as <-. cbn [ms_t ms_hit ms_p ms_D].
  repeat split; auto.
  destruct (Z.rem i _ =? 0)%Z; auto.
Qed.

(** X2: in a pass that does not break, the distance [d] at the current
    point is at least 0.001, so the floor [MIN_STEP] of the step never
    applies: [t] advances by exactly [d].  When the direction is a unit
    vector and the pass leaves it unchanged, the point of the next pass is
    not inside the horizon sphere (the step is safe). *)
Theorem march_step_is_distance (ro : vec3) (i : Z) (s s' : MarchState) :
  march_body ro i s = Next s' ->
  let p := add3 ro (scale3 (ms_D s) (ms_t s)) in
  0.001 <= sceneSDF p
  /\ ms_t s <= 100
  /\ ms_t s' = ms_t s + sceneSDF p
  /\ (length (ms_D s) = 1 -> ms_D s' = ms_D s ->
      0 <= sceneSDF (add3 ro (scale3 (ms_D s') (ms_t s')))).
Proof.
  intros H p. destruct (march_body_next ro i s s' H) as (Hd & Ht & Hstep & _ & _ & _).
  fold p in Hd, Hstep. unfold MAX_DIST in Ht. unfold MIN_STEP in Hstep.
  assert (Hd' : 0.001 <= sceneSDF p) by lra.
  rewrite Rmax_left in Hstep by exact Hd'.
  repeat split; try lra.
  intros Hunit HD. rewrite HD, Hstep.
  pose proof (sceneSDF_decrease p (add3 ro (scale3 (ms_D s) (ms_t s + sceneSDF p)))) as Hl.
  replace (sub3 p (add3 ro (scale3 (ms_D s) (ms_t s + sceneSDF p))))
    with (scale3 (ms_D s) (- sceneSDF p)) in Hl
    by (apply vec3_eq; unfold p, sub3, add3, scale3; simpl; ring).
  rewrite length_scale3, Hunit, Rabs_Ropp, Rabs_pos_eq in Hl by lra. lra.
Qed.

Lemma march_step_is_distance_witness :
  let ro := mkvec3 0 0 5 in
  let s := mkMarchState 0.0 0.0 false (splat3 0.0) (mkvec3 0 0 (-1)) in
  let s' := mkMarchState 4 4 false (mkvec3 0 0 5) (mkvec3 0 0 (-1)) in
  ms_t s' = ms_t s + sceneSDF (add3 ro (scale3 (ms_D s) (ms_t s)))
  /\ 0 <= sceneSDF (add3 ro (scale3 (ms_D s') (ms_t s'))).
Proof.
  intros ro s s'.
  pose proof (march_step_is_distance ro 0 s s' head_on_pass0) as (_ & _ & Ht & Hsafe).
  split; [exact Ht | exact (Hsafe length_neg_ez eq_refl)].
Defined.

(** ** The exit of the marching loop *)

Lemma march_body_state (ro : vec3) (i : Z) (s : MarchState) :
  match march_body ro i s with
  | Break s' =>
      (ms_hit s' = true /\ sceneSDF (ms_p s') < 0.001)
      \/ (ms_hit s' = ms_hit s /\ ~ sceneSDF (ms_p s') < 0.001)
  | Next s' => ms_hit s' = ms_hit s /\ ~ sceneSDF (ms_p s') < 0.001
  end.
Proof.
  unfold march_body.
  destruct (Rlt_dec _ 0.001); [left; simpl; auto |].
  destruct (Rgt_dec _ MAX_DIST); [right |]; simpl; auto.
Qed.

Lemma march_loop_exit_state (ro : vec3) (i : Z) (s : MarchState) :
  ms_hit s = false -> (i < MAX_STEPS)%Z ->
  (ms_hit (fst (march_loop ro i s)) = true
   /\ sceneSDF (ms_p (fst (march_loop ro i s))) < 0.001)
  \/ (ms_hit (fst (march_loop ro i s)) = false
      /\ ~ sceneSDF (ms_p (fst (march_loop ro i s))) < 0.001).
Proof.
  funelim (march_loop ro i s); simpl; intros Hs Hi.
  - contradiction.
  - pose proof (march_body_state ro i s) as Hb. rewrite Heq in Hb.
    destruct Hb as [Hb | [Hh Hd]]; [left; exact Hb | right].
    split; [congruence | exact Hd].
  - pose proof (march_body_state ro i s) as Hb. rewrite Heq in Hb.
    destruct Hb as [Hh Hd].
    destruct (Z_lt_dec (i + 1) MAX_STEPS) as [Hlt | Hge].
    + apply H; [congruence | exact Hlt].
    + rewrite (march_loop_exhausted _ _ _ Hge). simpl.
      right. split; [congruence | exact Hd].
Qed.

(** X3: at the exit of the marching loop of [main], [hit] is set exactly
    when the last point computed is closer than 0.001 to the horizon
    sphere; leaving the loop on the distance bound or on the step bound
    leaves [hit] false. *)
Theorem main_hit_iff_near_horizon (u : Uniforms) (gl_FragCoord : vec4) :
  ms_hit (main_march u gl_FragCoord) = true
  <-> sceneSDF (ms_p (main_march u gl_FragCoord)) < 0.001.
Proof.
  unfold main_march.
  match goal with |- context [march_loop ?ro 0 ?s] =>
    destruct (march_loop_exit_state ro 0 s eq_refl ltac:(unfold MAX_STEPS; lia))
      as [[Hh Hd] | [Hh Hd]] end.
  - split; auto.
  - split; [congruence | contradiction].
Qed.

(** ** The direction during the march *)

Lemma length_div3_self (v : vec3) : 0 < length v -> length (div3 v (length v)) = 1.
Proof.
  intros H. apply length_of_dot; [lra |].
  pose proof (length_sqr v) as Hs.
  unfold dot, div3 in *; simpl in *.
  set (l := length v) in *.
  replace (vx v / l * (vx v / l) + vy v / l * (vy v / l) + vz v / l * (vz v / l))
    with ((vx v * vx v + vy v * vy v + vz v * vz v) / (l * l)) by (field; lra).
  rewrite <- Hs. field. lra.
Qed.

Lemma length_normalize (v : vec3) : 0 < length v -> length (normalize v) = 1.
Proof. apply length_div3_self. Qed.

Lemma bend_update_unfold (p D : vec3) :
  bend_update p D =
    if Rgt_dec (length (cross D p)) 1e-6
    then normalize (rotateRodrigues D (div3 (cross D p) (length (cross D p)))
                      (bend_incremental p D))
    else D.
Proof. reflexivity. Qed.

(** The rotated direction of an update has the norm of the direction. *)
Lemma bend_rotated_length (p D : vec3) :
  length (cross D p) > 1e-6 ->
  length (rotateRodrigues D (div3 (cross D p) (length (cross D p)))
            (bend_incremental p D)) = length D.
Proof.
  intros Hax.
  assert (Hunit : length (div3 (cross D p) (length (cross D p))) = 1)
    by (apply length_div3_self; lra).
  set (axis := div3 (cross D p) (length (cross D p))) in *.
  unfold length. f_equal. now apply rotateRodrigues_dot.
Qed.

Lemma bend_update_unit (p D : vec3) : length D = 1 -> length (bend_update p D) = 1.
Proof.
  intros HD. rewrite bend_update_unfold.
  destruct (Rgt_dec (length (cross D p)) 1e-6) as [Hax | _]; [| exact HD].
  apply length_normalize. rewrite bend_rotated_length by exact Hax. lra.
Qed.

Lemma march_body_unit (ro : vec3) (i : Z) (s : MarchState) :
  length (ms_D s) = 1 ->
  match march_body ro i s with
  | Break s' => length (ms_D s') = 1
  | Next s' => length (ms_D s') = 1
  end.
Proof.
  intros HD. unfold march_body.
  destruct (Rlt_dec _ 0.001); [exact HD |].
  destruct (Rgt_dec _ MAX_DIST); [exact HD |].
  cbn [ms_D]. destruct (Z.rem i _ =? 0)%Z; [now apply bend_update_unit | exact HD].
Qed.

(** X4: the marching loop keeps the direction normalized: entered with a
    unit direction, it is left with a unit direction, however many
    direction updates were applied. *)
Theorem march_loop_keeps_unit_direction (ro : vec3) (i : Z) (s : MarchState) :
  length (ms_D s) = 1 -> length (ms_D (fst (march_loop ro i s))) = 1.
Proof.
  funelim (march_loop ro i s); simpl; intros HD.
  - exact HD.
  - pose proof (march_body_unit ro i s HD) as Hb. now rewrite Heq in Hb.
  - pose proof (march_body_unit ro i s HD) as Hb. rewrite Heq in Hb. now apply H.
Qed.

Lemma march_loop_keeps_unit_direction_witness :
  length (ms_D (fst (march_loop (mkvec3 0 0 5) 0
                       (mkMarchState 0.0 0.0 false (splat3 0.0) (mkvec3 0 0 1))))) = 1.
Proof.
  exact (march_loop_keeps_unit_direction (mkvec3 0 0 5) 0
           (mkMarchState 0.0 0.0 false (splat3 0.0) (mkvec3 0 0 1)) length_ez).
Defined.

(** ** The size and the sense of a direction update *)

Lemma deflectionAngleStable_raw_pos (b rs bc : R) :
  0 < rs ->
  0 < 2.0 * rs / Rmax b 1e-6
      * (1.0 + 3.0 * exp (- ((b - bc) * (b - bc)) / (0.08 * bc * (0.08 * bc)))).
Proof.
  intros Hrs. apply Rmult_lt_0_compat.
  - apply Rdiv_lt_0_compat; [lra |]. pose proof (Rmax_r b 1e-6). lra.
  - pose proof (exp_pos (- ((b - bc) * (b - bc)) / (0.08 * bc * (0.08 * bc)))). lra.
Qed.

(** X5: for a positive Schwarzschild radius the clamp of the stable
    deflection model never applies: the angle is twice the arctangent of
    the (positive) raw value, strictly between 0 and pi. *)
Theorem deflectionAngleStable_unclamped (b rs bc : R) :
  0 < rs ->
  deflectionAngleStable b rs bc =
    atan (2.0 * rs / Rmax b 1e-6
          * (1.0 + 3.0 * exp (- ((b - bc) * (b - bc)) / (0.08 * bc * (0.08 * bc))))) * 2.0
  /\ 0 < deflectionAngleStable b rs bc < PI.
Proof.
  intros Hrs. pose proof (deflectionAngleStable_raw_pos b rs bc Hrs) as Hraw.
  unfold deflectionAngleStable. cbv zeta.
  set (raw := 2.0 * rs / Rmax b 1e-6 * _) in *.
  pose proof (atan_bound raw) as [_ Hup].
  pose proof (atan_increasing 0 raw Hraw) as Hlo. rewrite atan_0 in Hlo.
  pose proof PI_4.
  rewrite clamp_id by lra. lra.
Qed.

Lemma deflectionAngleStable_unclamped_witness :
  0 < deflectionAngleStable 0 r_s b_crit < PI.
Proof.
  apply (deflectionAngleStable_unclamped 0 r_s b_crit). unfold r_s. lra.
Defined.

Lemma falloff_range (p : vec3) :
  0 < clamp (r_ph / Rmax (length p) 1e-6) 0.0 4.0 <= 4.
Proof.
  assert (Hr : 0 < Rmax (length p) 1e-6) by (pose proof (Rmax_r (length p) 1e-6); lra).
  assert (Hq : 0 < r_ph / Rmax (length p) 1e-6)
    by (apply Rdiv_lt_0_compat; [unfold r_ph, r_s; lra | exact Hr]).
  unfold clamp, Rmin, Rmax in *.
  destruct (Rle_dec (r_ph / _) 0.0); destruct (Rle_dec _ 4.0); lra.
Qed.

(** X6: a direction update of the march turns by a positive angle below
    1.152 radians (0.288 pi): the angle is 0.072 times the stable
    deflection at the local impact parameter times the falloff, and its
    clamp to [[0, 1.2]] never applies. *)
Theorem bend_incremental_bounds (p D : vec3) :
  bend_incremental p D =
    0.072 * deflectionAngleStable (length (cross p D) / Rmax 1e-6 (length D)) r_s b_crit
          * clamp (r_ph / Rmax (length p) 1e-6) 0.0 4.0
  /\ 0 < bend_incremental p D < 1.152.
Proof.
  unfold bend_incremental. cbv zeta.
  pose proof (deflectionAngleStable_range (length (cross p D) / Rmax 1e-6 (length D)))
    as [Ha1 Ha2].
  pose proof (falloff_range p) as [Hf1 Hf2].
  set (ang := deflectionAngleStable _ r_s b_crit) in *.
  set (falloff := clamp (r_ph / _) 0.0 4.0) in *.
  pose proof PI_4.
  replace (0.18 * ang * (falloff / IZR MAX_STEPS) * 200.0) with (0.072 * ang * falloff)
    by (unfold MAX_STEPS; lra).
  assert (Hpos : 0 < ang * falloff) by now apply Rmult_lt_0_compat.
  assert (Hup : ang * falloff < 16) by nra.
  rewrite clamp_id by lra. lra.
Qed.

(** The scalar products of a Rodrigues rotation about the normalized
    cross product [D x p / L]. *)
Lemma rodrigues_about_cross (D p : vec3) (L ang : R) :
  L <> 0 ->
  let rot := rotateRodrigues D (div3 (cross D p) L) ang in
  dot rot D = cos ang * dot D D
  /\ dot rot p =
       cos ang * dot D p
       + sin ang * dot (cross D p) (cross D p) / L.
Proof.
  intros HL rot. unfold rot. destruct D as [x y z], p as [u v w].
  unfold rotateRodrigues, dot, add3, scale3, cross, div3; simpl.
  replace 1.0 with 1 by lra.
  split; field; exact HL.
Qed.

(** X7: for a unit direction [D] and a rotation axis longer than [1e-6],
    the direction update turns [D] by exactly the angle [bend_incremental]
    in the plane of [D] and the position [p], towards [p]: the updated
    direction makes the angle [incremental] with [D], and its scalar
    product with [p] is [(D . p) cos + |D x p| sin]. *)
Theorem bend_update_turns_towards_position (p D : vec3) :
  length D = 1 ->
  length (cross D p) > 1e-6 ->
  dot (bend_update p D) D = cos (bend_incremental p D)
  /\ dot (bend_update p D) p =
       dot D p * cos (bend_incremental p D)
       + length (cross D p) * sin (bend_incremental p D).
Proof.
  intros HD Hax. rewrite bend_update_unfold.
  destruct (Rgt_dec (length (cross D p)) 1e-6) as [_ | Hn]; [| contradiction].
  rewrite normalize_unit by (rewrite bend_rotated_length by exact Hax; exact HD).
  assert (HL : length (cross D p) <> 0) by lra.
  destruct (rodrigues_about_cross D p _ (bend_incremental p D) HL) as [H1 H2].
  rewrite H1, H2, (unit_dot_self D HD), <- (length_sqr (cross D p)).
  split; field; exact HL.
Qed.

Lemma side_cross_len : length (cross (mkvec3 1 0 0) (mkvec3 0 0 5)) > 1e-6.
Proof.
  pose proof side_axis_len as H. rewrite (normalize_unit _ length_ex) in H.
  rewrite H. lra.
Qed.

Lemma bend_update_turns_towards_position_witness :
  dot (bend_update (mkvec3 0 0 5) (mkvec3 1 0 0)) (mkvec3 1 0 0)
  = cos (bend_incremental (mkvec3 0 0 5) (mkvec3 1 0 0)).
Proof.
  exact (proj1 (bend_update_turns_towards_position (mkvec3 0 0 5) (mkvec3 1 0 0)
                  length_ex side_cross_len)).
Defined.

(** ** The approximate deflection model *)

Lemma clamp_above (x lo hi : R) : lo <= hi -> hi <= x -> clamp x lo hi = hi.
Proof.
  intros H1 H2. unfold clamp, Rmin, Rmax.
  destruct (Rle_dec x lo); destruct (Rle_dec _ hi); lra.
Qed.


Lemma clamp_opp (x c : R) : 0 <= c -> clamp (- x) (- c) c = - clamp x (- c) c.
Proof.
  intros Hc. unfold clamp, Rmin, Rmax.
  destruct (Rle_dec (- x) (- c)); destruct (Rle_dec x (- c));
    repeat match goal with |- context [Rle_dec ?a ?b] => destruct (Rle_dec a b) end; lra.
Qed.

Lemma Rabs_le_bounds (x a : R) : Rabs x <= a -> - a <= x <= a.
Proof. unfold Rabs. destruct (Rcase_abs x); lra. Qed.

Lemma approx_rel (b : R) :
  (b - b_crit) / (0.2 * b_crit) = (b - 2.598) / 0.5196.
Proof.
  unfold b_crit, r_s.
  replace (0.2 * (2.598 * 1.0)) with 0.5196 by lra.
  replace (2.598 * 1.0) with 2.598 by lra. reflexivity.
Qed.

Lemma inv_between (d lo hi : R) : 0 < lo -> lo <= d <= hi -> / hi <= / d <= / lo.
Proof.
  intros Hlo [H1 H2]. split; apply Rinv_le_contravar; lra.
Qed.

Lemma approx_inner (rel : R) :
  1.0 / (rel * rel + 0.001) * (0.25 * r_s) = 0.25 * / (rel * rel + 0.001).
Proof. unfold r_s, Rdiv. lra. Qed.

Lemma approx_inner_range (rel : R) :
  -5 <= rel <= 5 -> 250 / 25001 <= 1.0 / (rel * rel + 0.001) * (0.25 * r_s) <= 250.
Proof.
  intros H. rewrite approx_inner.
  assert (Hd : 0.001 <= rel * rel + 0.001 <= 25.001) by nra.
  pose proof (inv_between _ 0.001 25.001 ltac:(lra) Hd). lra.
Qed.

(** X8: the approximate deflection angle used by [sampleLensedSky] lies
    between [250/25001] (about 0.01) and 20 radians; it is symmetric about
    [b_crit], saturates at 20 within 0.05 of [b_crit], and is the constant
    [250/25001] once [b] is at least [2 b_crit]. *)
Theorem deflectionAngleApprox_shape (b : R) :
  250 / 25001 <= deflectionAngleApprox b r_s b_crit <= 20
  /\ deflectionAngleApprox (b_crit + b) r_s b_crit
     = deflectionAngleApprox (b_crit - b) r_s b_crit
  /\ (Rabs (b - b_crit) <= 0.05 -> deflectionAngleApprox b r_s b_crit = 20)
  /\ (2 * b_crit <= b -> deflectionAngleApprox b r_s b_crit = 250 / 25001).
Proof.
  assert (Hclamp : forall x, -5 <= clamp x (-5.0) 5.0 <= 5).
  { intros x. pose proof (clamp_bounds x (-5.0) 5.0). lra. }
  split; [| split; [| split]].
  - unfold deflectionAngleApprox. cbv zeta.
    pose proof (approx_inner_range _ (Hclamp ((b - b_crit) / (0.2 * b_crit)))) as Hin.
    pose proof (clamp_bounds (1.0 / (clamp ((b - b_crit) / (0.2 * b_crit)) (-5.0) 5.0
                                      * clamp ((b - b_crit) / (0.2 * b_crit)) (-5.0) 5.0
                                      + 0.001) * (0.25 * r_s)) 0.0 20.0 ltac:(lra)) as Hc.
    unfold clamp, Rmin, Rmax in Hin, Hc |- *.
    repeat match goal with |- context [Rle_dec ?a ?b] => destruct (Rle_dec a b) end; lra.
  - unfold deflectionAngleApprox. cbv zeta.
    replace ((b_crit - b - b_crit) / (0.2 * b_crit))
      with (- ((b_crit + b - b_crit) / (0.2 * b_crit)))
      by (unfold Rdiv; ring).
    replace (-5.0) with (Ropp 5.0) by lra.
    rewrite clamp_opp by lra.
    f_equal. f_equal. f_equal. f_equal. ring.
  - intros Hnear. unfold deflectionAngleApprox. cbv zeta.
    rewrite approx_rel.
    assert (Hb : -0.05 <= b - 2.598 <= 0.05)
      by (unfold b_crit, r_s in Hnear; apply Rabs_le_bounds in Hnear; lra).
    set (rel := (b - 2.598) / 0.5196).
    assert (Hrel : -0.1 <= rel <= 0.1) by (unfold rel; split; lra).
    rewrite (clamp_id rel) by lra.
    assert (Hd : 0.001 <= rel * rel + 0.001 <= 0.011) by nra.
    replace 20.0 with 20 by lra.
    apply clamp_above; [lra |]. rewrite approx_inner.
    pose proof (inv_between _ 0.001 0.011 ltac:(lra) Hd). lra.
  - intros Hfar. unfold deflectionAngleApprox. cbv zeta.
    rewrite approx_rel.
    assert (Hb : 2.598 <= b - 2.598) by (unfold b_crit, r_s in Hfar; lra).
    set (rel := (b - 2.598) / 0.5196).
    assert (Hrel : 5 <= rel) by (unfold rel; lra).
    replace (clamp rel (-5.0) 5.0) with 5
      by (unfold clamp, Rmin, Rmax;
          repeat match goal with |- context [Rle_dec ?a ?b] => destruct (Rle_dec a b) end;
          lra).
    unfold r_s.
    replace (1.0 / (5 * 5 + 0.001) * (0.25 * 1.0)) with (250 / 25001) by lra.
    apply clamp_id. lra.
Qed.

Lemma deflectionAngleApprox_shape_witness :
  deflectionAngleApprox 2.6 r_s b_crit = 20
  /\ deflectionAngleApprox 6 r_s b_crit = 250 / 25001.
Proof.
  split.
  - apply (deflectionAngleApprox_shape 2.6).
    unfold b_crit, r_s. apply Rabs_le. lra.
  - apply (deflectionAngleApprox_shape 6). unfold b_crit, r_s. lra.
Defined.

(** ** The lensed sky average *)

Lemma sum_upto_scale (k : nat) (f : Z -> R) (c : R) :
  sum_upto k (fun n => f n * c) = sum_upto k f * c.
Proof. induction k as [| k IH]; simpl; [| rewrite IH]; ring. Qed.

Lemma sum3_upto_scale (k : nat) (g : Z -> vec3) (f : Z -> R) (c : R) :
  sum3_upto k (fun n => scale3 (g n) (f n * c))
  = scale3 (sum3_upto k (fun n => scale3 (g n) (f n))) c.
Proof.
  induction k as [| k IH]; simpl.
  - apply vec3_eq; unfold scale3; simpl; ring.
  - rewrite IH. apply vec3_eq; unfold add3, scale3; simpl; ring.
Qed.

Lemma div3_scale_cancel (v : vec3) (w c : R) :
  w <> 0 -> c <> 0 -> div3 (scale3 v c) (w * c) = div3 v w.
Proof.
  intros Hw Hc. apply vec3_eq; unfold div3, scale3; simpl; field; auto.
Qed.

Lemma rotateAroundAxis_is_rotateRodrigues (v axis : vec3) (ang : R) :
  rotateAroundAxis v axis ang = rotateRodrigues v axis ang.
Proof. reflexivity. Qed.

Lemma rodrigues_dot_axis (v axis : vec3) (ang : R) :
  dot (rotateRodrigues v axis ang) axis
  = dot v axis * (cos ang + (1 - cos ang) * dot axis axis).
Proof.
  destruct v as [x y z], axis as [p q r].
  unfold rotateRodrigues, dot, add3, scale3, cross; simpl.
  replace 1.0 with 1 by lra. ring.
Qed.

Lemma dot_cross_axis (v w : vec3) (l : R) : dot v (div3 (cross v w) l) = 0.
Proof. unfold dot, div3, cross, Rdiv; simpl. ring. Qed.

Section SampledOrders.

Variables (ro D : vec3) (b : R).
Hypothesis above_critical : b_crit < b.
Hypothesis axis_defined : 1e-6 <= length (cross (normalize D) ro).

Let Dn : vec3 := normalize D.
Let axis : vec3 := div3 (cross Dn ro) (length (cross Dn ro)).

(** In exact arithmetic the factor [closeness] that every weight carries
    cancels in the normalized average. *)
Lemma sampleLensedSky_exact_cancels :
  sampleLensedSky ro D b =
    weighted_average 6 (fun n => skyColor (bentN Dn axis b n))
                       (fun n => exp (- 4 * IZR n)).
Proof.
  rewrite (sampleLensedSky_reaches_loop ro D b above_critical axis_defined).
  fold Dn. fold axis.
  pose proof (total_weight_pos b) as Hpos.
  destruct (Rgt_dec (sum_upto 6 (weightN b)) 0.0) as [_ | Hn]; [| exfalso; apply Hn; lra].
  set (c := exp (- Rabs ((b - b_crit) / (0.1 * b_crit)))).
  assert (Hc : 0 < c) by apply exp_pos.
  assert (Hw : forall n, weightN b n = exp (- 4 * IZR n) * c).
  { intros n. unfold weightN. cbv zeta. fold c. f_equal. f_equal. lra. }
  assert (Hs : 0 < sum_upto 6 (fun n => exp (- 4 * IZR n)))
    by (apply sum_upto_pos; intros n; apply exp_pos).
  rewrite (sum_upto_ext 6 (weightN b) (fun n => exp (- 4 * IZR n) * c)) by exact Hw.
  rewrite (sum3_upto_ext 6 _
             (fun n => scale3 (skyColor (bentN Dn axis b n)) (exp (- 4 * IZR n) * c)))
    by (intros n; now rewrite Hw).
  rewrite sum_upto_scale, sum3_upto_scale.
  unfold weighted_average. apply div3_scale_cancel; lra.
Qed.

(** X10: when the accumulation loop is reached and the direction is not
    the zero vector, every direction whose sky colour is sampled is a unit
    vector perpendicular to the rotation axis. *)
Theorem sampled_directions_unit (n : Z) :
  0 < length D ->
  length (bentN Dn axis b n) = 1 /\ dot (bentN Dn axis b n) axis = 0.
Proof.
  intros HD.
  assert (HDn : length Dn = 1) by now apply length_normalize.
  assert (Hax : length axis = 1).
  { apply length_div3_self. fold Dn in axis_defined. lra. }
  unfold bentN. rewrite rotateAroundAxis_is_rotateRodrigues. split.
  - unfold length. rewrite (rotateRodrigues_dot axis Hax).
    rewrite (unit_dot_self Dn HDn). apply sqrt_1.
  - rewrite rodrigues_dot_axis. unfold axis at 1. rewrite dot_cross_axis. ring.
Qed.

End SampledOrders.

Lemma length_ex_pos : 0 < length (mkvec3 1 0 0).
Proof. rewrite length_ex. lra. Qed.

Lemma sampled_directions_unit_witness :
  length (bentN (normalize (mkvec3 1 0 0))
            (div3 (cross (normalize (mkvec3 1 0 0)) (mkvec3 0 0 5))
                  (length (cross (normalize (mkvec3 1 0 0)) (mkvec3 0 0 5))))
            3 2) = 1.
Proof.
  exact (proj1 (sampled_directions_unit (mkvec3 0 0 5) (mkvec3 1 0 0) 3
                  side_axis_defined 2 length_ex_pos)).
Defined.

(** ** The order loop in single precision *)


Lemma exp_scaled (x : R) (n : nat) : exp (INR n * x) = exp x ^ n.
Proof.
  induction n as [| n IH].
  - simpl. rewrite Rmult_0_l. apply exp_0.
  - rewrite S_INR. replace ((INR n + 1) * x) with (x + INR n * x) by ring.
    rewrite exp_plus, IH. reflexivity.
Qed.

(** Comparing a power of a fraction with a fraction, on integers. *)
Lemma pow_ratio_le (a b c d : Z) (n : nat) :
  (0 < b)%Z -> (0 < d)%Z ->
  (a ^ Z.of_nat n * d <= c * b ^ Z.of_nat n)%Z ->
  (IZR a / IZR b) ^ n <= IZR c / IZR d.
Proof.
  intros Hb Hd H. apply IZR_le in H. rewrite !mult_IZR, <- !pow_IZR in H.
  apply IZR_lt in Hb, Hd.
  unfold Rdiv. rewrite Rpow_mult_distr, pow_inv.
  assert (HB : 0 < IZR b ^ n) by now apply pow_lt.
  set (A := IZR a ^ n) in *. set (B := IZR b ^ n) in *.
  apply (Rmult_le_reg_r (B * IZR d)); [now apply Rmult_lt_0_compat |].
  replace (A * / B * (B * IZR d)) with (A * IZR d) by (field; lra).
  replace (IZR c * / IZR d * (B * IZR d)) with (IZR c * B) by (field; lra).
  exact H.
Qed.

Lemma pow_ratio_ge (a b c d : Z) (n : nat) :
  (0 < b)%Z -> (0 < d)%Z ->
  (c * b ^ Z.of_nat n <= a ^ Z.of_nat n * d)%Z ->
  IZR c / IZR d <= (IZR a / IZR b) ^ n.
Proof.
  intros Hb Hd H. apply IZR_le in H. rewrite !mult_IZR, <- !pow_IZR in H.
  apply IZR_lt in Hb, Hd.
  unfold Rdiv. rewrite Rpow_mult_distr, pow_inv.
  assert (HB : 0 < IZR b ^ n) by now apply pow_lt.
  set (A := IZR a ^ n) in *. set (B := IZR b ^ n) in *.
  apply (Rmult_le_reg_r (B * IZR d)); [now apply Rmult_lt_0_compat |].
  replace (A * / B * (B * IZR d)) with (A * IZR d) by (field; lra).
  replace (IZR c * / IZR d * (B * IZR d)) with (IZR c * B) by (field; lra).
  exact H.
Qed.

(** Euler's number to two decimals, from [1 + x <= exp x] at [x = 1/64]
    and [x = -1/64]. *)
Lemma exp_1_bounds : 2697 / 1000 <= exp 1 <= 274 / 100.
Proof.
  assert (Hpos : 0 < exp (1 / 64)) by apply exp_pos.
  assert (He : exp 1 = exp (1 / 64) ^ 64).
  { rewrite <- exp_scaled. f_equal. simpl. lra. }
  rewrite He. split.
  - apply Rle_trans with ((65 / 64) ^ 64).
    + apply pow_ratio_ge; [lia | lia | vm_compute; discriminate].
    + apply pow_incr. pose proof (exp_ineq1_le (1 / 64)). lra.
  - apply Rle_trans with ((64 / 63) ^ 64).
    + apply pow_incr. split; [lra |].
      pose proof (exp_ineq1_le (- (1 / 64))) as Hm. rewrite exp_Ropp in Hm.
      apply (Rmult_le_reg_r (63 / 64)); [lra |].
      replace (64 / 63 * (63 / 64)) with 1 by lra.
      apply (Rmult_le_reg_r (/ exp (1 / 64))); [now apply Rinv_0_lt_compat |].
      replace (exp (1 / 64) * (63 / 64) * / exp (1 / 64)) with (63 / 64) by (field; lra).
      lra.
    + apply pow_ratio_le; [lia | lia | vm_compute; discriminate].
Qed.

(** The two sides of the underflow threshold [2^-150]. *)
Lemma exp_above_threshold (y : R) : y <= 103 -> / 2 ^ 150 < exp (- y).
Proof.
  intros Hy. apply Rlt_le_trans with (exp (Ropp 103)).
  - rewrite exp_Ropp.
    assert (He : exp 103 = exp 1 ^ 103) by (rewrite <- exp_scaled; f_equal; simpl; lra).
    rewrite He. apply Rinv_lt_contravar.
    + apply Rmult_lt_0_compat; apply pow_lt; [apply exp_pos | lra].
    + apply Rle_lt_trans with ((274 / 100) ^ 103).
      * apply pow_incr. pose proof exp_1_bounds. pose proof (exp_pos 1). lra.
      * assert (H : (274 / 100) ^ 103 <= (2 ^ 150 - 1) / 1).
        { change (2 ^ 150 - 1) with (IZR 2 ^ 150 - 1). rewrite pow_IZR, <- minus_IZR.
          apply pow_ratio_le; [lia | lia | vm_compute; discriminate]. }
        lra.
  - destruct (Req_dec y 103) as [-> | Hne]; [lra |].
    left. apply exp_increasing. lra.
Qed.

Lemma exp_below_threshold (y : R) : 105 <= y -> exp (- y) <= / 2 ^ 150.
Proof.
  intros Hy. apply Rle_trans with (exp (Ropp 105)).
  - destruct (Req_dec y 105) as [-> | Hne]; [lra |].
    left. apply exp_increasing. lra.
  - rewrite exp_Ropp.
    assert (He : exp 105 = exp 1 ^ 105) by (rewrite <- exp_scaled; f_equal; simpl; lra).
    rewrite He. apply Rinv_le_contravar; [apply pow_lt; lra |].
    apply Rle_trans with ((2697 / 1000) ^ 105).
    + assert (H : 2 ^ 150 / 1 <= (2697 / 1000) ^ 105).
      { change (2 ^ 150) with (IZR 2 ^ 150). rewrite pow_IZR.
        apply pow_ratio_ge; [lia | lia | vm_compute; discriminate]. }
      lra.
    + apply pow_incr. pose proof exp_1_bounds. lra.
Qed.

Lemma flush_large (x : R) :
  SinglePrecision.half_least < Rabs x -> SinglePrecision.flush x = x.
Proof.
  intros H. unfold SinglePrecision.flush.
  destruct (Rle_dec (Rabs x) SinglePrecision.half_least); [lra | reflexivity].
Qed.

Lemma flush_small (x : R) :
  Rabs x <= SinglePrecision.half_least -> SinglePrecision.flush x = 0.
Proof.
  intros H. unfold SinglePrecision.flush.
  destruct (Rle_dec (Rabs x) SinglePrecision.half_least); [reflexivity | contradiction].
Qed.

Lemma flush_exp_large (y : R) :
  y <= 103 -> SinglePrecision.flush (exp (- y)) = exp (- y).
Proof.
  intros Hy. apply flush_large. rewrite Rabs_pos_eq by (left; apply exp_pos).
  now apply exp_above_threshold.
Qed.

(** The exponent of [closeness], in the two ranges of [b]. *)
Lemma closeness_exponent_small (b : R) :
  b_crit < b -> b <= 24 -> 0 <= Rabs ((b - b_crit) / (0.1 * b_crit)) <= 83.
Proof.
  intros Hlo Hhi. unfold b_crit, r_s in *.
  rewrite Rabs_pos_eq.
  - split; [apply Rmult_le_pos; [lra | left; apply Rinv_0_lt_compat; lra] |].
    apply (Rmult_le_reg_r (0.1 * (2.598 * 1.0))); [lra |].
    replace ((b - 2.598 * 1.0) / (0.1 * (2.598 * 1.0)) * (0.1 * (2.598 * 1.0)))
      with (b - 2.598 * 1.0) by (field; lra).
    lra.
  - apply Rmult_le_pos; [lra | left; apply Rinv_0_lt_compat; lra].
Qed.

Lemma closeness_exponent_large (b : R) :
  30 <= b -> 105 <= Rabs ((b - b_crit) / (0.1 * b_crit)).
Proof.
  intros Hb. unfold b_crit, r_s in *.
  rewrite Rabs_pos_eq.
  - apply (Rmult_le_reg_r (0.1 * (2.598 * 1.0))); [lra |].
    replace ((b - 2.598 * 1.0) / (0.1 * (2.598 * 1.0)) * (0.1 * (2.598 * 1.0)))
      with (b - 2.598 * 1.0) by (field; lra).
    lra.
  - apply Rmult_le_pos; [lra | left; apply Rinv_0_lt_compat; lra].
Qed.

(** Up to [b = 24] no operation of the weight underflows, for any of the
    six orders: the single-precision weight is the exact one. *)
Lemma weight_in_range (b : R) (n : Z) :
  b_crit < b -> b <= 24 -> (0 <= n <= 5)%Z ->
  SinglePrecision.weightN b n = weightN b n.
Proof.
  intros Hlo Hhi [Hn0 Hn5].
  pose proof (closeness_exponent_small b Hlo Hhi) as Hx.
  apply IZR_le in Hn0, Hn5.
  unfold SinglePrecision.weightN, weightN. cbv zeta.
  set (x := Rabs ((b - b_crit) / (0.1 * b_crit))) in *.
  replace (- IZR n * 4.0) with (- (IZR n * 4)) by lra.
  rewrite (flush_exp_large (IZR n * 4)) by lra.
  rewrite (flush_exp_large x) by lra.
  rewrite <- exp_plus.
  replace (- (IZR n * 4) + - x) with (- (IZR n * 4 + x)) by ring.
  apply flush_exp_large. lra.
Qed.

(** From [b = 30] on [closeness] underflows, and so does every weight. *)
Lemma weight_underflow (b : R) (n : Z) :
  30 <= b -> SinglePrecision.weightN b n = 0.
Proof.
  intros Hb. pose proof (closeness_exponent_large b Hb) as Hx.
  unfold SinglePrecision.weightN. cbv zeta.
  set (x := Rabs ((b - b_crit) / (0.1 * b_crit))) in *.
  assert (Hpos : 0 < SinglePrecision.half_least)
    by (apply Rinv_0_lt_compat, pow_lt; lra).
  rewrite (flush_small (exp (- x))).
  - rewrite Rmult_0_r. apply flush_small. rewrite Rabs_R0. lra.
  - rewrite Rabs_pos_eq by (left; apply exp_pos). now apply exp_below_threshold.
Qed.

Lemma sum_upto_ext_below (k : nat) (f g : Z -> R) :
  (forall m : nat, (m < k)%nat -> f (Z.of_nat m) = g (Z.of_nat m)) ->
  sum_upto k f = sum_upto k g.
Proof.
  induction k as [| k IH]; intros H; simpl; [reflexivity |].
  rewrite IH by (intros m Hm; apply H; lia). rewrite H by lia. reflexivity.
Qed.

Lemma sum3_upto_ext_below (k : nat) (f g : Z -> vec3) :
  (forall m : nat, (m < k)%nat -> f (Z.of_nat m) = g (Z.of_nat m)) ->
  sum3_upto k f = sum3_upto k g.
Proof.
  induction k as [| k IH]; intros H; simpl; [reflexivity |].
  rewrite IH by (intros m Hm; apply H; lia). rewrite H by lia. reflexivity.
Qed.

Section SinglePrecisionLoop.

Variable baseAlpha : R -> R.

Lemma single_lens_loop_step (Dn axis : vec3) (b : R) (n : Z) (a : LensAcc) :
  (n <= MAX_ORDERS)%Z ->
  SinglePrecision.lens_loop baseAlpha Dn axis b n a
  = SinglePrecision.lens_loop baseAlpha Dn axis b (n + 1)
      (SinglePrecision.lens_body baseAlpha Dn axis b n a).
Proof.
  intros H. rewrite SinglePrecision.lens_loop_equation_1 at 1.
  unfold SinglePrecision.lens_loop_unfold_clause_1.
  destruct (Z_le_dec n MAX_ORDERS); [reflexivity | contradiction].
Qed.

Lemma single_lens_loop_done (Dn axis : vec3) (b : R) (n : Z) (a : LensAcc) :
  ~ (n <= MAX_ORDERS)%Z -> SinglePrecision.lens_loop baseAlpha Dn axis b n a = a.
Proof.
  intros H. rewrite SinglePrecision.lens_loop_equation_1.
  unfold SinglePrecision.lens_loop_unfold_clause_1.
  destruct (Z_le_dec n MAX_ORDERS); [contradiction | reflexivity].
Qed.

Lemma single_lens_loop_orders (Dn axis : vec3) (b : R) :
  SinglePrecision.lens_loop baseAlpha Dn axis b 0 (mkLensAcc (splat3 0.0) 0.0) =
    mkLensAcc
      (sum3_upto 6 (fun n => scale3 (skyColor (rotateAroundAxis Dn axis
                                                 (baseAlpha b + IZR n * TWO_PI)))
                                    (SinglePrecision.weightN b n)))
      (sum_upto 6 (SinglePrecision.weightN b)).
Proof.
  do 6 (rewrite single_lens_loop_step by (unfold MAX_ORDERS; lia); simpl (_ + 1)%Z).
  rewrite single_lens_loop_done by (unfold MAX_ORDERS; lia).
  unfold SinglePrecision.lens_body.
  cbn [accum totalWeight sum3_upto sum_upto Z.of_nat Pos.of_succ_nat Pos.succ].
  rewrite splat3_zero. replace 0.0 with 0 by lra. reflexivity.
Qed.

Variables (ro D : vec3) (b : R).
Hypothesis axis_defined : 1e-6 <= length (cross (normalize D) ro).

Let Dn : vec3 := normalize D.
Let axis : vec3 := div3 (cross Dn ro) (length (cross Dn ro)).

(** Up to [b = 24] the single-precision loop returns the weighted average
    of the six samples. *)
Lemma single_precision_average :
  b_crit < b -> b <= 24 ->
  SinglePrecision.sampleLensedSky_with baseAlpha ro D b =
    weighted_average 6
      (fun n => skyColor (rotateAroundAxis Dn axis (baseAlpha b + IZR n * TWO_PI)))
      (fun n => exp (- 4 * IZR n) * exp (- Rabs (b - b_crit) / (0.1 * b_crit))).
Proof.
  intros Hlo Hhi.
  unfold SinglePrecision.sampleLensedSky_with. cbv zeta. fold Dn. fold axis.
  destruct (Rle_dec b b_crit) as [Hle | _]; [exfalso; lra |].
  destruct (Rlt_dec (length (cross Dn ro)) 1e-6) as [Hlt | _];
    [exfalso; unfold Dn in Hlt; lra |].
  rewrite single_lens_loop_orders. cbn [accum totalWeight].
  assert (Hw : forall m : nat, (m < 6)%nat ->
            SinglePrecision.weightN b (Z.of_nat m)
            = exp (- 4 * IZR (Z.of_nat m)) * exp (- Rabs (b - b_crit) / (0.1 * b_crit))).
  { intros m Hm. rewrite weight_in_range by (try assumption; lia).
    apply weightN_formula. }
  rewrite (sum_upto_ext_below 6 (SinglePrecision.weightN b)
             (fun n => exp (- 4 * IZR n) * exp (- Rabs (b - b_crit) / (0.1 * b_crit)))
             Hw).
  rewrite (sum3_upto_ext_below 6 _
             (fun n => scale3 (skyColor (rotateAroundAxis Dn axis
                                           (baseAlpha b + IZR n * TWO_PI)))
                              (exp (- 4 * IZR n)
                               * exp (- Rabs (b - b_crit) / (0.1 * b_crit)))))
    by (intros m Hm; now rewrite Hw).
  assert (Hpos : 0 < sum_upto 6 (fun n => exp (- 4 * IZR n)
                                          * exp (- Rabs (b - b_crit) / (0.1 * b_crit)))).
  { apply sum_upto_pos. intros n. apply Rmult_lt_0_compat; apply exp_pos. }
  destruct (Rgt_dec _ 0.0) as [_ | Hn]; [reflexivity | exfalso; apply Hn; lra].
Qed.

(** From [b = 30] on the total weight is zero and the fallback is taken. *)
Lemma single_precision_fallback :
  30 <= b ->
  SinglePrecision.sampleLensedSky_with baseAlpha ro D b = skyColor Dn.
Proof.
  intros Hb.
  assert (Hcrit : b_crit < b) by (unfold b_crit, r_s; lra).
  unfold SinglePrecision.sampleLensedSky_with. cbv zeta. fold Dn. fold axis.
  destruct (Rle_dec b b_crit) as [Hle | _]; [exfalso; lra |].
  destruct (Rlt_dec (length (cross Dn ro)) 1e-6) as [Hlt | _]; [reflexivity |].
  rewrite single_lens_loop_orders. cbn [accum totalWeight].
  rewrite (sum_upto_ext 6 _ (fun _ => 0)) by (intros n; now apply weight_underflow).
  simpl sum_upto.
  destruct (Rgt_dec _ 0.0) as [Hgt | _]; [exfalso; lra | reflexivity].
Qed.

End SinglePrecisionLoop.

(** Up to [b = 24] the single-precision loop and the exact one return the
    same colour, whichever guard the call meets. *)
Lemma single_precision_agrees (ro D : vec3) (b : R) :
  b <= 24 -> SinglePrecision.sampleLensedSky ro D b = sampleLensedSky ro D b.
Proof.
  intros Hb.
  destruct (Rle_dec b b_crit) as [Hle | Hgt].
  - unfold SinglePrecision.sampleLensedSky, SinglePrecision.sampleLensedSky_with,
      sampleLensedSky. cbv zeta.
    destruct (Rle_dec b b_crit); [reflexivity | contradiction].
  - apply Rnot_le_lt in Hgt.
    destruct (Rlt_dec (length (cross (normalize D) ro)) 1e-6) as [Hlt | Hax].
    + unfold SinglePrecision.sampleLensedSky, SinglePrecision.sampleLensedSky_with,
        sampleLensedSky. cbv zeta.
      destruct (Rle_dec b b_crit); [exfalso; lra |].
      destruct (Rlt_dec (length (cross (normalize D) ro)) 1e-6);
        [reflexivity | contradiction].
    + apply Rnot_lt_le in Hax.
      unfold SinglePrecision.sampleLensedSky.
      rewrite (single_precision_average _ ro D b Hax Hgt Hb).
      symmetry. now apply sampleLensedSky_exact_average.
Qed.

(** C2, as the shader has it: for an axis of length at least [1e-6] and
    [b] above [b_crit], up to [b = 24], [sampleLensedSky] is the
    weight-normalized average over the orders [n = 0..5] of [skyColor] of
    the direction rotated by [deflectionAngleApprox(b) + n * TWO_PI], with
    [TWO_PI = 6.28318530718] and weight
    [exp(-4n) exp(-|b - b_crit| / (0.1 b_crit))]; there single precision
    and exact arithmetic agree.  From [b = 30] on every weight underflows
    in single precision, and [sampleLensedSky] returns the fallback
    [skyColor] of the normalized direction, not an average. *)
Theorem sampleLensedSky_weighted_orders (ro D : vec3) (b : R) :
  b_crit < b ->
  1e-6 <= length (cross (normalize D) ro) ->
  let Dn := normalize D in
  let axis := div3 (cross Dn ro) (length (cross Dn ro)) in
  TWO_PI = 6.28318530718
  /\ (b <= 24 ->
      SinglePrecision.sampleLensedSky ro D b =
        weighted_average 6
          (fun n => skyColor (rotateAroundAxis Dn axis
                                (deflectionAngleApprox b r_s b_crit + IZR n * TWO_PI)))
          (fun n => exp (- 4 * IZR n) * exp (- Rabs (b - b_crit) / (0.1 * b_crit)))
      /\ sampleLensedSky ro D b = SinglePrecision.sampleLensedSky ro D b)
  /\ (30 <= b -> SinglePrecision.sampleLensedSky ro D b = skyColor Dn).
Proof.
  intros Hcrit Hax Dn axis.
  split; [reflexivity |]. split.
  - intros Hb. split.
    + unfold SinglePrecision.sampleLensedSky.
      exact (single_precision_average _ ro D b Hax Hcrit Hb).
    + symmetry. now apply single_precision_agrees.
  - intros Hb. unfold SinglePrecision.sampleLensedSky.
    exact (single_precision_fallback _ ro D b Hb).
Qed.

Lemma sampleLensedSky_weighted_orders_witness :
  SinglePrecision.sampleLensedSky (mkvec3 0 0 5) (mkvec3 1 0 0) 3 =
    weighted_average 6
      (fun n => skyColor (rotateAroundAxis (normalize (mkvec3 1 0 0))
                            (div3 (cross (normalize (mkvec3 1 0 0)) (mkvec3 0 0 5))
                                  (length (cross (normalize (mkvec3 1 0 0)) (mkvec3 0 0 5))))
                            (deflectionAngleApprox 3 r_s b_crit + IZR n * TWO_PI)))
      (fun n => exp (- 4 * IZR n) * exp (- Rabs (3 - b_crit) / (0.1 * b_crit)))
  /\ SinglePrecision.sampleLensedSky (mkvec3 0 0 5) (mkvec3 1 0 0) 40
     = skyColor (normalize (mkvec3 1 0 0)).
Proof.
  split.
  - refine (proj1 (proj1 (proj2 (sampleLensedSky_weighted_orders
                                   (mkvec3 0 0 5) (mkvec3 1 0 0) 3
                                   side_above_critical side_axis_defined)) _)).
    lra.
  - refine (proj2 (proj2 (sampleLensedSky_weighted_orders
                            (mkvec3 0 0 5) (mkvec3 1 0 0) 40 _ side_axis_defined)) _).
    + unfold b_crit, r_s. lra.
    + lra.
Defined.

(** X9: the factor [closeness = exp(-|b - b_crit| / (0.1 b_crit))] that
    every weight carries cancels in the normalized average: when the
    accumulation loop is reached and no weight underflows (up to
    [b = 24]), [sampleLensedSky] is the average of the six samples with
    weights [exp(-4n)] alone, so it depends on [b] only through the
    rotation angle. *)
Theorem sampleLensedSky_closeness_cancels (ro D : vec3) (b : R) :
  b_crit < b -> b <= 24 ->
  1e-6 <= length (cross (normalize D) ro) ->
  let Dn := normalize D in
  let axis := div3 (cross Dn ro) (length (cross Dn ro)) in
  SinglePrecision.sampleLensedSky ro D b =
    weighted_average 6 (fun n => skyColor (bentN Dn axis b n))
                       (fun n => exp (- 4 * IZR n)).
Proof.
  intros Hcrit Hb Hax Dn axis.
  rewrite (single_precision_agrees ro D b Hb).
  exact (sampleLensedSky_exact_cancels ro D b Hcrit Hax).
Qed.

Lemma sampleLensedSky_closeness_cancels_witness :
  SinglePrecision.sampleLensedSky (mkvec3 0 0 5) (mkvec3 1 0 0) 3 =
    weighted_average 6
      (fun n => skyColor (bentN (normalize (mkvec3 1 0 0))
                            (div3 (cross (normalize (mkvec3 1 0 0)) (mkvec3 0 0 5))
                                  (length (cross (normalize (mkvec3 1 0 0)) (mkvec3 0 0 5))))
                            3 n))
      (fun n => exp (- 4 * IZR n)).
Proof.
  refine (sampleLensedSky_closeness_cancels (mkvec3 0 0 5) (mkvec3 1 0 0) 3
            side_above_critical _ side_axis_defined).
  lra.
Defined.

(** ** The specification's reading against the shader's, on the colour returned *)

Lemma length_ey : length (mkvec3 0 1 0) = 1.
Proof. apply length_of_dot; [lra | unfold dot; simpl; ring]. Qed.

(** A third worked ray: the camera at [(6,0,0)] looking up along [y]; the
    rotation axis is [(0,0,-1)] and the direction rotated by [a] has
    height [cos a]. *)
Lemma up_axis_len : length (cross (normalize (mkvec3 0 1 0)) (mkvec3 6 0 0)) = 6.
Proof.
  rewrite (normalize_unit _ length_ey).
  apply length_of_dot; [lra | unfold dot, cross; simpl; ring].
Qed.

Lemma up_axis :
  div3 (cross (normalize (mkvec3 0 1 0)) (mkvec3 6 0 0))
       (length (cross (normalize (mkvec3 0 1 0)) (mkvec3 6 0 0)))
  = mkvec3 0 0 (-1).
Proof.
  rewrite up_axis_len, (normalize_unit _ length_ey).
  apply vec3_eq; unfold div3, cross; simpl; lra.
Qed.

Lemma up_rotation (a : R) :
  rotateAroundAxis (mkvec3 0 1 0) (mkvec3 0 0 (-1)) a = mkvec3 (sin a) (cos a) 0.
Proof. apply vec3_eq; vec_unfold; lra. Qed.

(** The star term of [skyColor] is the same in the three channels, so
    blue minus red is the gradient's, a function of the height alone. *)
Lemma skyColor_blue_minus_red (dir : vec3) :
  vz (skyColor dir) - vx (skyColor dir) = 0.195 + 0.155 * vy dir.
Proof.
  unfold skyColor. cbv zeta.
  match goal with |- context [splat3 ?st] => generalize st end. intros st.
  unfold add3, splat3, mix3, mix. cbn [vx vy vz]. lra.
Qed.

Lemma blue_minus_red_sum (k : nat) (dirs : Z -> vec3) (w : Z -> R) :
  vz (sum3_upto k (fun n => scale3 (skyColor (dirs n)) (w n)))
  - vx (sum3_upto k (fun n => scale3 (skyColor (dirs n)) (w n)))
  = 0.195 * sum_upto k w + 0.155 * sum_upto k (fun n => vy (dirs n) * w n).
Proof.
  induction k as [| k IH].
  - simpl. lra.
  - cbn [sum3_upto sum_upto].
    set (S3 := sum3_upto k _) in *. set (c := skyColor (dirs (Z.of_nat k))).
    pose proof (skyColor_blue_minus_red (dirs (Z.of_nat k))) as Hc. fold c in Hc.
    replace (vz (add3 S3 (scale3 c (w (Z.of_nat k)))))
      with (vz S3 + vz c * w (Z.of_nat k)) by reflexivity.
    replace (vx (add3 S3 (scale3 c (w (Z.of_nat k)))))
      with (vx S3 + vx c * w (Z.of_nat k)) by reflexivity.
    replace (vz c) with (vx c + (0.195 + 0.155 * vy (dirs (Z.of_nat k)))) by lra.
    lra.
Qed.

Lemma blue_minus_red_average (k : nat) (dirs : Z -> vec3) (w : Z -> R) :
  sum_upto k w <> 0 ->
  vz (weighted_average k (fun n => skyColor (dirs n)) w)
  - vx (weighted_average k (fun n => skyColor (dirs n)) w)
  = 0.195 + 0.155 * (sum_upto k (fun n => vy (dirs n) * w n) / sum_upto k w).
Proof.
  intros Hw. unfold weighted_average, div3. cbn [vx vz].
  pose proof (blue_minus_red_sum k dirs w) as Hs.
  set (sz := vz _) in *. set (sx := vx _) in *.
  replace (sz / sum_upto k w - sx / sum_upto k w)
    with ((sz - sx) / sum_upto k w) by (field; exact Hw).
  rewrite Hs. field. exact Hw.
Qed.

(** Far from [b_crit] the approximate model is almost zero: at [b = 6] it
    is [250/25001], about 0.01 radians. *)
Lemma deflectionAngleApprox_far : deflectionAngleApprox 6 r_s b_crit = 250 / 25001.
Proof.
  unfold deflectionAngleApprox, b_crit, r_s. cbv zeta.
  rewrite (clamp_above ((6 - 2.598 * 1.0) / (0.2 * (2.598 * 1.0))) (-5.0) 5.0).
  - replace (1.0 / (5.0 * 5.0 + 0.001) * (0.25 * 1.0)) with (250 / 25001) by lra.
    apply clamp_id. lra.
  - lra.
  - apply (Rmult_le_reg_r (0.2 * (2.598 * 1.0))); [lra |].
    replace ((6 - 2.598 * 1.0) / (0.2 * (2.598 * 1.0)) * (0.2 * (2.598 * 1.0)))
      with (6 - 2.598 * 1.0) by (field; lra).
    lra.
Qed.

Lemma cos_small (x : R) : 0 < x < 1 -> 1 - x * x / 2 < cos x.
Proof.
  intros [Hlo Hhi]. pose proof PI2_3_2.
  assert (Hc : cos x = cos (2 * (x / 2))) by (f_equal; lra).
  rewrite Hc, cos_2a_sin.
  assert (Hs0 : 0 < sin (x / 2)) by (apply sin_gt_0; lra).
  assert (Hs1 : sin (x / 2) < x / 2) by (apply sin_lt_x; lra).
  nra.
Qed.

(** The stable model at [b = 6] turns the direction by more than
    [2 atan(1/3)]: the cosine of the angle is at most [4/5]. *)
Lemma deflectionAngleStable_far : cos (deflectionAngleStable 6 r_s b_crit) <= 4 / 5.
Proof.
  unfold deflectionAngleStable. cbv zeta.
  set (raw := 2.0 * r_s / Rmax 6 1e-6 * _).
  assert (Hraw : 1 / 3 <= raw).
  { unfold raw, r_s. rewrite Rmax_left by lra.
    match goal with |- context [exp ?e] => pose proof (exp_pos e) end. lra. }
  pose proof (atan_bound raw) as [_ Hup].
  assert (Hlo : 0 < atan raw).
  { rewrite <- atan_0. apply atan_increasing. lra. }
  pose proof PI_4.
  rewrite clamp_id by lra.
  replace (atan raw * 2.0) with (2 * atan raw) by lra.
  rewrite cos_2a_cos, cos_atan.
  assert (Hq : 0 < 1 + raw²) by (unfold Rsqr; nra).
  assert (Hsq : sqrt (1 + raw²) * sqrt (1 + raw²) = 1 + raw²) by (apply sqrt_sqrt; lra).
  assert (Hs : 0 < sqrt (1 + raw²)) by now apply sqrt_lt_R0.
  replace (2 * (1 / sqrt (1 + raw²)) * (1 / sqrt (1 + raw²)) - 1)
    with (2 / (sqrt (1 + raw²) * sqrt (1 + raw²)) - 1) by (field; lra).
  rewrite Hsq.
  apply (Rmult_le_reg_r (1 + raw²)); [exact Hq |].
  replace ((2 / (1 + raw²) - 1) * (1 + raw²)) with (2 - (1 + raw²)) by (field; lra).
  unfold Rsqr. nra.
Qed.

Lemma cos_full_turns (x : R) (m : nat) : cos (x + IZR (Z.of_nat m) * (2 * PI)) = cos x.
Proof.
  rewrite <- INR_IZR_INZ.
  replace (x + INR m * (2 * PI)) with (x + 2 * INR m * PI) by ring.
  apply cos_period.
Qed.

Lemma exp_order_small (x : R) : 1 <= x -> 0 < exp (- 4 * x) <= / 52.
Proof.
  intros Hx. split; [apply exp_pos |].
  apply Rle_trans with (exp (Ropp 4)).
  - destruct (Req_dec x 1) as [-> | Hne]; [right; f_equal; lra |].
    left. apply exp_increasing. lra.
  - rewrite exp_Ropp. apply Rinv_le_contravar; [lra |].
    assert (He : exp 4 = exp 1 ^ 4) by (rewrite <- exp_scaled; f_equal; simpl; lra).
    rewrite He. pose proof exp_1_bounds as [Hlo _].
    apply Rle_trans with ((2697 / 1000) ^ 4); [simpl; lra |].
    apply pow_incr. lra.
Qed.

(** The weighted mean height of the six directions the shader samples at
    [b = 6] is above [4/5]: the order-0 direction is turned by 0.01
    radians only, and the other five orders weigh less than a tenth. *)
Lemma code_mean_height (cl : R) :
  0 < cl ->
  4 / 5 * sum_upto 6 (fun n => exp (- 4 * IZR n) * cl)
  < sum_upto 6 (fun n => cos (250 / 25001 + IZR n * TWO_PI) * (exp (- 4 * IZR n) * cl)).
Proof.
  intros Hcl.
  cbn [sum_upto Z.of_nat Pos.of_succ_nat Pos.succ].
  replace (250 / 25001 + 0 * TWO_PI) with (250 / 25001) by lra.
  replace (- 4 * 0) with 0 by lra. rewrite exp_0.
  pose proof (cos_small (250 / 25001) ltac:(lra)) as Hc0.
  pose proof (exp_order_small 1 ltac:(lra)) as He1.
  pose proof (exp_order_small 2 ltac:(lra)) as He2.
  pose proof (exp_order_small 3 ltac:(lra)) as He3.
  pose proof (exp_order_small 4 ltac:(lra)) as He4.
  pose proof (exp_order_small 5 ltac:(lra)) as He5.
  pose proof (COS_bound (250 / 25001 + 1 * TWO_PI)) as Hc1.
  pose proof (COS_bound (250 / 25001 + 2 * TWO_PI)) as Hc2.
  pose proof (COS_bound (250 / 25001 + 3 * TWO_PI)) as Hc3.
  pose proof (COS_bound (250 / 25001 + 4 * TWO_PI)) as Hc4.
  pose proof (COS_bound (250 / 25001 + 5 * TWO_PI)) as Hc5.
  set (c0 := cos (250 / 25001)) in *.
  set (c1 := cos (250 / 25001 + 1 * TWO_PI)) in *.
  set (c2 := cos (250 / 25001 + 2 * TWO_PI)) in *.
  set (c3 := cos (250 / 25001 + 3 * TWO_PI)) in *.
  set (c4 := cos (250 / 25001 + 4 * TWO_PI)) in *.
  set (c5 := cos (250 / 25001 + 5 * TWO_PI)) in *.
  set (e1 := exp (- 4 * 1)) in *. set (e2 := exp (- 4 * 2)) in *.
  set (e3 := exp (- 4 * 3)) in *. set (e4 := exp (- 4 * 4)) in *.
  set (e5 := exp (- 4 * 5)) in *.
  assert (H1 : 0 <= e1 * (c1 + 1)) by (apply Rmult_le_pos; lra).
  assert (H2 : 0 <= e2 * (c2 + 1)) by (apply Rmult_le_pos; lra).
  assert (H3 : 0 <= e3 * (c3 + 1)) by (apply Rmult_le_pos; lra).
  assert (H4 : 0 <= e4 * (c4 + 1)) by (apply Rmult_le_pos; lra).
  assert (H5 : 0 <= e5 * (c5 + 1)) by (apply Rmult_le_pos; lra).
  assert (Hsum : 4 / 5 * (1 + e1 + e2 + e3 + e4 + e5)
                 < c0 + c1 * e1 + c2 * e2 + c3 * e3 + c4 * e4 + c5 * e5) by lra.
  apply (Rmult_lt_compat_r cl) in Hsum; [| exact Hcl].
  lra.
Qed.

(** C2 fails as stated: at origin [(6,0,0)], direction [(0,1,0)] and
    [b = 6] (above [b_crit], axis length 6, no underflow) the colour that
    [sampleLensedSky] returns is not the average over the directions
    rotated by the stable model's angle.  The shader rotates by
    [deflectionAngleApprox(6)], about 0.01 radians, so the mean height of
    its samples is above [4/5]; the stable model turns every order to the
    height [cos(deflectionAngleStable(6))], at most [4/5]; and blue minus
    red of [skyColor] is [0.195 + 0.155 * height]. *)
Lemma sampleLensedSky_not_stable_angle :
  b_crit < 6
  /\ 1e-6 <= length (cross (normalize (mkvec3 0 1 0)) (mkvec3 6 0 0))
  /\ SinglePrecision.sampleLensedSky (mkvec3 6 0 0) (mkvec3 0 1 0) 6
     <> sampleLensedSky_spec (mkvec3 6 0 0) (mkvec3 0 1 0) 6
  /\ sampleLensedSky (mkvec3 6 0 0) (mkvec3 0 1 0) 6
     <> sampleLensedSky_spec (mkvec3 6 0 0) (mkvec3 0 1 0) 6.
Proof.
  assert (Hcrit : b_crit < 6) by (unfold b_crit, r_s; lra).
  assert (Hax : 1e-6 <= length (cross (normalize (mkvec3 0 1 0)) (mkvec3 6 0 0)))
    by (rewrite up_axis_len; lra).
  assert (Hin : 6 <= 24) by lra.
  split; [exact Hcrit |]. split; [exact Hax |].
  rewrite <- (single_precision_agrees (mkvec3 6 0 0) (mkvec3 0 1 0) 6 Hin).
  assert (Hne : SinglePrecision.sampleLensedSky (mkvec3 6 0 0) (mkvec3 0 1 0) 6
                <> sampleLensedSky_spec (mkvec3 6 0 0) (mkvec3 0 1 0) 6);
    [| split; exact Hne].
  unfold SinglePrecision.sampleLensedSky.
  rewrite (single_precision_average _ _ _ _ Hax Hcrit Hin).
  unfold sampleLensedSky_spec. cbv zeta.
  rewrite up_axis, (normalize_unit _ length_ey), deflectionAngleApprox_far.
  set (cl := exp (- Rabs (6 - b_crit) / (0.1 * b_crit))).
  assert (Hcl : 0 < cl) by apply exp_pos.
  set (W := fun n : Z => exp (- 4 * IZR n) * cl).
  assert (HW : 0 < sum_upto 6 W)
    by (apply sum_upto_pos; intros n; apply Rmult_lt_0_compat; [apply exp_pos | exact Hcl]).
  intros Heq.
  apply (f_equal (fun v => vz v - vx v)) in Heq. cbv beta in Heq.
  rewrite (blue_minus_red_average 6
             (fun n => rotateAroundAxis (mkvec3 0 1 0) (mkvec3 0 0 (-1))
                         (250 / 25001 + IZR n * TWO_PI)) W) in Heq by lra.
  rewrite (blue_minus_red_average 6
             (fun n => rotateAroundAxis (mkvec3 0 1 0) (mkvec3 0 0 (-1))
                         (alphaN_spec 6 n)) W) in Heq by lra.
  rewrite (sum_upto_ext 6 _ (fun n => cos (250 / 25001 + IZR n * TWO_PI) * W n))
    in Heq by (intros n; now rewrite up_rotation).
  rewrite (sum_upto_ext_below 6
             (fun n => vy (rotateAroundAxis (mkvec3 0 1 0) (mkvec3 0 0 (-1))
                             (alphaN_spec 6 n)) * W n)
             (fun n => W n * cos (deflectionAngleStable 6 r_s b_crit)))
    in Heq.
  - rewrite sum_upto_scale in Heq.
    pose proof (code_mean_height cl Hcl) as Hcode. fold W in Hcode.
    pose proof deflectionAngleStable_far as Hspec.
    set (SY := sum_upto 6 (fun n => cos (250 / 25001 + IZR n * TWO_PI) * W n)) in *.
    set (SW := sum_upto 6 W) in *.
    set (ct := cos (deflectionAngleStable 6 r_s b_crit)) in *.
    change (4 / 5 * SW < SY) in Hcode.
    assert (H1 : SY / SW = SW * ct / SW) by lra.
    replace (SW * ct / SW) with ct in H1 by (field; lra).
    assert (H2 : 4 / 5 < SY / SW).
    { apply (Rmult_lt_reg_r SW); [exact HW |].
      replace (SY / SW * SW) with SY by (field; lra). exact Hcode. }
    lra.
  - intros m Hm. rewrite up_rotation. cbn [vy]. unfold alphaN_spec.
    rewrite cos_full_turns. ring.
Qed.

(** ** The starfield *)

Lemma fract_range (x : R) : 0 <= fract x < 1.
Proof. unfold fract, floor. pose proof (Zfloor_bound x). lra. Qed.

Lemma hash21_range (p : vec2) : 0 <= hash21 p < 1.
Proof. unfold hash21. cbv zeta. apply fract_range. Qed.

Lemma pow_below_one (x y : R) : 0 <= x < 1 -> 0 < y -> 0 <= pow x y < 1.
Proof.
  intros [Hx0 Hx1] Hy. split; [apply pow_nonneg |].
  unfold pow. destruct (Req_EM_T x 0) as [| Hne]; [lra |].
  rewrite Rabs_pos_eq by exact Hx0.
  assert (Hx : 0 < x) by lra.
  unfold Rpower. rewrite <- exp_0. apply exp_increasing.
  pose proof (ln_increasing x 1 Hx Hx1) as Hln. rewrite ln_1 in Hln. nra.
Qed.

(** X11: for a direction with [y] in [[-1, 1]], [skyColor] is the vertical
    gradient between [(0.02, 0.02, 0.06)] and [(0.15, 0.25, 0.5)] plus a
    star term that is the same on the three channels and lies in
    [[0, 1)]; the hash that drives the stars always lies in [[0, 1)]. *)
Theorem skyColor_gradient_plus_star (dir : vec3) :
  -1 <= vy dir <= 1 ->
  let base := mix3 (mkvec3 0.02 0.02 0.06) (mkvec3 0.15 0.25 0.5) (0.5 * (vy dir + 1.0)) in
  let star := vx (skyColor dir) - vx base in
  skyColor dir = add3 base (splat3 star)
  /\ 0 <= star < 1
  /\ 0.02 <= vx base <= 0.15 /\ 0.02 <= vy base <= 0.25 /\ 0.06 <= vz base <= 0.5
  /\ forall p : vec2, 0 <= hash21 p < 1.
Proof.
  intros Hy base star.
  assert (Hsky : exists st, 0 <= st < 1 /\ skyColor dir = add3 base (splat3 st)).
  { unfold skyColor. cbv zeta. fold base.
    match goal with |- context [splat3 ?st] => exists st end.
    split; [| reflexivity].
    match goal with |- 0 <= step ?e ?s * pow ?h ?y < 1 =>
      pose proof (pow_below_one h y (hash21_range _) ltac:(lra)) as Hp;
      unfold step; destruct (Rlt_dec s e); lra end. }
  destruct Hsky as (st & Hst & Heq).
  assert (Hstar : star = st).
  { unfold star. rewrite Heq. unfold add3, splat3; simpl. ring. }
  rewrite Hstar. split; [exact Heq | split; [exact Hst |]].
  unfold base, mix3, mix; simpl.
  repeat split; try lra. all: apply hash21_range.
Qed.

Lemma skyColor_gradient_plus_star_witness :
  0 <= vx (skyColor (mkvec3 0 0 1))
       - vx (mix3 (mkvec3 0.02 0.02 0.06) (mkvec3 0.15 0.25 0.5) (0.5 * (0 + 1.0))) < 1.
Proof.
  refine (proj1 (proj2 (skyColor_gradient_plus_star (mkvec3 0 0 1) _))).
  simpl. lra.
Defined.

(** ** Escaped rays below the critical impact parameter, and a camera
    inside the horizon *)

Lemma mix3_from_black (c : vec3) (a : R) : mix3 (splat3 0.0) c a = scale3 c a.
Proof.
  apply vec3_eq; unfold mix3, mix, splat3, scale3; simpl;
    replace 0.0 with 0 by lra; ring.
Qed.

(** X12: when the march does not hit and the impact parameter of the
    pixel's ray is at most [b_crit], the background sample is black, so
    the fragment shows only the ring colour, scaled by the ring
    proximity blend factor. *)
Theorem main_escape_below_critical (u : Uniforms) (gl_FragCoord : vec4) :
  ms_hit (main_march u gl_FragCoord) = false ->
  main_b_global u gl_FragCoord <= b_crit ->
  let b := main_b_global u gl_FragCoord in
  main u gl_FragCoord =
    vec4_of (scale3 (computeLensedColor b)
               (smoothstep 0.0 0.85 (exp (- pow ((b - b_crit) / (0.03 * b_crit)) 2.0))))
            1.0.
Proof.
  intros Hhit Hb b. rewrite main_shading, Hhit. cbv zeta. fold b.
  replace (sampleLensedSky (cameraPos u) (ms_D (main_march u gl_FragCoord)) b)
    with (splat3 0.0).
  - now rewrite mix3_from_black.
  - unfold sampleLensedSky. cbv zeta.
    destruct (Rle_dec b b_crit) as [_ | Hn]; [reflexivity | contradiction].
Qed.

Lemma away_b_below_critical : main_b_global away_uniforms centre_fragment <= b_crit.
Proof.
  destruct away_ray_sampler_arguments as (_ & _ & _ & ->). unfold b_crit, r_s. lra.
Qed.

Lemma main_escape_below_critical_witness :
  main away_uniforms centre_fragment =
    vec4_of (scale3 (computeLensedColor (main_b_global away_uniforms centre_fragment))
               (smoothstep 0.0 0.85
                  (exp (- pow ((main_b_global away_uniforms centre_fragment - b_crit)
                               / (0.03 * b_crit)) 2.0))))
            1.0.
Proof.
  exact (main_escape_below_critical away_uniforms centre_fragment
           (proj1 away_ray_sampler_arguments) away_b_below_critical).
Defined.

(** X13: when the camera is inside the horizon sphere or closer than
    0.001 to it, the first pass of the march already breaks with [hit]
    set, and every fragment is black. *)
Theorem main_camera_inside_black (u : Uniforms) (gl_FragCoord : vec4) :
  length (cameraPos u) < 1.001 ->
  fst (march_loop (cameraPos u) 0
         (mkMarchState 0.0 0.0 false (splat3 0.0) (main_rayDirWorld u gl_FragCoord)))
  = mkMarchState 0.0 (sceneSDF (cameraPos u)) true (cameraPos u)
      (main_rayDirWorld u gl_FragCoord)
  /\ main u gl_FragCoord = mkvec4 0 0 0 1.
Proof.
  intros Hin.
  set (s0 := mkMarchState 0.0 0.0 false (splat3 0.0) (main_rayDirWorld u gl_FragCoord)).
  assert (Hp : add3 (cameraPos u) (scale3 (ms_D s0) (ms_t s0)) = cameraPos u)
    by (apply vec3_eq; unfold add3, scale3; simpl; lra).
  assert (Hd : sceneSDF (cameraPos u) < 0.001) by (rewrite sceneSDF_length; lra).
  pose proof (proj1 (march_body_cases (cameraPos u) 0 s0)) as Hbody.
  cbv zeta in Hbody. rewrite Hp in Hbody. specialize (Hbody Hd).
  assert (Hloop : march_loop (cameraPos u) 0 s0
                  = (mkMarchState 0.0 (sceneSDF (cameraPos u)) true (cameraPos u)
                       (main_rayDirWorld u gl_FragCoord), 1%nat)).
  { apply march_loop_break; [unfold MAX_STEPS; lia | exact Hbody]. }
  split.
  - now rewrite Hloop.
  - rewrite main_shading. unfold main_march. fold s0. rewrite Hloop. simpl.
    replace 0.0 with 0 by lra. replace 1.0 with 1 by lra. reflexivity.
Qed.

Lemma inside_camera : length (cameraPos inside_uniforms) < 1.001.
Proof.
  change (cameraPos inside_uniforms) with (splat3 0). rewrite length_zero_vec. lra.
Qed.

Lemma main_camera_inside_black_witness :
  main inside_uniforms centre_fragment = mkvec4 0 0 0 1.
Proof.
  exact (proj2 (main_camera_inside_black inside_uniforms centre_fragment inside_camera)).
Defined.

(** * Properties of the bend-once variants *)

(** ** Closest approach and the bend before the march *)

Lemma length_pos_dot (v : vec3) : 0 < length v -> 0 < dot v v.
Proof.
  intros H. rewrite <- length_sqr. now apply Rmult_lt_0_compat.
Qed.

Lemma closest_point_dot (O D : vec3) :
  0 < length D -> dot (BendOnce.closest_point O D) D = 0.
Proof.
  intros H. apply length_pos_dot in H.
  unfold BendOnce.closest_point. cbv zeta.
  set (dd := dot D D) in *.
  replace (dot (add3 O (scale3 D (- dot O D / dd))) D)
    with (dot O D + (- dot O D / dd) * dot D D)
    by (unfold dot, add3, scale3; simpl; ring).
  fold dd. field. lra.
Qed.

Lemma closest_point_sqr (O D : vec3) :
  dot D D = 1 ->
  dot (BendOnce.closest_point O D) (BendOnce.closest_point O D)
  = dot (cross O D) (cross O D).
Proof.
  intros H. rewrite lagrange_identity. unfold BendOnce.closest_point. cbv zeta.
  rewrite H. replace (- dot O D / 1) with (- dot O D) by field.
  replace (dot (add3 O (scale3 D (- dot O D))) (add3 O (scale3 D (- dot O D))))
    with (dot O O - 2 * dot O D * dot O D + dot O D * dot O D * dot D D)
    by (unfold dot, add3, scale3; simpl; ring).
  rewrite H. ring.
Qed.

(** X14: the point [R] that both bend-once variants compute is the foot
    of the perpendicular from the hole's centre to the unbent line: it is
    perpendicular to the direction (for any non-zero direction), and for a
    unit direction its distance to the centre is the impact parameter
    [calcb]. *)
Theorem closest_point_is_perpendicular_foot (O D : vec3) :
  (0 < length D -> dot (BendOnce.closest_point O D) D = 0)
  /\ (length D = 1 ->
      length (BendOnce.closest_point O D) = ZoneVariant.calcb O D
      /\ ZoneVariant.calcb O D = BendOnceVariant.calcb O D).
Proof.
  split; [apply closest_point_dot |].
  intros HD. split; [| reflexivity].
  unfold ZoneVariant.calcb. rewrite (normalize_unit D HD).
  unfold length. f_equal. apply closest_point_sqr. now apply unit_dot_self.
Qed.

Lemma closest_point_is_perpendicular_foot_witness :
  dot (BendOnce.closest_point (mkvec3 0 3 5) (mkvec3 0 0 1)) (mkvec3 0 0 1) = 0
  /\ length (BendOnce.closest_point (mkvec3 0 3 5) (mkvec3 0 0 1))
     = ZoneVariant.calcb (mkvec3 0 3 5) (mkvec3 0 0 1).
Proof.
  split.
  - apply (proj1 (closest_point_is_perpendicular_foot (mkvec3 0 3 5) (mkvec3 0 0 1))).
    rewrite length_ez. lra.
  - apply (proj2 (closest_point_is_perpendicular_foot (mkvec3 0 3 5) (mkvec3 0 0 1))).
    apply length_ez.
Defined.

Lemma calcDnew_is_rotateRodrigues (D axis : vec3) (ang : R) :
  BendOnce.calcDnew D axis ang = rotateRodrigues D axis ang.
Proof. reflexivity. Qed.

Lemma cross_cross_self (D R' : vec3) :
  cross (cross D R') D = sub3 (scale3 R' (dot D D)) (scale3 D (dot D R')).
Proof. apply vec3_eq; unfold cross, sub3, scale3, dot; simpl; ring. Qed.

(** A Rodrigues rotation of a unit vector [D] about the normalized cross
    product with a perpendicular vector [R']. *)
Lemma rotate_towards_perpendicular (D R' : vec3) (ang : R) :
  length D = 1 -> dot R' D = 0 -> 0 < length R' ->
  rotateRodrigues D (normalize (cross D R')) ang
  = add3 (scale3 D (cos ang)) (scale3 (div3 R' (length R')) (sin ang)).
Proof.
  intros HD Hperp HR. pose proof (unit_dot_self D HD) as HDD.
  assert (HL : length (cross D R') = length R').
  { unfold length. f_equal. rewrite lagrange_identity, HDD.
    replace (dot D R') with (dot R' D) by (unfold dot; ring). rewrite Hperp. ring. }
  unfold normalize. rewrite HL.
  set (L := length R') in *.
  pose proof (cross_cross_self D R') as Hcc. rewrite HDD in Hcc.
  replace (dot D R') with 0 in Hcc by (rewrite <- Hperp; unfold dot; ring).
  assert (Hx := f_equal vx Hcc). assert (Hy := f_equal vy Hcc).
  assert (Hz := f_equal vz Hcc).
  destruct D as [x y z], R' as [u v w].
  unfold cross, sub3, scale3, dot in Hx, Hy, Hz, Hperp; simpl in Hx, Hy, Hz, Hperp.
  unfold rotateRodrigues.
  apply vec3_eq; unfold add3, scale3, div3, cross, dot; simpl;
    replace 1.0 with 1 by lra.
  - replace ((z * u - x * w) / L * z - (x * v - y * u) / L * y)
      with (((z * u - x * w) * z - (x * v - y * u) * y) / L) by (field; lra).
    rewrite Hx.
    replace ((y * w - z * v) / L * x + (z * u - x * w) / L * y + (x * v - y * u) / L * z)
      with 0 by (field; lra).
    field; lra.
  - replace ((x * v - y * u) / L * x - (y * w - z * v) / L * z)
      with (((x * v - y * u) * x - (y * w - z * v) * z) / L) by (field; lra).
    rewrite Hy.
    replace ((y * w - z * v) / L * x + (z * u - x * w) / L * y + (x * v - y * u) / L * z)
      with 0 by (field; lra).
    field; lra.
  - replace ((y * w - z * v) / L * y - (z * u - x * w) / L * x)
      with (((y * w - z * v) * y - (z * u - x * w) * x) / L) by (field; lra).
    rewrite Hz.
    replace ((y * w - z * v) / L * x + (z * u - x * w) / L * y + (x * v - y * u) / L * z)
      with 0 by (field; lra).
    field; lra.
Qed.

(** X15: for a unit direction whose line misses the centre, the bend
    before the march turns the direction by the angle [ang] in the plane
    through the centre, towards the closest-approach point [R]: the new
    direction is [D cos(ang) + (R / |R|) sin(ang)], a unit vector. *)
Theorem pre_bend_turns_towards_closest_point (O D : vec3) (ang : R) :
  length D = 1 ->
  0 < length (BendOnce.closest_point O D) ->
  BendOnce.pre_bend O D ang
  = add3 (scale3 D (cos ang))
         (scale3 (div3 (BendOnce.closest_point O D)
                       (length (BendOnce.closest_point O D))) (sin ang))
  /\ length (BendOnce.pre_bend O D ang) = 1.
Proof.
  intros HD HR.
  assert (HD0 : 0 < length D) by lra.
  pose proof (closest_point_dot O D HD0) as Hperp.
  assert (Hax : length (normalize (cross D (BendOnce.closest_point O D))) = 1).
  { apply length_normalize. unfold length. rewrite lagrange_identity.
    rewrite (unit_dot_self D HD).
    replace (dot D (BendOnce.closest_point O D)) with 0
      by (rewrite <- Hperp; unfold dot; ring).
    replace (1 * dot (BendOnce.closest_point O D) (BendOnce.closest_point O D) - 0 * 0)
      with (dot (BendOnce.closest_point O D) (BendOnce.closest_point O D)) by ring.
    exact HR. }
  assert (Hlen : length (BendOnce.calcDnew D (normalize (cross D (BendOnce.closest_point O D))) ang) = 1).
  { rewrite calcDnew_is_rotateRodrigues. unfold length at 1.
    rewrite (rotateRodrigues_dot _ Hax), (unit_dot_self D HD). apply sqrt_1. }
  unfold BendOnce.pre_bend. cbv zeta.
  rewrite (normalize_unit _ Hlen). split; [| exact Hlen].
  rewrite calcDnew_is_rotateRodrigues.
  now apply rotate_towards_perpendicular.
Qed.

Lemma closest_point_sample :
  BendOnce.closest_point (mkvec3 0 3 5) (mkvec3 0 0 1) = mkvec3 0 3 0.
Proof.
  unfold BendOnce.closest_point. cbv zeta.
  apply vec3_eq; unfold add3, scale3, dot; simpl; field.
Qed.

Lemma closest_point_sample_pos :
  0 < length (BendOnce.closest_point (mkvec3 0 3 5) (mkvec3 0 0 1)).
Proof.
  rewrite closest_point_sample.
  rewrite (length_of_dot _ 3); [lra | lra | unfold dot; simpl; ring].
Qed.

Lemma pre_bend_turns_towards_closest_point_witness :
  length (BendOnce.pre_bend (mkvec3 0 3 5) (mkvec3 0 0 1) 1) = 1.
Proof.
  exact (proj2 (pre_bend_turns_towards_closest_point (mkvec3 0 3 5) (mkvec3 0 0 1) 1
                  length_ez closest_point_sample_pos)).
Defined.

(** ** The straight march *)

Lemma straight_loop_done (steps : Z) (ro : vec3) (i : Z) (s : MarchState) :
  ~ (i < steps)%Z -> BendOnce.straight_loop steps ro i s = s.
Proof.
  intros H. rewrite BendOnce.straight_loop_equation_1.
  unfold BendOnce.straight_loop_unfold_clause_1.
  destruct (Z_lt_dec i steps); [contradiction | reflexivity].
Qed.

(** Every point of a line with unit direction is at least as far from the
    centre as the line's impact parameter. *)
Lemma line_point_far (ro D : vec3) (t : R) :
  length D = 1 -> length (cross ro D) <= length (add3 ro (scale3 D t)).
Proof.
  intros HD. apply unit_dot_self in HD.
  unfold length. apply sqrt_le_1_alt.
  replace (cross ro D) with (cross (add3 ro (scale3 D t)) D)
    by (apply vec3_eq; unfold cross, add3, scale3; simpl; ring).
  rewrite lagrange_identity, HD.
  pose proof (Rle_0_sqr (dot (add3 ro (scale3 D t)) D)) as H. unfold Rsqr in H. lra.
Qed.

Lemma straight_body_inv (ro D : vec3) (s : MarchState) :
  length D = 1 -> ms_hit s = false -> straight_inv ro D s ->
  match BendOnce.straight_body ro s with
  | Break s' =>
      ms_D s' = D
      /\ ((ms_hit s' = true /\ 0 <= sceneSDF (ms_p s') < 0.001)
          \/ ms_hit s' = false)
  | Next s' => ms_hit s' = false /\ straight_inv ro D s'
  end.
Proof.
  intros HD Hh (HsD & Hinv).
  destruct Hinv as [[_ Hout] | [Hc _]]; [| congruence].
  unfold BendOnce.straight_body. rewrite HsD.
  set (p := add3 ro (scale3 D (ms_t s))) in *.
  destruct (Rlt_dec (sceneSDF p) 0.001) as [Hd | Hd].
  - cbn [ms_hit ms_p ms_D]. split; [reflexivity | left; split; [reflexivity | lra]].
  - destruct (Rgt_dec (ms_t s) 100.0).
    + cbn [ms_hit ms_p ms_D]. split; [reflexivity | right; exact Hh].
    + cbn [ms_hit ms_p ms_D]. split; [exact Hh |]. split; [reflexivity |].
      left. cbn [ms_hit ms_t]. split; [exact Hh |].
      pose proof (sceneSDF_decrease p (add3 ro (scale3 D (ms_t s + sceneSDF p)))) as Hl.
      replace (sub3 p (add3 ro (scale3 D (ms_t s + sceneSDF p))))
        with (scale3 D (- sceneSDF p)) in Hl
        by (apply vec3_eq; unfold p, sub3, add3, scale3; simpl; ring).
      rewrite length_scale3, HD, Rabs_Ropp, Rabs_pos_eq in Hl by lra. lra.
Qed.

Lemma straight_loop_inv (steps : Z) (ro : vec3) (i : Z) (s : MarchState) (D : vec3) :
  length D = 1 -> ms_hit s = false -> straight_inv ro D s ->
  ms_D (BendOnce.straight_loop steps ro i s) = D
  /\ (ms_hit (BendOnce.straight_loop steps ro i s) = true ->
      0 <= sceneSDF (ms_p (BendOnce.straight_loop steps ro i s)) < 0.001).
Proof.
  funelim (BendOnce.straight_loop steps ro i s); intros HD Hh Hinv.
  - destruct Hinv as (HsD & _). split; [exact HsD | congruence].
  - pose proof (straight_body_inv ro D s HD Hh Hinv) as Hb. rewrite Heq in Hb.
    destruct Hb as (HsD & [[Hc Hd] | Hf]); split; auto. congruence.
  - pose proof (straight_body_inv ro D s HD Hh Hinv) as Hb. rewrite Heq in Hb.
    destruct Hb as (Hf & Hi). now apply H.
Qed.

Lemma straight_body_miss (ro D : vec3) (s : MarchState) :
  length D = 1 -> 1.001 <= length (cross ro D) -> ms_D s = D -> ms_hit s = false ->
  match BendOnce.straight_body ro s with
  | Break s' => ms_D s' = D /\ ms_hit s' = false
  | Next s' => ms_D s' = D /\ ms_hit s' = false
  end.
Proof.
  intros HD Hfar HsD Hh. unfold BendOnce.straight_body. rewrite HsD.
  pose proof (line_point_far ro D (ms_t s) HD) as Hp.
  destruct (Rlt_dec _ 0.001) as [Hd | _].
  - exfalso. rewrite sceneSDF_length in Hd. lra.
  - destruct (Rgt_dec (ms_t s) 100.0); cbn [ms_hit ms_D]; auto.
Qed.

Lemma straight_loop_miss (steps : Z) (ro : vec3) (i : Z) (s : MarchState) (D : vec3) :
  length D = 1 -> 1.001 <= length (cross ro D) -> ms_D s = D -> ms_hit s = false ->
  ms_hit (BendOnce.straight_loop steps ro i s) = false.
Proof.
  funelim (BendOnce.straight_loop steps ro i s); intros HD Hfar HsD Hh.
  - exact Hh.
  - pose proof (straight_body_miss ro D s HD Hfar HsD Hh) as Hb. rewrite Heq in Hb.
    tauto.
  - pose proof (straight_body_miss ro D s HD Hfar HsD Hh) as Hb. rewrite Heq in Hb.
    destruct Hb. now apply (H D).
Qed.

(** X16: the straight march of the bend-once variants, started at [t = 0]
    from a point outside the horizon with a unit direction, never steps
    into the horizon sphere: if it ends with [hit] set, the last point
    lies between the sphere and 0.001 outside it, and the line passes the
    centre at less than 1.001; the direction is never changed. *)
Theorem straight_march_sound (steps : Z) (ro D : vec3) :
  length D = 1 ->
  0 <= sceneSDF ro ->
  let f := BendOnce.straight_loop steps ro 0
             (mkMarchState 0.0 0.0 false (splat3 0.0) D) in
  ms_D f = D
  /\ (ms_hit f = true ->
      0 <= sceneSDF (ms_p f) < 0.001 /\ length (cross ro D) < 1.001).
Proof.
  intros HD Hout f.
  set (s0 := mkMarchState 0.0 0.0 false (splat3 0.0) D) in *.
  assert (Hinv : straight_inv ro D s0).
  { split; [reflexivity | left; split; [reflexivity |]].
    replace (add3 ro (scale3 D (ms_t s0))) with ro
      by (apply vec3_eq; unfold add3, scale3; simpl; lra).
    exact Hout. }
  destruct (straight_loop_inv steps ro 0 s0 D HD eq_refl Hinv) as (HfD & Hfh).
  split; [exact HfD |]. intros Hhit. split; [now apply Hfh |].
  destruct (Rlt_dec (length (cross ro D)) 1.001) as [Hlt | Hge]; [exact Hlt |].
  exfalso. apply Rnot_lt_le in Hge.
  pose proof (straight_loop_miss steps ro 0 s0 D HD Hge eq_refl eq_refl) as Hmiss.
  unfold f in Hhit. congruence.
Qed.

Lemma straight_march_sound_witness :
  ms_D (BendOnce.straight_loop 500 (mkvec3 0 0 5) 0
          (mkMarchState 0.0 0.0 false (splat3 0.0) (mkvec3 0 0 (-1))))
  = mkvec3 0 0 (-1).
Proof.
  refine (proj1 (straight_march_sound 500 (mkvec3 0 0 5) (mkvec3 0 0 (-1))
                   length_neg_ez _)).
  rewrite sceneSDF_on_axis; lra.
Defined.

Lemma straight_body_hit (ro : vec3) (s : MarchState) :
  match BendOnce.straight_body ro s with
  | Break s' => (ms_hit s' = true /\ sceneSDF (ms_p s') < 0.001) \/ ms_hit s' = ms_hit s
  | Next s' => ms_hit s' = ms_hit s
  end.
Proof.
  unfold BendOnce.straight_body.
  destruct (Rlt_dec _ 0.001); [left; cbn [ms_hit ms_p]; auto |].
  destruct (Rgt_dec _ 100.0); [right |]; reflexivity.
Qed.

Lemma straight_loop_hit (steps : Z) (ro : vec3) (i : Z) (s : MarchState) :
  ms_hit s = false ->
  ms_hit (BendOnce.straight_loop steps ro i s) = true ->
  sceneSDF (ms_p (BendOnce.straight_loop steps ro i s)) < 0.001.
Proof.
  funelim (BendOnce.straight_loop steps ro i s); intros Hs Hh.
  - congruence.
  - pose proof (straight_body_hit ro s) as Hb. rewrite Heq in Hb.
    destruct Hb as [[_ Hd] | He]; [exact Hd | congruence].
  - pose proof (straight_body_hit ro s) as Hb. rewrite Heq in Hb.
    apply H; [congruence | exact Hh].
Qed.

(** ** The zone variant *)

Lemma zone_intensity_small (p : vec3) :
  sceneSDF p < 0.001 -> 0 <= smoothstep r_s (r_s * 3.0) (length p) < 1e-6.
Proof.
  intros Hd. rewrite sceneSDF_length in Hd. pose proof (length_nonneg p) as Hp.
  unfold smoothstep, r_s. cbv zeta.
  replace ((length p - 1.0) / (1.0 * 3.0 - 1.0)) with ((length p - 1) / 2) by lra.
  set (x := (length p - 1) / 2).
  assert (Hx : x < 0.0005) by (unfold x; lra).
  assert (Ht : 0 <= clamp x 0 1 < 0.0005).
  { unfold clamp, Rmin, Rmax.
    destruct (Rle_dec x 0); destruct (Rle_dec _ 1); lra. }
  set (t := clamp x 0 1) in *. split; nra.
Qed.

(** X17: in the zone variant every fragment is opaque and either black or
    orange: a miss, or a hit with [b < b_crit], gives [(0,0,0,1)]; a hit
    with [b >= b_crit] gives [(1 - i, 0.3 (1 - i), 0, 1)] with
    [0 <= i < 1e-6], because the hit point is within 0.001 of the horizon,
    where the zone gradient has barely started. *)
Theorem zone_main_black_or_orange (inverse : mat4 -> mat4) (u : Uniforms) (fc : vec4) :
  let s := ZoneVariant.main_march inverse u fc in
  let b := ZoneVariant.main_b inverse u fc in
  v4w (ZoneVariant.main inverse u fc) = 1
  /\ (ms_hit s = false \/ b < b_crit ->
      ZoneVariant.main inverse u fc = mkvec4 0 0 0 1)
  /\ (ms_hit s = true -> ~ b < b_crit ->
      exists i : R, 0 <= i < 1e-6
        /\ ZoneVariant.main inverse u fc = mkvec4 (1 - i) (0.3 * (1 - i)) 0 1).
Proof.
  intros s b.
  assert (Hmain : ZoneVariant.main inverse u fc =
            if ms_hit s then
              if Rlt_dec b b_crit then mkvec4 0.0 0.0 0.0 1.0
              else vec4_of (mix3 (mkvec3 1.0 0.3 0.0) (mkvec3 0.0 0.0 0.0)
                              (smoothstep r_s (r_s * 3.0) (length (ms_p s)))) 1.0
            else mkvec4 0.0 0.0 0.0 1.0) by reflexivity.
  assert (Hblack : mkvec4 0.0 0.0 0.0 1.0 = mkvec4 0 0 0 1)
    by (replace 0.0 with 0 by lra; replace 1.0 with 1 by lra; reflexivity).
  rewrite Hmain. split; [| split].
  - destruct (ms_hit s); [destruct (Rlt_dec b b_crit) |]; simpl; lra.
  - intros [Hmiss | Hb].
    + rewrite Hmiss. exact Hblack.
    + destruct (ms_hit s); [| exact Hblack].
      destruct (Rlt_dec b b_crit); [exact Hblack | contradiction].
  - intros Hhit Hb. rewrite Hhit.
    destruct (Rlt_dec b b_crit); [contradiction |].
    exists (smoothstep r_s (r_s * 3.0) (length (ms_p s))). split.
    + apply zone_intensity_small. unfold s, ZoneVariant.main_march in *. cbv zeta in *.
      now apply straight_loop_hit.
    + unfold vec4_of, mix3, mix. cbn [vx vy vz].
      f_equal; lra.
Qed.

Lemma zone_angle_inner (b : R) :
  ZoneVariant.angle b = 0.5 * / (((b - 2.598) / 0.5196) * ((b - 2.598) / 0.5196) + 0.0001).
Proof.
  unfold ZoneVariant.angle. cbv zeta.
  replace ((b - b_crit) / (b_crit * 0.2)) with ((b - 2.598) / 0.5196).
  - unfold r_s, Rdiv. lra.
  - unfold b_crit, r_s. replace (2.598 * 1.0 * 0.2) with 0.5196 by lra.
    replace (2.598 * 1.0) with 2.598 by lra. reflexivity.
Qed.

(** X18: the deflection angle of the zone variant is not clamped: it is
    positive, at most 5000 radians, equal to 5000 at [b_crit], symmetric
    about [b_crit], and at least 13 radians (more than two full turns)
    within 0.1 of [b_crit]. *)
Theorem zone_angle_shape (b : R) :
  0 < ZoneVariant.angle b <= 5000
  /\ ZoneVariant.angle b_crit = 5000
  /\ ZoneVariant.angle (b_crit + b) = ZoneVariant.angle (b_crit - b)
  /\ (Rabs (b - b_crit) <= 0.1 -> 13 <= ZoneVariant.angle b).
Proof.
  split; [| split; [| split]].
  - rewrite zone_angle_inner.
    set (x := (b - 2.598) / 0.5196).
    assert (Hd : 0.0001 <= x * x + 0.0001) by nra.
    assert (Hi : 0 < / (x * x + 0.0001)) by (apply Rinv_0_lt_compat; lra).
    assert (Hu : / (x * x + 0.0001) <= / 0.0001) by (apply Rinv_le_contravar; lra).
    lra.
  - rewrite zone_angle_inner. unfold b_crit, r_s.
    replace ((2.598 * 1.0 - 2.598) / 0.5196) with 0 by lra.
    replace (0 * 0 + 0.0001) with 0.0001 by lra. lra.
  - rewrite !zone_angle_inner. unfold b_crit, r_s.
    replace ((2.598 * 1.0 + b - 2.598) / 0.5196) with (b / 0.5196) by lra.
    replace ((2.598 * 1.0 - b - 2.598) / 0.5196) with (- (b / 0.5196)) by lra.
    set (a := b / 0.5196).
    replace (- a * - a) with (a * a) by ring. reflexivity.
  - intros Hnear. rewrite zone_angle_inner.
    apply Rabs_le_bounds in Hnear. unfold b_crit, r_s in Hnear.
    set (x := (b - 2.598) / 0.5196).
    assert (Hx : -0.1925 <= x <= 0.1925) by (unfold x; split; lra).
    assert (Hd : 0.0001 <= x * x + 0.0001 <= 0.038) by nra.
    pose proof (inv_between _ 0.0001 0.038 ltac:(lra) Hd). lra.
Qed.

Lemma zone_angle_shape_witness : 13 <= ZoneVariant.angle 2.6.
Proof.
  apply (zone_angle_shape 2.6). unfold b_crit, r_s. apply Rabs_le. lra.
Defined.

(** X19: [determineRayTrad] takes the values 100, 50, 20 and 10 on the
    four bands of [b] cut at [b_crit], [1.5 b_crit] and [2 b_crit], and
    never increases with [b]. *)
Theorem determineRayTrad_bands (b1 b2 : R) :
  b1 <= b2 ->
  ZoneVariant.determineRayTrad b2 <= ZoneVariant.determineRayTrad b1
  /\ (b1 < b_crit -> ZoneVariant.determineRayTrad b1 = 100)
  /\ (b_crit <= b1 < 1.5 * b_crit -> ZoneVariant.determineRayTrad b1 = 50)
  /\ (1.5 * b_crit <= b1 < 2 * b_crit -> ZoneVariant.determineRayTrad b1 = 20)
  /\ (2 * b_crit <= b1 -> ZoneVariant.determineRayTrad b1 = 10).
Proof.
  intros Hle. unfold ZoneVariant.determineRayTrad.
  assert (Hc : 0 < b_crit) by (unfold b_crit, r_s; lra).
  repeat split; intros;
    repeat match goal with |- context [Rlt_dec ?a ?c] => destruct (Rlt_dec a c) end;
    lra.
Qed.

Lemma determineRayTrad_bands_witness :
  ZoneVariant.determineRayTrad 4 <= ZoneVariant.determineRayTrad 3
  /\ ZoneVariant.determineRayTrad 3 = 50.
Proof.
  pose proof (determineRayTrad_bands 3 4 ltac:(lra)) as (Hmono & _ & Hband & _).
  split; [exact Hmono | apply Hband; unfold b_crit, r_s; lra].
Defined.

Lemma far_cross : cross (mkvec3 6 0 0) (mkvec3 0 0 (-1)) = mkvec3 0 6 0.
Proof. apply vec3_eq; unfold cross; simpl; ring. Qed.

Lemma far_cross_len : length (cross (mkvec3 6 0 0) (mkvec3 0 0 (-1))) = 6.
Proof. rewrite far_cross. apply length_of_dot; [lra | unfold dot; simpl; ring]. Qed.

Lemma zone_far_b :
  ZoneVariant.main_b (fun m => m) far_uniforms centre_fragment = 6.
Proof.
  unfold ZoneVariant.main_b. cbv zeta.
  set (rd := normalize (xyz _)).
  assert (Hrd : rd = mkvec3 0 0 (-1)) by exact head_on_rayDirWorld.
  rewrite Hrd. unfold ZoneVariant.calcb.
  rewrite (normalize_unit _ length_neg_ez). exact far_cross_len.
Qed.

Lemma zone_far_miss :
  ms_hit (ZoneVariant.main_march (fun m => m) far_uniforms centre_fragment) = false.
Proof.
  unfold ZoneVariant.main_march. cbv zeta.
  set (rd := normalize (xyz _)).
  assert (Hrd : rd = mkvec3 0 0 (-1)) by exact head_on_rayDirWorld.
  rewrite Hrd. unfold ZoneVariant.calcb.
  rewrite (normalize_unit _ length_neg_ez).
  change (cameraPos far_uniforms) with (mkvec3 6 0 0). rewrite far_cross_len.
  destruct (Rlt_dec 6 (b_crit * 2.0)) as [H | _];
    [unfold b_crit, r_s in H; exfalso; lra |].
  apply (straight_loop_miss 1000 _ 0 _ (mkvec3 0 0 (-1)) length_neg_ez);
    [rewrite far_cross_len; lra | reflexivity | reflexivity].
Qed.

Lemma zone_main_black_or_orange_witness :
  ZoneVariant.main (fun m => m) far_uniforms centre_fragment = mkvec4 0 0 0 1.
Proof.
  exact (proj1 (proj2 (zone_main_black_or_orange (fun m => m) far_uniforms centre_fragment))
           (or_introl zone_far_miss)).
Defined.

(** ** The sky-sampling variant *)

Lemma bend_once_lens_loop_step (Dn axis : vec3) (b : R) (n : Z) (a : LensAcc) :
  (n <= MAX_ORDERS)%Z ->
  BendOnceVariant.lens_loop Dn axis b n a
  = BendOnceVariant.lens_loop Dn axis b (n + 1) (BendOnceVariant.lens_body Dn axis b n a).
Proof.
  intros H. rewrite BendOnceVariant.lens_loop_equation_1 at 1.
  unfold BendOnceVariant.lens_loop_unfold_clause_1.
  destruct (Z_le_dec n MAX_ORDERS); [reflexivity | contradiction].
Qed.

Lemma bend_once_lens_loop_done (Dn axis : vec3) (b : R) (n : Z) (a : LensAcc) :
  ~ (n <= MAX_ORDERS)%Z -> BendOnceVariant.lens_loop Dn axis b n a = a.
Proof.
  intros H. rewrite BendOnceVariant.lens_loop_equation_1.
  unfold BendOnceVariant.lens_loop_unfold_clause_1.
  destruct (Z_le_dec n MAX_ORDERS); [contradiction | reflexivity].
Qed.

Lemma bend_once_lens_loop_orders (Dn axis : vec3) (b : R) :
  BendOnceVariant.lens_loop Dn axis b 0 (mkLensAcc (splat3 0.0) 0.0) =
    mkLensAcc
      (sum3_upto 6 (fun n => scale3 (skyColor (rotateAroundAxis Dn axis
                                                 (BendOnceVariant.alphaN b n)))
                                    (weightN b n)))
      (sum_upto 6 (weightN b)).
Proof.
  do 6 (rewrite bend_once_lens_loop_step by (unfold MAX_ORDERS; lia); simpl (_ + 1)%Z).
  rewrite bend_once_lens_loop_done by (unfold MAX_ORDERS; lia).
  unfold BendOnceVariant.lens_body.
  cbn [accum totalWeight sum3_upto sum_upto Z.of_nat Pos.of_succ_nat Pos.succ].
  rewrite splat3_zero. replace 0.0 with 0 by lra. reflexivity.
Qed.

(** In exact arithmetic the variant's [sampleLensedSky] is the average
    with the stable deflection model. *)
Lemma bend_once_exact_average (ro D : vec3) (b : R) :
  b_crit < b ->
  1e-6 <= length (cross (normalize D) ro) ->
  let Dn := normalize D in
  let axis := div3 (cross Dn ro) (length (cross Dn ro)) in
  BendOnceVariant.sampleLensedSky ro D b =
    weighted_average 6
      (fun n => skyColor (rotateAroundAxis Dn axis
                            (deflectionAngleStable b r_s b_crit + IZR n * TWO_PI)))
      (fun n => exp (- 4 * IZR n) * exp (- Rabs (b - b_crit) / (0.1 * b_crit))).
Proof.
  intros Hb Hax Dn axis. fold Dn in Hax.
  unfold BendOnceVariant.sampleLensedSky. cbv zeta. fold Dn. fold axis.
  destruct (Rle_dec b b_crit) as [Hle | _]; [exfalso; lra |].
  destruct (Rlt_dec (length (cross Dn ro)) 1e-6) as [Hlt | _]; [exfalso; lra |].
  rewrite bend_once_lens_loop_orders. cbn [accum totalWeight].
  pose proof (total_weight_pos b) as Hpos.
  destruct (Rgt_dec (sum_upto 6 (weightN b)) 0.0) as [_ | Hn]; [| exfalso; apply Hn; lra].
  unfold weighted_average. f_equal.
  - apply sum3_upto_ext. intros n. now rewrite weightN_formula.
  - apply sum_upto_ext, weightN_formula.
Qed.

(** X20: in the sky-sampling variant the order loop does use the stable
    deflection model: for an axis of length at least [1e-6] and [b] above
    [b_crit], up to [b = 24], its [sampleLensedSky] is the
    weight-normalized average over the orders [n = 0..5] of [skyColor] of
    the direction rotated by [deflectionAngleStable(b) + n * TWO_PI], with
    weights [exp(-4n) exp(-|b - b_crit| / (0.1 b_crit))], in single
    precision as in exact arithmetic.  From [b = 30] on the weights
    underflow in single precision and the function returns [skyColor] of
    the normalized direction. *)
Theorem bend_once_sampleLensedSky_orders (ro D : vec3) (b : R) :
  b_crit < b ->
  1e-6 <= length (cross (normalize D) ro) ->
  let Dn := normalize D in
  let axis := div3 (cross Dn ro) (length (cross Dn ro)) in
  (b <= 24 ->
   SinglePrecision.sampleLensedSky_bend_once ro D b =
     weighted_average 6
       (fun n => skyColor (rotateAroundAxis Dn axis
                             (deflectionAngleStable b r_s b_crit + IZR n * TWO_PI)))
       (fun n => exp (- 4 * IZR n) * exp (- Rabs (b - b_crit) / (0.1 * b_crit)))
   /\ BendOnceVariant.sampleLensedSky ro D b
      = SinglePrecision.sampleLensedSky_bend_once ro D b)
  /\ (30 <= b -> SinglePrecision.sampleLensedSky_bend_once ro D b = skyColor Dn).
Proof.
  intros Hcrit Hax Dn axis. split.
  - intros Hb.
    assert (Havg : SinglePrecision.sampleLensedSky_bend_once ro D b =
              weighted_average 6
                (fun n => skyColor (rotateAroundAxis Dn axis
                                      (deflectionAngleStable b r_s b_crit + IZR n * TWO_PI)))
                (fun n => exp (- 4 * IZR n) * exp (- Rabs (b - b_crit) / (0.1 * b_crit))))
      by exact (single_precision_average BendOnceVariant.angle ro D b Hax Hcrit Hb).
    split; [exact Havg |].
    rewrite Havg. now apply bend_once_exact_average.
  - intros Hb.
    exact (single_precision_fallback BendOnceVariant.angle ro D b Hb).
Qed.

Lemma bend_once_sampleLensedSky_orders_witness :
  SinglePrecision.sampleLensedSky_bend_once (mkvec3 0 0 5) (mkvec3 1 0 0) 3 =
    weighted_average 6
      (fun n => skyColor (rotateAroundAxis (normalize (mkvec3 1 0 0))
                            (div3 (cross (normalize (mkvec3 1 0 0)) (mkvec3 0 0 5))
                                  (length (cross (normalize (mkvec3 1 0 0)) (mkvec3 0 0 5))))
                            (deflectionAngleStable 3 r_s b_crit + IZR n * TWO_PI)))
      (fun n => exp (- 4 * IZR n) * exp (- Rabs (3 - b_crit) / (0.1 * b_crit)))
  /\ SinglePrecision.sampleLensedSky_bend_once (mkvec3 0 0 5) (mkvec3 1 0 0) 40
     = skyColor (normalize (mkvec3 1 0 0)).
Proof.
  split.
  - refine (proj1 (proj1 (bend_once_sampleLensedSky_orders
                            (mkvec3 0 0 5) (mkvec3 1 0 0) 3
                            side_above_critical side_axis_defined) _)).
    lra.
  - refine (proj2 (bend_once_sampleLensedSky_orders
                     (mkvec3 0 0 5) (mkvec3 1 0 0) 40 _ side_axis_defined) _).
    + unfold b_crit, r_s. lra.
    + lra.
Defined.

(** The bent direction, for a unit direction whose line misses the
    centre. *)
Lemma pre_bend_rotated (O D : vec3) (ang : R) :
  length D = 1 ->
  0 < length (BendOnce.closest_point O D) ->
  BendOnce.pre_bend O D ang
  = add3 (scale3 D (cos ang))
         (scale3 (div3 (BendOnce.closest_point O D)
                       (length (BendOnce.closest_point O D))) (sin ang)).
Proof.
  intros HD HR.
  assert (HD0 : 0 < length D) by lra.
  pose proof (closest_point_dot O D HD0) as Hperp.
  set (R' := BendOnce.closest_point O D) in *.
  assert (Hax : length (normalize (cross D R')) = 1).
  { apply length_normalize. unfold length. rewrite lagrange_identity.
    rewrite (unit_dot_self D HD).
    replace (dot D R') with 0 by (rewrite <- Hperp; unfold dot; ring).
    replace (1 * dot R' R' - 0 * 0) with (dot R' R') by ring.
    exact HR. }
  assert (Hlen : length (rotateRodrigues D (normalize (cross D R')) ang) = 1).
  { unfold length at 1.
    rewrite (rotateRodrigues_dot _ Hax), (unit_dot_self D HD). apply sqrt_1. }
  unfold BendOnce.pre_bend. cbv zeta. fold R'.
  rewrite calcDnew_is_rotateRodrigues, (normalize_unit _ Hlen).
  now apply rotate_towards_perpendicular.
Qed.

(** A ray that starts at least 1.001 from the centre and does not point
    into the half-space of the hole only moves away from it. *)
Lemma receding_point_far (ro D : vec3) (t : R) :
  length D = 1 -> 0 <= dot ro D -> 0 <= t ->
  length ro <= length (add3 ro (scale3 D t)).
Proof.
  intros HD Hdot Ht. apply unit_dot_self in HD.
  unfold length. apply sqrt_le_1_alt.
  replace (dot (add3 ro (scale3 D t)) (add3 ro (scale3 D t)))
    with (dot ro ro + 2 * t * dot ro D + t * t * dot D D)
    by (unfold dot, add3, scale3; simpl; ring).
  rewrite HD. nra.
Qed.

Lemma straight_body_receding (ro D : vec3) (s : MarchState) :
  length D = 1 -> 0 <= dot ro D -> 1.001 <= length ro ->
  ms_D s = D -> 0 <= ms_t s -> ms_hit s = false ->
  match BendOnce.straight_body ro s with
  | Break s' => ms_hit s' = false
  | Next s' => ms_D s' = D /\ 0 <= ms_t s' /\ ms_hit s' = false
  end.
Proof.
  intros HD Hdot Hfar HsD Ht Hh. unfold BendOnce.straight_body. rewrite HsD.
  pose proof (receding_point_far ro D (ms_t s) HD Hdot Ht) as Hp.
  rewrite sceneSDF_length.
  destruct (Rlt_dec _ 0.001) as [Hd | Hd]; [exfalso; lra |].
  destruct (Rgt_dec (ms_t s) 100.0); cbn [ms_hit ms_D ms_t]; [exact Hh |].
  split; [reflexivity |]. split; [lra | exact Hh].
Qed.

Lemma straight_loop_receding (steps : Z) (ro : vec3) (i : Z) (s : MarchState) (D : vec3) :
  length D = 1 -> 0 <= dot ro D -> 1.001 <= length ro ->
  ms_D s = D -> 0 <= ms_t s -> ms_hit s = false ->
  ms_hit (BendOnce.straight_loop steps ro i s) = false.
Proof.
  funelim (BendOnce.straight_loop steps ro i s); intros HD Hdot Hfar HsD Ht Hh.
  - exact Hh.
  - pose proof (straight_body_receding ro D s HD Hdot Hfar HsD Ht Hh) as Hb.
    rewrite Heq in Hb. exact Hb.
  - pose proof (straight_body_receding ro D s HD Hdot Hfar HsD Ht Hh) as Hb.
    rewrite Heq in Hb. destruct Hb as (HsD' & Ht' & Hh'). now apply (H D).
Qed.

(** The geometry of the bend: a unit direction whose line passes the
    centre at 1.001 or more, turned by an angle with a positive sine
    towards its closest-approach point, either still passes the centre at
    1.001 or more, or points away from the hole. *)
Lemma bent_ray_clears_horizon (O D : vec3) (ang : R) :
  length D = 1 -> 1.001 <= length (cross O D) -> 0 < sin ang ->
  length (BendOnce.pre_bend O D ang) = 1
  /\ (1.001 <= length (cross O (BendOnce.pre_bend O D ang))
      \/ (0 <= dot O (BendOnce.pre_bend O D ang) /\ 1.001 <= length O)).
Proof.
  intros HD Hb Hsin.
  pose proof (unit_dot_self D HD) as HDD.
  assert (HD0 : 0 < length D) by lra.
  pose proof (closest_point_dot O D HD0) as Hperp.
  pose proof (closest_point_sqr O D HDD) as HRR.
  assert (HRlen : length (BendOnce.closest_point O D) = length (cross O D))
    by (unfold length; now f_equal).
  assert (HRpos : 0 < length (BendOnce.closest_point O D)) by lra.
  rewrite (pre_bend_rotated O D ang HD HRpos).
  set (R' := BendOnce.closest_point O D) in *.
  set (L := length R') in *.
  set (c := cos ang). set (sn := sin ang) in *.
  pose proof (sin2_cos2 ang) as Hsc. unfold Rsqr in Hsc. fold c sn in Hsc.
  set (D' := add3 (scale3 D c) (scale3 (div3 R' L) sn)).
  pose proof (length_sqr R') as HLL. fold L in HLL.
  assert (HOR : dot O R' = dot R' R').
  { assert (HR' : R' = add3 O (scale3 D (- dot O D / dot D D))) by reflexivity.
    replace (dot R' R') with (dot O R' + (- dot O D / dot D D) * dot R' D)
      by (rewrite HR' at 3; unfold dot, add3, scale3; simpl; ring).
    rewrite Hperp. ring. }
  assert (HOO : dot O O = dot R' R' + dot O D * dot O D)
    by (rewrite HRR, lagrange_identity, HDD; ring).
  assert (HDR : dot D R' = 0) by (rewrite <- Hperp; unfold dot; ring).
  assert (HD'D' : dot D' D' = 1).
  { replace (dot D' D')
      with (c * c * dot D D + 2 * c * sn * (dot D R' / L)
            + sn * sn * (dot R' R' / (L * L)))
      by (unfold D', dot, add3, scale3, div3; simpl; field; lra).
    rewrite HDD, HDR, <- HLL.
    replace (L * L / (L * L)) with 1 by (field; lra).
    unfold Rdiv. lra. }
  assert (He : dot O D' = dot O D * c + L * sn).
  { replace (dot O D') with (c * dot O D + sn * (dot O R' / L))
      by (unfold D', dot, add3, scale3, div3; simpl; field; lra).
    rewrite HOR, <- HLL. field. lra. }
  assert (HL1 : length D' = 1) by (unfold length; rewrite HD'D'; apply sqrt_1).
  split; [exact HL1 |].
  assert (HbL : 1.001 <= L) by lra.
  destruct (Rle_dec 0 (dot O D')) as [Hpos | Hneg].
  - right. split; [exact Hpos |].
    apply Rle_trans with (1 := HbL). unfold L, length. apply sqrt_le_1_alt.
    pose proof (Rle_0_sqr (dot O D)) as Hs. unfold Rsqr in Hs. lra.
  - left. apply Rnot_le_lt in Hneg.
    apply Rle_trans with (1 := HbL). unfold L, length. apply sqrt_le_1_alt.
    rewrite (lagrange_identity O D'), HD'D', HOO, He. rewrite He in Hneg.
    set (s := dot O D) in *.
    assert (H1 : 0 <= L * sn) by (apply Rmult_le_pos; lra).
    assert (H2 : 0 <= - s * c - (s * c + L * sn)) by lra.
    pose proof (Rmult_le_pos _ _ H1 H2) as H3.
    pose proof (Rle_0_sqr (s * sn)) as H4. unfold Rsqr in H4.
    replace ((dot R' R' + s * s) * 1 - (s * c + L * sn) * (s * c + L * sn))
      with (dot R' R' + (s * sn * (s * sn)
                         + L * sn * (- s * c - (s * c + L * sn))
                         + s * s * (1 - (sn * sn + c * c))
                         + L * sn * L * sn - L * sn * L * sn))
      by ring.
    rewrite Hsc. lra.
Qed.

Lemma length_zero_is_zero (v : vec3) : length v = 0 -> v = splat3 0.
Proof.
  intros H. pose proof (length_sqr v) as Hs. rewrite H in Hs.
  destruct v as [x y z]. unfold dot in Hs; simpl in Hs.
  apply vec3_eq; unfold splat3; simpl; nra.
Qed.

(** [normalize] returns a unit vector or, in this model, the zero vector
    at the zero vector. *)
Lemma normalize_unit_or_zero (v : vec3) :
  length (normalize v) = 1 \/ normalize v = splat3 0.
Proof.
  destruct (Req_dec (length v) 0) as [H0 | Hne].
  - right. rewrite (length_zero_is_zero v H0).
    apply vec3_eq; unfold normalize, div3, splat3; simpl; unfold Rdiv; ring.
  - left. apply length_normalize. pose proof (length_nonneg v). lra.
Qed.

(** The first pass of the straight march breaks with [hit] set when the
    camera is within 0.001 of the horizon sphere, or inside it. *)
Lemma straight_loop_first_hit (steps : Z) (ro p0 D : vec3) :
  (0 < steps)%Z -> sceneSDF ro < 0.001 ->
  ms_hit (BendOnce.straight_loop steps ro 0 (mkMarchState 0.0 0.0 false p0 D)) = true.
Proof.
  intros Hs Hd. rewrite BendOnce.straight_loop_equation_1.
  unfold BendOnce.straight_loop_unfold_clause_1.
  destruct (Z_lt_dec 0 steps); [| contradiction].
  unfold BendOnce.straight_loop_unfold_clause_1_clause_1, BendOnce.straight_body.
  cbn [ms_D ms_t ms_hit].
  replace (add3 ro (scale3 D 0.0)) with ro
    by (apply vec3_eq; unfold add3, scale3; simpl; lra).
  destruct (Rlt_dec (sceneSDF ro) 0.001); [reflexivity | contradiction].
Qed.

(** In the sky-sampling variant a ray that the march captures has an
    impact parameter below 1.001. *)
Lemma bend_once_hit_small_b (inverse : mat4 -> mat4) (u : Uniforms) (fc : vec4) :
  ms_hit (BendOnceVariant.main_march inverse u fc) = true ->
  BendOnceVariant.main_b inverse u fc < 1.001.
Proof.
  unfold BendOnceVariant.main_march, BendOnceVariant.main_b. cbv zeta.
  set (v := xyz (mulMV _ _)). set (N := normalize v). set (ro := cameraPos u).
  intros Hhit.
  destruct (Rlt_dec (BendOnceVariant.calcb ro N) 1.001) as [Hlt | Hge]; [exact Hlt |].
  exfalso. apply Rnot_lt_le in Hge.
  assert (HN : length N = 1).
  { destruct (normalize_unit_or_zero v) as [H1 | H0].
    - exact H1.
    - exfalso. fold N in H0. unfold BendOnceVariant.calcb in Hge. rewrite H0 in Hge.
      replace (normalize (splat3 0)) with (splat3 0) in Hge
        by (apply vec3_eq; unfold normalize, div3, splat3; simpl; unfold Rdiv; ring).
      replace (cross ro (splat3 0)) with (splat3 0) in Hge
        by (apply vec3_eq; unfold cross, splat3; simpl; ring).
      rewrite length_zero_vec in Hge. lra. }
  unfold BendOnceVariant.calcb in *. rewrite (normalize_unit N HN) in *.
  destruct (Rle_dec (length (cross ro N)) (b_crit * 5.0)) as [Hnear | Hfar].
  - pose proof (deflectionAngleStable_range (length (cross ro N))) as [Hlo Hhi].
    change (deflectionAngleStable (length (cross ro N)) r_s b_crit)
      with (BendOnceVariant.angle (length (cross ro N))) in Hlo, Hhi.
    pose proof (sin_gt_0 _ Hlo Hhi) as Hsin.
    destruct (bent_ray_clears_horizon ro N _ HN Hge Hsin) as (HD' & [Hc | [Hdot HO]]).
    + match type of Hhit with
      | ms_hit (BendOnce.straight_loop _ _ _ ?s0) = _ =>
          rewrite (straight_loop_miss 500 ro 0 s0 _ HD' Hc eq_refl eq_refl) in Hhit
      end.
      discriminate.
    + match type of Hhit with
      | ms_hit (BendOnce.straight_loop _ _ _ ?s0) = _ =>
          rewrite (straight_loop_receding 500 ro 0 s0 _ HD' Hdot HO eq_refl) in Hhit;
            [discriminate | simpl; lra | reflexivity]
      end.
  - match type of Hhit with
    | ms_hit (BendOnce.straight_loop _ _ _ ?s0) = _ =>
        rewrite (straight_loop_miss 500 ro 0 s0 _ HN Hge eq_refl eq_refl) in Hhit
    end.
    discriminate.
Qed.

(** X21: in the sky-sampling variant every fragment is opaque, and every
    ray that the march captures is black: the bend before the march turns
    a ray with impact parameter 1.001 or more away from the horizon, so a
    captured ray has [b < 1.001], below [b_crit], and the branch that
    shades a hit with [computeLensedColor] is never taken.  A ray with
    [b <= b_crit] is black whether the march hits or not. *)
Theorem bend_once_main_shading (inverse : mat4 -> mat4) (u : Uniforms) (fc : vec4) :
  let s := BendOnceVariant.main_march inverse u fc in
  let b := BendOnceVariant.main_b inverse u fc in
  v4w (BendOnceVariant.main inverse u fc) = 1
  /\ (ms_hit s = true ->
      b < 1.001 /\ BendOnceVariant.main inverse u fc = mkvec4 0 0 0 1)
  /\ (b <= b_crit -> BendOnceVariant.main inverse u fc = mkvec4 0 0 0 1).
Proof.
  intros s b.
  assert (Hmain : exists D' : vec3, BendOnceVariant.main inverse u fc =
            if ms_hit s then
              if Rle_dec b b_crit then mkvec4 0.0 0.0 0.0 1.0
              else vec4_of (EarlierVariant.computeLensedColor b) 1.0
            else vec4_of (BendOnceVariant.sampleLensedSky (cameraPos u) D' b) 1.0)
    by (eexists; reflexivity).
  destruct Hmain as (D' & Hmain).
  assert (Hblack : mkvec4 0.0 0.0 0.0 1.0 = mkvec4 0 0 0 1)
    by (replace 0.0 with 0 by lra; replace 1.0 with 1 by lra; reflexivity).
  assert (Hcrit : 1.001 < b_crit) by (unfold b_crit, r_s; lra).
  rewrite Hmain. split; [| split].
  - destruct (ms_hit s); [destruct (Rle_dec b b_crit) |]; simpl; lra.
  - intros Hhit.
    pose proof (bend_once_hit_small_b inverse u fc Hhit) as Hb. fold b in Hb.
    split; [exact Hb |]. rewrite Hhit.
    destruct (Rle_dec b b_crit) as [_ | Hn]; [exact Hblack | exfalso; lra].
  - intros Hb. destruct (ms_hit s).
    + destruct (Rle_dec b b_crit); [exact Hblack | contradiction].
    + unfold BendOnceVariant.sampleLensedSky. cbv zeta.
      destruct (Rle_dec b b_crit); [| contradiction].
      unfold vec4_of, splat3; simpl. exact Hblack.
Qed.

Lemma bend_once_inside_hit :
  ms_hit (BendOnceVariant.main_march (fun m => m) inside_uniforms centre_fragment) = true.
Proof.
  unfold BendOnceVariant.main_march. cbv zeta.
  apply straight_loop_first_hit; [lia |].
  change (cameraPos inside_uniforms) with (mkvec3 0 0 0).
  rewrite sceneSDF_on_axis; lra.
Qed.

Lemma bend_once_main_shading_witness :
  ms_hit (BendOnceVariant.main_march (fun m => m) inside_uniforms centre_fragment) = true
  /\ BendOnceVariant.main_b (fun m => m) inside_uniforms centre_fragment < 1.001
  /\ BendOnceVariant.main (fun m => m) inside_uniforms centre_fragment = mkvec4 0 0 0 1.
Proof.
  split; [exact bend_once_inside_hit |].
  exact (proj1 (proj2 (bend_once_main_shading (fun m => m) inside_uniforms centre_fragment))
           bend_once_inside_hit).
Defined.

(** * Properties of the disc mesh *)

Lemma store_at (pre rest : list R) (r v : R) (idx : Z) :
  idx = Z.of_nat (List.length pre) ->
  Mesh.store (pre ++ r :: rest) idx v = Some (pre ++ v :: rest).
Proof.
  intros ->. unfold Mesh.store.
  rewrite length_app. cbn [List.length].
  replace (andb (0 <=? Z.of_nat (List.length pre))%Z
             (Z.of_nat (List.length pre)
              <? Z.of_nat (List.length pre + S (List.length rest)))%Z)
    with true
    by (symmetry; apply andb_true_intro; split;
        [apply Z.leb_le | apply Z.ltb_lt]; lia).
  rewrite Nat2Z.id. f_equal. f_equal.
  - rewrite firstn_app, firstn_all, Nat.sub_diag. cbn [firstn]. apply app_nil_r.
  - rewrite skipn_app, skipn_all2 by lia.
    replace (S (List.length pre) - List.length pre)%nat with 1%nat by lia.
    reflexivity.
Qed.

Lemma vertex_length (x y z radius : R) (i : Z) :
  List.length (Mesh.vertex x y z radius i) = 3%nat.
Proof. unfold Mesh.vertex. destruct (i =? 0)%Z; reflexivity. Qed.

Lemma fan_from_length (x y z radius : R) (i : Z) (k : nat) :
  List.length (Mesh.fan_from x y z radius i k) = (3 * k)%nat.
Proof.
  revert i. induction k as [| k IH]; intros i; [reflexivity |].
  cbn [Mesh.fan_from]. rewrite length_app, vertex_length, IH. lia.
Qed.

Lemma rim_body_stores (x y z radius : R) (i : Z) (pre rest : list R) (r0 r1 r2 : R) :
  (1 <= i)%Z -> Z.of_nat (List.length pre) = (i * 3)%Z ->
  Mesh.rim_body x y z radius i (pre ++ r0 :: r1 :: r2 :: rest)
  = Some (pre ++ Mesh.vertex x y z radius i ++ rest).
Proof.
  intros Hi Hlen. unfold Mesh.rim_body. cbv zeta.
  rewrite (store_at pre _ r0) by lia. cbn [Mesh.and_then].
  replace (pre ++ (x + radius * cos (Mesh.rim_angle i)) :: r1 :: r2 :: rest)
    with ((pre ++ [x + radius * cos (Mesh.rim_angle i)]) ++ r1 :: r2 :: rest)
    by (rewrite <- app_assoc; reflexivity).
  rewrite (store_at _ _ r1) by (rewrite length_app; cbn [List.length]; lia).
  cbn [Mesh.and_then].
  replace ((pre ++ [x + radius * cos (Mesh.rim_angle i)])
           ++ (y + radius * sin (Mesh.rim_angle i)) :: r2 :: rest)
    with ((pre ++ [x + radius * cos (Mesh.rim_angle i);
                   y + radius * sin (Mesh.rim_angle i)]) ++ r2 :: rest)
    by (rewrite <- !app_assoc; reflexivity).
  rewrite (store_at _ _ r2) by (rewrite length_app; cbn [List.length]; lia).
  rewrite <- app_assoc. unfold Mesh.vertex.
  replace (i =? 0)%Z with false by (symmetry; apply Z.eqb_neq; lia).
  reflexivity.
Qed.

Lemma rim_loop_fills (x y z radius : R) (k : nat) :
  forall (i : Z) (pre rest : list R),
    (1 <= i)%Z -> (i + Z.of_nat k = Mesh.verticesCount)%Z ->
    Z.of_nat (List.length pre) = (i * 3)%Z ->
    List.length rest = (3 * k)%nat ->
    Mesh.rim_loop x y z radius i (pre ++ rest)
    = Some (pre ++ Mesh.fan_from x y z radius i k).
Proof.
  induction k as [| k IH]; intros i pre rest Hi Hk Hpre Hrest.
  - destruct rest; [| discriminate].
    rewrite Mesh.rim_loop_equation_1. unfold Mesh.rim_loop_unfold_clause_1.
    destruct (Z_lt_dec i Mesh.verticesCount); [lia | reflexivity].
  - destruct rest as [| r0 [| r1 [| r2 rest]]]; try (cbn in Hrest; lia).
    rewrite Mesh.rim_loop_equation_1. unfold Mesh.rim_loop_unfold_clause_1.
    destruct (Z_lt_dec i Mesh.verticesCount); [| lia].
    unfold Mesh.rim_loop_unfold_clause_1_clause_1.
    rewrite rim_body_stores by assumption.
    rewrite app_assoc.
    rewrite IH.
    + cbn [Mesh.fan_from]. now rewrite <- app_assoc.
    + lia.
    + lia.
    + rewrite length_app, vertex_length. lia.
    + cbn [List.length] in Hrest. lia.
Qed.

(** The array after the constructor's stores, whatever it held before. *)
Lemma fill_vertices_fan (x y z radius : R) (fresh : list R) :
  List.length fresh = 300%nat ->
  Mesh.fill_vertices x y z radius fresh = Some (Mesh.fan_from x y z radius 0 100).
Proof.
  intros Hlen.
  destruct fresh as [| f0 [| f1 [| f2 rest]]]; try (cbn in Hlen; lia).
  cbn [List.length] in Hlen.
  unfold Mesh.fill_vertices.
  rewrite (store_at [] (f1 :: f2 :: rest) f0 x 0 eq_refl : Mesh.store (f0 :: f1 :: f2 :: rest) 0 x = _).
  cbn [Mesh.and_then app].
  rewrite (store_at [x] (f2 :: rest) f1 y 1 eq_refl : Mesh.store (x :: f1 :: f2 :: rest) 1 y = _).
  cbn [Mesh.and_then app].
  rewrite (store_at [x; y] rest f2 z 2 eq_refl : Mesh.store (x :: y :: f2 :: rest) 2 z = _).
  cbn [Mesh.and_then app].
  change (x :: y :: z :: rest) with ([x; y; z] ++ rest).
  rewrite (rim_loop_fills x y z radius 99 1 [x; y; z] rest);
    [reflexivity | lia | reflexivity | reflexivity | lia].
Qed.

(** X22: the constructor's stores all fall inside the array of
    [verticesCount * 3 = 300] floats and overwrite every element: for any
    initial contents the result is the same 300-element fan of 100
    vertices, the number that [draw] passes to [glDrawArrays]. *)
Theorem fill_vertices_total (x y z radius : R) (fresh : list R) :
  List.length fresh = Z.to_nat (Mesh.verticesCount * 3) ->
  exists vertices : list R,
    Mesh.fill_vertices x y z radius fresh = Some vertices
    /\ vertices = Mesh.fan_from x y z radius 0 (Z.to_nat Mesh.verticesCount)
    /\ List.length vertices = Z.to_nat (Mesh.verticesCount * 3)
    /\ forall fresh' : list R,
         List.length fresh' = Z.to_nat (Mesh.verticesCount * 3) ->
         Mesh.fill_vertices x y z radius fresh' = Some vertices.
Proof.
  intros Hlen. exists (Mesh.fan_from x y z radius 0 100).
  split; [now apply fill_vertices_fan |]. split; [reflexivity |].
  split; [now rewrite fan_from_length |].
  intros fresh' Hlen'. now apply fill_vertices_fan.
Qed.

Lemma fill_vertices_total_witness :
  exists vertices : list R,
    Mesh.fill_vertices 0 0 0 1 (repeat 0 300) = Some vertices
    /\ List.length vertices = Z.to_nat (Mesh.verticesCount * 3).
Proof.
  destruct (fill_vertices_total 0 0 0 1 (repeat 0 300) (repeat_length 0 300))
    as (vertices & Hfill & _ & Hlen & _).
  exists vertices. split; [exact Hfill | exact Hlen].
Defined.

Lemma fan_from_nth (x y z radius : R) (k : nat) :
  forall (i : Z) (j c : nat),
    (j < k)%nat -> (c < 3)%nat ->
    nth (3 * j + c) (Mesh.fan_from x y z radius i k) 0
    = nth c (Mesh.vertex x y z radius (i + Z.of_nat j)) 0.
Proof.
  induction k as [| k IH]; intros i j c Hj Hc; [lia |].
  cbn [Mesh.fan_from]. destruct j as [| j].
  - replace (3 * 0 + c)%nat with c by lia.
    rewrite app_nth1 by (rewrite vertex_length; exact Hc).
    now replace (i + Z.of_nat 0)%Z with i by lia.
  - rewrite app_nth2 by (rewrite vertex_length; lia).
    rewrite vertex_length.
    replace (3 * S j + c - 3)%nat with (3 * j + c)%nat by lia.
    rewrite IH by lia. f_equal. f_equal. lia.
Qed.

(** X23: in the array the constructor uploads, vertex 0 is the centre
    [(x, y, z)]; every rim vertex [n = 1..99] lies in the plane of the
    centre ([z] unchanged) on the circle of radius [|radius|] about it, at
    the angle [2 * 3.1415926 * (n - 1) / 98]; the first rim vertex is
    [(x + radius, y, z)]. *)
Theorem fill_vertices_geometry (x y z radius : R) (fresh vertices : list R) :
  List.length fresh = 300%nat ->
  Mesh.fill_vertices x y z radius fresh = Some vertices ->
  (nth 0 vertices 0 = x /\ nth 1 vertices 0 = y /\ nth 2 vertices 0 = z)
  /\ (nth 3 vertices 0 = x + radius /\ nth 4 vertices 0 = y /\ nth 5 vertices 0 = z)
  /\ forall n : nat, (1 <= n <= 99)%nat ->
       nth (3 * n) vertices 0 = x + radius * cos (2.0 * 3.1415926 * (INR n - 1) / 98)
       /\ nth (3 * n + 1) vertices 0 = y + radius * sin (2.0 * 3.1415926 * (INR n - 1) / 98)
       /\ nth (3 * n + 2) vertices 0 = z
       /\ (nth (3 * n) vertices 0 - x) * (nth (3 * n) vertices 0 - x)
          + (nth (3 * n + 1) vertices 0 - y) * (nth (3 * n + 1) vertices 0 - y)
          = radius * radius.
Proof.
  intros Hlen Hfill. rewrite (fill_vertices_fan x y z radius fresh Hlen) in Hfill.
  assert (Hv : vertices = Mesh.fan_from x y z radius 0 100) by congruence.
  rewrite Hv. clear Hv Hfill.
  assert (Hrim : forall n : nat, (1 <= n <= 99)%nat ->
            nth (3 * n) (Mesh.fan_from x y z radius 0 100) 0
            = x + radius * cos (2.0 * 3.1415926 * (INR n - 1) / 98)
            /\ nth (3 * n + 1) (Mesh.fan_from x y z radius 0 100) 0
               = y + radius * sin (2.0 * 3.1415926 * (INR n - 1) / 98)
            /\ nth (3 * n + 2) (Mesh.fan_from x y z radius 0 100) 0 = z).
  { intros n Hn.
    assert (Hang : Mesh.rim_angle (0 + Z.of_nat n) = 2.0 * 3.1415926 * (INR n - 1) / 98).
    { unfold Mesh.rim_angle, Mesh.verticesCount.
      replace (0 + Z.of_nat n - 1)%Z with (Z.of_nat n - 1)%Z by lia.
      rewrite minus_IZR, <- INR_IZR_INZ. reflexivity. }
    pose proof (fan_from_nth x y z radius 100 0 n 0 ltac:(lia) ltac:(lia)) as H0.
    pose proof (fan_from_nth x y z radius 100 0 n 1 ltac:(lia) ltac:(lia)) as H1.
    pose proof (fan_from_nth x y z radius 100 0 n 2 ltac:(lia) ltac:(lia)) as H2.
    replace (3 * n + 0)%nat with (3 * n)%nat in H0 by lia.
    unfold Mesh.vertex in H0, H1, H2.
    replace (0 + Z.of_nat n =? 0)%Z with false in H0, H1, H2
      by (symmetry; apply Z.eqb_neq; lia).
    cbn [nth] in H0, H1, H2. rewrite Hang in H0, H1.
    split; [exact H0 | split; [exact H1 | exact H2]]. }
  split; [| split].
  - pose proof (fan_from_nth x y z radius 100 0 0 0 ltac:(lia) ltac:(lia)) as H0.
    pose proof (fan_from_nth x y z radius 100 0 0 1 ltac:(lia) ltac:(lia)) as H1.
    pose proof (fan_from_nth x y z radius 100 0 0 2 ltac:(lia) ltac:(lia)) as H2.
    split; [exact H0 | split; [exact H1 | exact H2]].
  - destruct (Hrim 1%nat ltac:(lia)) as (H0 & H1 & H2).
    change (3 * 1)%nat with 3%nat in H0. change (3 * 1 + 1)%nat with 4%nat in H1.
    change (3 * 1 + 2)%nat with 5%nat in H2.
    replace (2.0 * 3.1415926 * (INR 1 - 1) / 98) with 0 in H0, H1 by (simpl; lra).
    rewrite cos_0 in H0. rewrite sin_0 in H1.
    split; [rewrite H0; ring | split; [rewrite H1; ring | exact H2]].
  - intros n Hn. destruct (Hrim n Hn) as (H0 & H1 & H2).
    split; [exact H0 | split; [exact H1 | split; [exact H2 |]]].
    rewrite H0, H1.
    pose proof (sin2_cos2 (2.0 * 3.1415926 * (INR n - 1) / 98)) as Hsc.
    unfold Rsqr in Hsc.
    set (c := cos _) in *. set (sn := sin _) in *. nra.
Qed.

Lemma fill_vertices_geometry_witness :
  nth 3 (Mesh.fan_from 0 0 0 1 0 100) 0 = 0 + 1
  /\ nth 6 (Mesh.fan_from 0 0 0 1 0 100) 0 * nth 6 (Mesh.fan_from 0 0 0 1 0 100) 0
     + nth 7 (Mesh.fan_from 0 0 0 1 0 100) 0 * nth 7 (Mesh.fan_from 0 0 0 1 0 100) 0
     = 1.
Proof.
  pose proof (fill_vertices_geometry 0 0 0 1 (repeat 0 300) (Mesh.fan_from 0 0 0 1 0 100)
                (repeat_length 0 300)
                (fill_vertices_fan 0 0 0 1 (repeat 0 300) (repeat_length 0 300)))
    as (_ & (Hfirst & _) & Hrim).
  split; [exact Hfirst |].
  destruct (Hrim 2%nat ltac:(lia)) as (_ & _ & _ & Hcircle).
  change (3 * 2)%nat with 6%nat in Hcircle. change (6 + 1)%nat with 7%nat in Hcircle.
  lra.
Defined.

(** * Ray generation and the ring blend of the integrated-bending shader *)

Lemma smoothstep_range (e0 e1 x : R) : 0 <= smoothstep e0 e1 x <= 1.
Proof.
  unfold smoothstep. cbv zeta.
  pose proof (clamp_bounds ((x - e0) / (e1 - e0)) 0 1 ltac:(lra)) as Ht.
  set (t := clamp _ 0 1) in *.
  assert (H1 : 0 <= t * t * (3 - 2 * t)) by (apply Rmult_le_pos; nra).
  assert (H2 : 0 <= (1 - t) * (1 - t) * (1 + 2 * t)) by (apply Rmult_le_pos; nra).
  split; [exact H1 |].
  replace (t * t * (3 - 2 * t)) with (1 - (1 - t) * (1 - t) * (1 + 2 * t)) by ring.
  lra.
Qed.

Lemma smoothstep_saturated (x : R) : 0.85 <= x -> smoothstep 0.0 0.85 x = 1.
Proof.
  intros Hx. unfold smoothstep. cbv zeta.
  replace ((x - 0.0) / (0.85 - 0.0)) with (x / 0.85) by lra.
  rewrite clamp_above by lra. ring.
Qed.

Lemma pow_two (x : R) : 0 <= x -> pow x 2.0 = x * x.
Proof.
  intros Hx. unfold pow. destruct (Req_EM_T x 0) as [-> | Hne]; [ring |].
  rewrite Rabs_pos_eq by exact Hx. unfold Rpower.
  replace (2.0 * ln x) with (ln x + ln x) by lra.
  rewrite exp_plus, exp_ln by lra. reflexivity.
Qed.

Lemma mix3_full (a b : vec3) : mix3 a b 1 = b.
Proof. apply vec3_eq; unfold mix3, mix; simpl; ring. Qed.

(** X24: for a ray that is not captured, the fragment colour is a blend
    of the lensed background and the ring colour with a factor in
    [[0, 1]]; when the impact parameter is at most 0.03 above [b_crit] the
    factor is 1 and the fragment is exactly the ring colour. *)
Theorem main_ring_blend (u : Uniforms) (gl_FragCoord : vec4) :
  ms_hit (main_march u gl_FragCoord) = false ->
  let b := main_b_global u gl_FragCoord in
  let bg := sampleLensedSky (cameraPos u) (ms_D (main_march u gl_FragCoord)) b in
  (exists a : R, 0 <= a <= 1
     /\ main u gl_FragCoord = vec4_of (mix3 bg (computeLensedColor b) a) 1)
  /\ (b_crit <= b <= b_crit + 0.03 ->
      main u gl_FragCoord = vec4_of (computeLensedColor b) 1).
Proof.
  intros Hhit b bg. rewrite main_shading, Hhit. cbv zeta. fold b. fold bg.
  replace 1.0 with 1 by lra. split.
  - eexists. split; [apply smoothstep_range | reflexivity].
  - intros [Hlo Hhi].
    assert (Hc : 0.03 * b_crit = 0.07794) by (unfold b_crit, r_s; lra).
    rewrite Hc.
    assert (Hx : 0 <= (b - b_crit) / 0.07794 <= 0.385) by (split; lra).
    rewrite pow_two by lra.
    set (x := (b - b_crit) / 0.07794) in *.
    pose proof (exp_ineq1_le (- (x * x))) as He.
    rewrite smoothstep_saturated by nra.
    now rewrite mix3_full.
Qed.

Lemma main_ring_blend_witness :
  exists a : R, 0 <= a <= 1
    /\ main away_uniforms centre_fragment
       = vec4_of (mix3 (sampleLensedSky (cameraPos away_uniforms)
                          (ms_D (main_march away_uniforms centre_fragment))
                          (main_b_global away_uniforms centre_fragment))
                       (computeLensedColor (main_b_global away_uniforms centre_fragment)) a) 1.
Proof.
  exact (proj1 (main_ring_blend away_uniforms centre_fragment
                  (proj1 away_ray_sampler_arguments))).
Defined.

(** X25: for a positive resolution and a fragment inside the image, the
    screen coordinate [uv.y] lies in [[-1, 1)] and [uv.x] in
    [[-aspect, aspect)]; the camera-space direction is always a unit
    vector pointing forward ([z < 0]), and the world-space direction is
    its image under the inverse view matrix, normalized. *)
Theorem ray_generation (u : Uniforms) (gl_FragCoord : vec4) :
  0 < v2x (iResolution u) -> 0 < v2y (iResolution u) ->
  0 <= v4x gl_FragCoord < v2x (iResolution u) ->
  0 <= v4y gl_FragCoord < v2y (iResolution u) ->
  let aspect := v2x (iResolution u) / v2y (iResolution u) in
  - aspect <= v2x (main_uv u gl_FragCoord) < aspect
  /\ -1 <= v2y (main_uv u gl_FragCoord) < 1
  /\ length (main_rayDirCam u gl_FragCoord) = 1
  /\ vz (main_rayDirCam u gl_FragCoord) < 0
  /\ main_rayDirWorld u gl_FragCoord
     = normalize (xyz (mulMV (invViewMatrix u)
                         (vec4_of (main_rayDirCam u gl_FragCoord) 0.0))).
Proof.
  intros Hw Hh Hx Hy aspect.
  assert (Ha : 0 < aspect) by now apply Rdiv_lt_0_compat.
  assert (Hfx : 0 <= v4x gl_FragCoord / v2x (iResolution u) < 1).
  { split; [apply Rmult_le_pos; [lra | left; now apply Rinv_0_lt_compat] |].
    apply Rmult_lt_reg_r with (v2x (iResolution u)); [exact Hw |].
    unfold Rdiv. rewrite Rmult_assoc, Rinv_l by lra. lra. }
  assert (Hfy : 0 <= v4y gl_FragCoord / v2y (iResolution u) < 1).
  { split; [apply Rmult_le_pos; [lra | left; now apply Rinv_0_lt_compat] |].
    apply Rmult_lt_reg_r with (v2y (iResolution u)); [exact Hh |].
    unfold Rdiv. rewrite Rmult_assoc, Rinv_l by lra. lra. }
  assert (Hlen : 1 <= length (mkvec3 (v2x (main_uv u gl_FragCoord))
                            (v2y (main_uv u gl_FragCoord)) (-1.0))).
  { rewrite <- sqrt_1 at 1. unfold length. apply sqrt_le_1_alt.
    unfold dot. cbn [vx vy vz].
    pose proof (Rle_0_sqr (v2x (main_uv u gl_FragCoord))) as H1.
    pose proof (Rle_0_sqr (v2y (main_uv u gl_FragCoord))) as H2.
    unfold Rsqr in H1, H2. lra. }
  unfold main_uv in *. cbv zeta in *. cbn [v2x v2y] in *. fold aspect.
  set (fx := v4x gl_FragCoord / v2x (iResolution u)) in *.
  set (fy := v4y gl_FragCoord / v2y (iResolution u)) in *.
  split; [split; nra |]. split; [lra |].
  unfold main_rayDirCam, main_uv. cbv zeta. cbn [v2x v2y]. fold aspect. fold fx. fold fy.
  set (v := mkvec3 ((fx * 2.0 - 1.0) * aspect) (fy * 2.0 - 1.0) (-1.0)) in *.
  change (1 <= length v) in Hlen.
  split; [apply length_normalize; lra |]. split.
  - unfold normalize, div3. cbn [vz]. unfold v at 1. cbn [vz].
    assert (0 < / length v) by (apply Rinv_0_lt_compat; lra).
    unfold Rdiv. nra.
  - reflexivity.
Qed.

Lemma ray_generation_witness :
  -1 <= v2y (main_uv head_on_uniforms centre_fragment) < 1
  /\ length (main_rayDirCam head_on_uniforms centre_fragment) = 1.
Proof.
  refine (let H := ray_generation head_on_uniforms centre_fragment _ _ _ _ in
          conj (proj1 (proj2 H)) (proj1 (proj2 (proj2 H)))); simpl; lra.
Defined.
